(** * Bundler gateway: queue, dispatch, reconcile, completion

    A shallow embedding of [backend/apps/bundler/models.py] and
    [backend/services/bundler/gateway.py].  The three Django models are
    records, the database is a record of three tables (lists of rows, in
    insertion order), and every gateway method is a function that takes the
    database and the reading of the clock and returns its result together
    with the database after the call. *)

From Stdlib Require Import ZArith List Lia.
From stdpp Require Import base option list sorting strings gmap.

(** ** Values *)

(** [uuid.uuid4()] is modelled by a counter kept next to the tables: every
    call hands out an identifier that was never handed out before. *)
Definition uuid := nat.

(** [timezone.now()] values: microseconds since the epoch. *)
Definition datetime := Z.
Bind Scope Z_scope with datetime.

(** [timedelta(minutes=5)] *)
Definition minutes (n : Z) : Z := (n * 60 * 1000000)%Z.

(** The JSON values the gateway stores in [metadata] and [payload] columns and
    returns in its result dicts.  [JUuid u] is [str(u)] for a primary key. *)
#[warnings="-register-all"]
Inductive json :=
| JNull
| JBool (b : bool)
| JInt (z : Z)
| JStr (s : string)
| JUuid (u : uuid)
| JList (l : list json).

Abbreviation dict := (gmap string json).

(** Python truthiness of a [str]: [s or d]. *)
Definition str_or (s d : string) : string := if decide (s = "") then d else s.

(** ** Models *)

Module UserOperation.

Inductive Status := QUEUED | DISPATCHED | INCLUDED | FAILED | DROPPED.

Definition value (s : Status) : string :=
  match s with
  | QUEUED => "queued"
  | DISPATCHED => "dispatched"
  | INCLUDED => "included"
  | FAILED => "failed"
  | DROPPED => "dropped"
  end.

Definition all : list Status := [QUEUED; DISPATCHED; INCLUDED; FAILED; DROPPED].

(** [Status.values] *)
Definition values : list string := value <$> all.

Definition of_value (v : string) : option Status :=
  List.find (fun s => bool_decide (value s = v)) all.

Global Instance Status_eq_dec : EqDecision Status.
Proof. solve_decision. Defined.

Record t := mk {
  id : uuid;
  chain_id : N;
  sender : string;
  wallet : option uuid;
  user : option uuid;
  user_op_hash : string;
  nonce : string;
  call_data : option (list Byte.byte);
  call_gas_limit : Z;
  verification_gas_limit : Z;
  pre_verification_gas : Z;
  max_fee_per_gas : Z;
  max_priority_fee_per_gas : Z;
  paymaster : string;
  status : Status;
  failure_reason : string;
  metadata : dict;
  queued_at : datetime;
  updated_at : datetime;
  completed_at : option datetime;
}.

(** Attribute assignment on the Python object, one setter per attribute the
    gateway assigns. *)
Definition set_status (v : Status) (o : t) : t :=
  mk (id o) (chain_id o) (sender o) (wallet o) (user o) (user_op_hash o)
     (nonce o) (call_data o) (call_gas_limit o) (verification_gas_limit o)
     (pre_verification_gas o) (max_fee_per_gas o) (max_priority_fee_per_gas o)
     (paymaster o) v (failure_reason o) (metadata o) (queued_at o)
     (updated_at o) (completed_at o).

Definition set_failure_reason (v : string) (o : t) : t :=
  mk (id o) (chain_id o) (sender o) (wallet o) (user o) (user_op_hash o)
     (nonce o) (call_data o) (call_gas_limit o) (verification_gas_limit o)
     (pre_verification_gas o) (max_fee_per_gas o) (max_priority_fee_per_gas o)
     (paymaster o) (status o) v (metadata o) (queued_at o)
     (updated_at o) (completed_at o).

Definition set_metadata (v : dict) (o : t) : t :=
  mk (id o) (chain_id o) (sender o) (wallet o) (user o) (user_op_hash o)
     (nonce o) (call_data o) (call_gas_limit o) (verification_gas_limit o)
     (pre_verification_gas o) (max_fee_per_gas o) (max_priority_fee_per_gas o)
     (paymaster o) (status o) (failure_reason o) v (queued_at o)
     (updated_at o) (completed_at o).

Definition set_updated_at (v : datetime) (o : t) : t :=
  mk (id o) (chain_id o) (sender o) (wallet o) (user o) (user_op_hash o)
     (nonce o) (call_data o) (call_gas_limit o) (verification_gas_limit o)
     (pre_verification_gas o) (max_fee_per_gas o) (max_priority_fee_per_gas o)
     (paymaster o) (status o) (failure_reason o) (metadata o) (queued_at o)
     v (completed_at o).

Definition set_completed_at (v : option datetime) (o : t) : t :=
  mk (id o) (chain_id o) (sender o) (wallet o) (user o) (user_op_hash o)
     (nonce o) (call_data o) (call_gas_limit o) (verification_gas_limit o)
     (pre_verification_gas o) (max_fee_per_gas o) (max_priority_fee_per_gas o)
     (paymaster o) (status o) (failure_reason o) (metadata o) (queued_at o)
     (updated_at o) v.

(** The columns named in the [update_fields] of the gateway's saves. *)
Inductive field := status_ | failure_reason_ | metadata_ | updated_at_ | completed_at_.

(** Copy one column of the object [src] into the stored row. *)
Definition write (f : field) (src row : t) : t :=
  match f with
  | status_ => set_status (status src) row
  | failure_reason_ => set_failure_reason (failure_reason src) row
  | metadata_ => set_metadata (metadata src) row
  | updated_at_ => set_updated_at (updated_at src) row
  | completed_at_ => set_completed_at (completed_at src) row
  end.

(** Copy the columns [fs] of the object [src] into the stored row. *)
Definition write_fields (fs : list field) (src row : t) : t :=
  foldr (fun f r => write f src r) row fs.

(** The terminal statuses of [mark_status]. *)
Definition terminal (s : Status) : bool :=
  match s with
  | INCLUDED | FAILED | DROPPED => true
  | _ => false
  end.

End UserOperation.

Module BundlerJob.

Inductive Status := QUEUED | DISPATCHING | SUCCEEDED | FAILED | RETRYING.

Global Instance Status_eq_dec : EqDecision Status.
Proof. solve_decision. Defined.

Record t := mk {
  id : uuid;
  user_operation : uuid;
  target_endpoint : string;
  status : Status;
  attempt_count : nat;
  priority : nat;
  last_error : string;
  enqueued_at : datetime;
  last_attempt_at : option datetime;
  metadata : dict;
  updated_at : datetime;
}.

Definition set_status (v : Status) (j : t) : t :=
  mk (id j) (user_operation j) (target_endpoint j) v (attempt_count j)
     (priority j) (last_error j) (enqueued_at j) (last_attempt_at j)
     (metadata j) (updated_at j).

Definition set_attempt_count (v : nat) (j : t) : t :=
  mk (id j) (user_operation j) (target_endpoint j) (status j) v
     (priority j) (last_error j) (enqueued_at j) (last_attempt_at j)
     (metadata j) (updated_at j).

Definition set_last_error (v : string) (j : t) : t :=
  mk (id j) (user_operation j) (target_endpoint j) (status j) (attempt_count j)
     (priority j) v (enqueued_at j) (last_attempt_at j)
     (metadata j) (updated_at j).

Definition set_last_attempt_at (v : option datetime) (j : t) : t :=
  mk (id j) (user_operation j) (target_endpoint j) (status j) (attempt_count j)
     (priority j) (last_error j) (enqueued_at j) v
     (metadata j) (updated_at j).

Definition set_updated_at (v : datetime) (j : t) : t :=
  mk (id j) (user_operation j) (target_endpoint j) (status j) (attempt_count j)
     (priority j) (last_error j) (enqueued_at j) (last_attempt_at j)
     (metadata j) v.

Inductive field := status_ | attempt_count_ | last_error_ | last_attempt_at_ | updated_at_.

Definition write (f : field) (src row : t) : t :=
  match f with
  | status_ => set_status (status src) row
  | attempt_count_ => set_attempt_count (attempt_count src) row
  | last_error_ => set_last_error (last_error src) row
  | last_attempt_at_ => set_last_attempt_at (last_attempt_at src) row
  | updated_at_ => set_updated_at (updated_at src) row
  end.

Definition write_fields (fs : list field) (src row : t) : t :=
  foldr (fun f r => write f src r) row fs.

End BundlerJob.

Module UserOperationEvent.

Record t := mk {
  id : uuid;
  user_operation : uuid;
  event_type : string;
  payload : dict;
  created_at : datetime;
}.

End UserOperationEvent.

(** ** The database *)

Record Store := mkStore {
  operations : list UserOperation.t;
  jobs : list BundlerJob.t;
  events : list UserOperationEvent.t;
  uuid_next : uuid;
}.

Definition empty_store : Store := mkStore [] [] [] 0.

Definition uuid4 (db : Store) : uuid * Store :=
  (uuid_next db,
   mkStore (operations db) (jobs db) (events db) (S (uuid_next db))).

Definition set_operations (l : list UserOperation.t) (db : Store) : Store :=
  mkStore l (jobs db) (events db) (uuid_next db).

Definition set_jobs (l : list BundlerJob.t) (db : Store) : Store :=
  mkStore (operations db) l (events db) (uuid_next db).

Definition set_events (l : list UserOperationEvent.t) (db : Store) : Store :=
  mkStore (operations db) (jobs db) l (uuid_next db).

(** *** Manager queries *)

(** [objects.get(id=i)] on a table whose primary key is [key]: the row with
    that key, if there is one. *)
Definition lookup_row {A} (key : A -> uuid) (i : uuid) (l : list A) : option A :=
  List.find (fun row => bool_decide (key row = i)) l.

(** [UserOperation.objects.get(id=i)] *)
Definition get_operation (i : uuid) (db : Store) : option UserOperation.t :=
  lookup_row UserOperation.id i (operations db).

(** [UserOperation.objects.get(user_op_hash=h)] *)
Definition get_operation_by_hash (h : string) (db : Store) : option UserOperation.t :=
  List.find (fun o => bool_decide (UserOperation.user_op_hash o = h)) (operations db).

(** [BundlerJob.objects.get(id=i)] *)
Definition get_job (i : uuid) (db : Store) : option BundlerJob.t :=
  lookup_row BundlerJob.id i (jobs db).

(** [.select_related('user_operation')]: the inner join of the job rows with
    their operation rows; every job object carries its own copy of the
    operation row as it was when the query ran. *)
Definition select_related (db : Store) (l : list BundlerJob.t)
  : list (BundlerJob.t * UserOperation.t) :=
  omap (fun j => o ← get_operation (BundlerJob.user_operation j) db; Some (j, o)) l.

(** [.filter(P).order_by(R)[:n]], evaluated on the rows [l]. *)
Definition query {A} (P : A -> Prop) `{forall x, Decision (P x)}
    (R : relation A) `{forall x y, Decision (R x y)} (n : nat) (l : list A) : list A :=
  take n (merge_sort R (filter P l)).

(** *** Writes *)

(** [UPDATE ... WHERE id = i]: rewrite the rows with primary key [i]. *)
Definition update_rows {A} (key : A -> uuid) (i : uuid) (f : A -> A) (l : list A) : list A :=
  (fun row => if bool_decide (key row = i) then f row else row) <$> l.

(** [obj.save(update_fields=fs)] on an operation: [updated_at] is an
    [auto_now] column, so the object gets the clock's reading first; then the
    named columns of the object overwrite those of its row. *)
Definition save_operation (now : datetime) (o : UserOperation.t)
    (update_fields : list UserOperation.field) (db : Store) : UserOperation.t * Store :=
  let o := UserOperation.set_updated_at now o in
  (o, set_operations
        (update_rows UserOperation.id (UserOperation.id o)
           (UserOperation.write_fields update_fields o) (operations db)) db).

Definition save_job (now : datetime) (j : BundlerJob.t)
    (update_fields : list BundlerJob.field) (db : Store) : BundlerJob.t * Store :=
  let j := BundlerJob.set_updated_at now j in
  (j, set_jobs
        (update_rows BundlerJob.id (BundlerJob.id j)
           (BundlerJob.write_fields update_fields j) (jobs db)) db).

(** [UserOperationEvent.objects.create(...)] *)
Definition create_event (now : datetime) (operation : uuid) (event_type : string)
    (payload : dict) (db : Store) : UserOperationEvent.t * Store :=
  let '(i, db) := uuid4 db in
  let e := UserOperationEvent.mk i operation event_type payload now in
  (e, set_events (events db ++ [e]) db).

(** [BundlerJob.objects.create(user_operation=..., target_endpoint=...,
    metadata=...)]: the other columns take the defaults of the model. *)
Definition create_job (now : datetime) (operation : uuid) (endpoint : string)
    (metadata : dict) (db : Store) : BundlerJob.t * Store :=
  let '(i, db) := uuid4 db in
  let j := BundlerJob.mk i operation endpoint BundlerJob.QUEUED 0 100 ""
             now None metadata now in
  (j, set_jobs (jobs db ++ [j]) db).

(** ** [UserOperation.mark_status] *)

Definition mark_status (now : datetime) (self : UserOperation.t) (status : string)
    (reason : option string) (db : Store) : UserOperation.t * Store :=
  let valid_status := default UserOperation.FAILED (UserOperation.of_value status) in
  let self := UserOperation.set_status valid_status self in
  let self :=
    match reason with
    | Some r => if decide (r = "") then self else UserOperation.set_failure_reason r self
    | None => self
    end in
  let self :=
    if UserOperation.terminal valid_status
    then UserOperation.set_completed_at (Some now) self
    else self in
  save_operation now self
    [UserOperation.status_; UserOperation.failure_reason_;
     UserOperation.completed_at_; UserOperation.updated_at_] db.

(** ** [BundlerGatewayService] *)

(** The [payload] mapping of [queue_operation], at the type the router builds
    it with ([_coerce_payload]): bytes under [call_data], ints under the five
    gas keys.  [None] is an absent key. *)
Record Payload := mkPayload {
  p_call_data : option (list Byte.byte);
  p_call_gas_limit : option Z;
  p_verification_gas_limit : option Z;
  p_pre_verification_gas : option Z;
  p_max_fee_per_gas : option Z;
  p_max_priority_fee_per_gas : option Z;
}.

Definition empty_payload : Payload := mkPayload None None None None None None.

(** [int(payload.get(k, 0) or 0)] *)
Definition int_or_0 (v : option Z) : Z := default 0%Z v.

(** The keyword arguments of [queue_operation]. *)
Record QueueArgs := mkQueueArgs {
  chain_id : N;
  sender : string;
  user_op_hash : string;
  nonce : string;
  endpoint : string;
  payload : option Payload;
  metadata : option dict;
}.

Record QueuedOperation := mkQueuedOperation {
  user_operation : UserOperation.t;
  bundler_job : BundlerJob.t;
}.

(** [UserOperation.objects.select_for_update().get_or_create(user_op_hash=h,
    defaults=...)] *)
Definition get_or_create (now : datetime) (a : QueueArgs) (payload : Payload)
    (metadata : dict) (db : Store) : UserOperation.t * bool * Store :=
  match get_operation_by_hash (user_op_hash a) db with
  | Some o => (o, false, db)
  | None =>
      let '(i, db) := uuid4 db in
      let o := UserOperation.mk i (chain_id a) (sender a) None None
                 (user_op_hash a) (nonce a)
                 (p_call_data payload)
                 (int_or_0 (p_call_gas_limit payload))
                 (int_or_0 (p_verification_gas_limit payload))
                 (int_or_0 (p_pre_verification_gas payload))
                 (int_or_0 (p_max_fee_per_gas payload))
                 (int_or_0 (p_max_priority_fee_per_gas payload))
                 "" UserOperation.QUEUED "" metadata now now None in
      (o, true, set_operations (operations db ++ [o]) db)
  end.

Definition queue_operation (now : datetime) (a : QueueArgs) (db : Store)
  : QueuedOperation * Store :=
  let payload := default empty_payload (payload a) in
  let metadata := default ∅ (metadata a) in
  let '(user_operation, _, db) := get_or_create now a payload metadata db in
  let '(user_operation, db) :=
    if decide (UserOperation.status user_operation ≠ UserOperation.QUEUED) then
      let o := UserOperation.set_status UserOperation.QUEUED user_operation in
      let o := UserOperation.set_failure_reason "" o in
      let o := UserOperation.set_completed_at None o in
      save_operation now o
        [UserOperation.status_; UserOperation.failure_reason_;
         UserOperation.completed_at_; UserOperation.updated_at_] db
    else (user_operation, db) in
  let '(job, db) :=
    create_job now (UserOperation.id user_operation) (endpoint a)
      {[ "attempt_context" := JStr "initial" ]} db in
  let '(_, db) :=
    create_event now (UserOperation.id user_operation) "queued"
      {[ "endpoint" := JStr (endpoint a) ]} db in
  (mkQueuedOperation user_operation job, db).

(** *** [dispatch_batch] *)

(** [status__in=[QUEUED, RETRYING]] *)
Definition eligible (j : BundlerJob.t) : Prop :=
  BundlerJob.status j = BundlerJob.QUEUED \/ BundlerJob.status j = BundlerJob.RETRYING.

Global Instance eligible_dec j : Decision (eligible j).
Proof. unfold eligible. apply _. Defined.

(** [order_by('priority', 'enqueued_at')] *)
Definition job_order (j1 j2 : BundlerJob.t) : Prop :=
  BundlerJob.priority j1 < BundlerJob.priority j2 \/
  (BundlerJob.priority j1 = BundlerJob.priority j2 /\
   (BundlerJob.enqueued_at j1 <= BundlerJob.enqueued_at j2)%Z).

Global Instance job_order_dec j1 j2 : Decision (job_order j1 j2).
Proof. unfold job_order. apply _. Defined.

(** A job object together with its [user_operation] object. *)
Definition joined : Type := BundlerJob.t * UserOperation.t.

(** The queryset of [dispatch_batch], evaluated: join, filter, order, slice.
    The database runs as one session here, so no row is locked by another
    transaction and [skip_locked] skips nothing. *)
Definition queued_jobs (batch_size : nat) (db : Store) : list joined :=
  query (fun x : joined => eligible x.1) (fun x y => job_order x.1 y.1) batch_size
    (select_related db (jobs db)).

(** The body of the [for job in queued_jobs] loop. *)
Definition dispatch_job (now : datetime) (x : joined) (db : Store) : joined * Store :=
  let '(job, operation) := x in
  let job := BundlerJob.set_status BundlerJob.DISPATCHING job in
  let job := BundlerJob.set_attempt_count (BundlerJob.attempt_count job + 1) job in
  let job := BundlerJob.set_last_attempt_at (Some now) job in
  let job := BundlerJob.set_last_error "" job in
  let '(job, db) :=
    save_job now job
      [BundlerJob.status_; BundlerJob.attempt_count_; BundlerJob.last_attempt_at_;
       BundlerJob.last_error_; BundlerJob.updated_at_] db in
  let operation := UserOperation.set_status UserOperation.DISPATCHED operation in
  let '(operation, db) :=
    save_operation now operation [UserOperation.status_; UserOperation.updated_at_] db in
  let '(_, db) :=
    create_event now (UserOperation.id operation) "dispatching"
      (<[ "job_id" := JUuid (BundlerJob.id job) ]>
         {[ "endpoint" := JStr (BundlerJob.target_endpoint job) ]}) db in
  ((job, operation), db).

(** The loop: [claimed] grows at its end, the database is threaded through. *)
Fixpoint dispatch_loop (now : datetime) (l : list joined) (claimed : list joined)
    (db : Store) : list joined * Store :=
  match l with
  | [] => (claimed, db)
  | x :: l =>
      let '(y, db) := dispatch_job now x db in
      dispatch_loop now l (claimed ++ [y]) db
  end.

Definition dispatch_batch (now : datetime) (batch_size : nat) (db : Store)
  : dict * Store :=
  let '(claimed, db) := dispatch_loop now (queued_jobs batch_size db) [] db in
  match claimed with
  | [] => (<[ "count" := JInt 0 ]> {[ "job_ids" := JList [] ]}, db)
  | _ =>
      (<[ "count" := JInt (Z.of_nat (length claimed)) ]>
        (<[ "job_ids" := JList ((fun x : joined => JUuid (BundlerJob.id x.1)) <$> claimed) ]>
          {[ "operation_hashes" :=
               JList ((fun x : joined => JStr (UserOperation.user_op_hash x.2)) <$> claimed) ]}),
       db)
  end.

(** *** [reconcile_inflight] *)

(** [status=DISPATCHING, last_attempt_at__lt=cutoff]; a NULL [last_attempt_at]
    never compares below the cutoff. *)
Definition stale (cutoff : datetime) (j : BundlerJob.t) : Prop :=
  BundlerJob.status j = BundlerJob.DISPATCHING /\
  match BundlerJob.last_attempt_at j with
  | Some t => (t < cutoff)%Z
  | None => False
  end.

Global Instance stale_dec cutoff j : Decision (stale cutoff j).
Proof. unfold stale. destruct (BundlerJob.last_attempt_at j); apply _. Defined.

(** [order_by('last_attempt_at')], ascending.  Rows with a NULL never reach
    the ordering (the filter drops them); they are put first here. *)
Definition attempt_order (j1 j2 : BundlerJob.t) : Prop :=
  match BundlerJob.last_attempt_at j1, BundlerJob.last_attempt_at j2 with
  | Some a, Some b => (a <= b)%Z
  | None, _ => True
  | Some _, None => False
  end.

Global Instance attempt_order_dec j1 j2 : Decision (attempt_order j1 j2).
Proof.
  unfold attempt_order.
  destruct (BundlerJob.last_attempt_at j1), (BundlerJob.last_attempt_at j2); apply _.
Defined.

Definition inflight (now : datetime) (limit : nat) (db : Store) : list joined :=
  let cutoff := (now - minutes 5)%Z in
  query (fun x : joined => stale cutoff x.1) (fun x y => attempt_order x.1 y.1) limit
    (select_related db (jobs db)).

(** The counters [requeued] and [failed] of the loop. *)
Record Counters := mkCounters { requeued : nat; failed : nat }.

(** The body of the [for job in inflight] loop. *)
Definition reconcile_job (now : datetime) (x : joined) (c : Counters) (db : Store)
  : Counters * Store :=
  let '(job, operation) := x in
  if decide (3 <= BundlerJob.attempt_count job) then
    let job := BundlerJob.set_status BundlerJob.FAILED job in
    let job :=
      BundlerJob.set_last_error
        (str_or (BundlerJob.last_error job) "Dispatch attempts exceeded") job in
    let '(job, db) :=
      save_job now job
        [BundlerJob.status_; BundlerJob.last_error_; BundlerJob.updated_at_] db in
    let '(operation, db) :=
      mark_status now operation (UserOperation.value UserOperation.FAILED)
        (Some (BundlerJob.last_error job)) db in
    let '(_, db) :=
      create_event now (UserOperation.id operation) "failed"
        (<[ "job_id" := JUuid (BundlerJob.id job) ]>
           {[ "reason" := JStr (BundlerJob.last_error job) ]}) db in
    (mkCounters (requeued c) (failed c + 1), db)
  else
    let job := BundlerJob.set_status BundlerJob.RETRYING job in
    let '(job, db) :=
      save_job now job [BundlerJob.status_; BundlerJob.updated_at_] db in
    let operation := UserOperation.set_status UserOperation.QUEUED operation in
    let '(operation, db) :=
      save_operation now operation [UserOperation.status_; UserOperation.updated_at_] db in
    let '(_, db) :=
      create_event now (UserOperation.id operation) "requeued"
        {[ "job_id" := JUuid (BundlerJob.id job) ]} db in
    (mkCounters (requeued c + 1) (failed c), db).

Fixpoint reconcile_loop (now : datetime) (l : list joined) (c : Counters)
    (db : Store) : Counters * Store :=
  match l with
  | [] => (c, db)
  | x :: l =>
      let '(c, db) := reconcile_job now x c db in
      reconcile_loop now l c db
  end.

Definition reconcile_result (processed requeued failed : nat) : dict :=
  <[ "processed" := JInt (Z.of_nat processed) ]>
    (<[ "requeued" := JInt (Z.of_nat requeued) ]>
       {[ "failed" := JInt (Z.of_nat failed) ]}).

Definition reconcile_inflight (now : datetime) (limit : nat) (db : Store)
  : dict * Store :=
  let inflight := inflight now limit db in
  match inflight with
  | [] => (reconcile_result 0 0 0, db)
  | _ =>
      let '(c, db) := reconcile_loop now inflight (mkCounters 0 0) db in
      (reconcile_result (length inflight) (requeued c) (failed c), db)
  end.

(** *** [mark_included] *)

(** [BundlerJob.DoesNotExist], the one exception the gateway lets escape. *)
Inductive exn := DoesNotExist.

Inductive outcome (A : Type) :=
| Returned (a : A)
| Raised (e : exn).
Arguments Returned {A} a.
Arguments Raised {A} e.

(** [BundlerJob.objects.select_related('user_operation').get(id=job_id)]: one
    row of the join, or [DoesNotExist]. *)
Definition get_job_related (job_id : uuid) (db : Store) : outcome joined :=
  match lookup_row (fun x : joined => BundlerJob.id x.1) job_id
          (select_related db (jobs db)) with
  | Some x => Returned x
  | None => Raised DoesNotExist
  end.

(** An exception leaves the [transaction.atomic()] block and the database is
    rolled back to what it was on entry. *)
Definition mark_included (now : datetime) (job_id : uuid) (tx_hash : string)
    (db : Store) : outcome unit * Store :=
  match get_job_related job_id db with
  | Raised e => (Raised e, db)
  | Returned (job, user_operation) =>
      let job := BundlerJob.set_status BundlerJob.SUCCEEDED job in
      let job := BundlerJob.set_last_error "" job in
      let '(job, db) :=
        save_job now job
          [BundlerJob.status_; BundlerJob.last_error_; BundlerJob.updated_at_] db in
      let user_operation :=
        UserOperation.set_status UserOperation.INCLUDED user_operation in
      let user_operation :=
        UserOperation.set_metadata
          (<[ "tx_hash" := JStr tx_hash ]> (UserOperation.metadata user_operation))
          user_operation in
      let user_operation := UserOperation.set_completed_at (Some now) user_operation in
      let '(user_operation, db) :=
        save_operation now user_operation
          [UserOperation.status_; UserOperation.metadata_;
           UserOperation.completed_at_; UserOperation.updated_at_] db in
      let '(_, db) :=
        create_event now (UserOperation.id user_operation) "included"
          (<[ "job_id" := JUuid (BundlerJob.id job) ]>
             {[ "tx_hash" := JStr tx_hash ]}) db in
      (Returned tt, db)
  end.

(** ** The API layer's view of [dispatch_batch]

    The router in [api/routers/bundler.py] builds a [DispatchResponse] from the
    keys of the result dict: a pydantic model with three required fields.  Validation fails when a key is missing or a
    value has the wrong type. *)
Record DispatchResponse := mkDispatchResponse {
  count : Z;
  job_ids : list json;
  operation_hashes : list json;
}.

Definition as_int (v : json) : option Z :=
  match v with JInt z => Some z | _ => None end.

Definition as_list (v : json) : option (list json) :=
  match v with JList l => Some l | _ => None end.

Definition validate_DispatchResponse (result : dict) : option DispatchResponse :=
  c ← result !! "count" ≫= as_int;
  js ← result !! "job_ids" ≫= as_list;
  hs ← result !! "operation_hashes" ≫= as_list;
  Some (mkDispatchResponse c js hs).

(** ** Runs of the gateway *)

(** One call of a gateway method, with the clock's reading during the call. *)
Inductive call :=
| QueueOperation (now : datetime) (a : QueueArgs)
| DispatchBatch (now : datetime) (batch_size : nat)
| ReconcileInflight (now : datetime) (limit : nat)
| MarkIncluded (now : datetime) (job_id : uuid) (tx_hash : string).

Definition step (c : call) (db : Store) : Store :=
  match c with
  | QueueOperation now a => (queue_operation now a db).2
  | DispatchBatch now n => (dispatch_batch now n db).2
  | ReconcileInflight now n => (reconcile_inflight now n db).2
  | MarkIncluded now i tx => (mark_included now i tx db).2
  end.

Definition run (cs : list call) (db : Store) : Store :=
  foldl (fun db c => step c db) db cs.

Definition reachable (db : Store) : Prop :=
  exists cs, db = run cs empty_store.

(** ** Integrity constraints of the schema

    Primary keys are unique, [user_op_hash] is [unique=True], the foreign key
    of a job resolves, and every key in use was handed out by [uuid4]. *)
Definition store_ok (db : Store) : Prop :=
  NoDup (UserOperation.id <$> operations db) /\
  NoDup (UserOperation.user_op_hash <$> operations db) /\
  NoDup (BundlerJob.id <$> jobs db) /\
  Forall (fun i => i ∈ UserOperation.id <$> operations db)
    (BundlerJob.user_operation <$> jobs db) /\
  Forall (fun i => i < uuid_next db) (UserOperation.id <$> operations db) /\
  Forall (fun i => i < uuid_next db) (BundlerJob.id <$> jobs db).

Global Instance store_ok_dec db : Decision (store_ok db).
Proof. unfold store_ok. apply _. Defined.

(** The key columns of a row: primary key and hash of an operation, primary
    key and foreign key of a job. *)
Definition operation_keys (o : UserOperation.t) : uuid * string :=
  (UserOperation.id o, UserOperation.user_op_hash o).

Definition job_keys (j : BundlerJob.t) : uuid * uuid :=
  (BundlerJob.id j, BundlerJob.user_operation j).

(** Two databases with the same keys, row by row; the identifier counter may
    have advanced. *)
Definition same_keys (db db' : Store) : Prop :=
  operation_keys <$> operations db' = operation_keys <$> operations db /\
  job_keys <$> jobs db' = job_keys <$> jobs db /\
  uuid_next db <= uuid_next db'.

(** The operations table only grows, and never at a key column of an old
    row. *)
Definition operations_grow (db db' : Store) : Prop :=
  exists extra,
    operation_keys <$> operations db' = (operation_keys <$> operations db) ++ extra.

(** ** Values named in the statements *)

(** The operation object of [queue_operation] after its reset branch ran. *)
Definition requeued_operation (now : datetime) (o : UserOperation.t) : UserOperation.t :=
  UserOperation.set_updated_at now
    (UserOperation.set_completed_at None
       (UserOperation.set_failure_reason ""
          (UserOperation.set_status UserOperation.QUEUED o))).

(** The job row [queue_operation] inserts. *)
Definition initial_job (now : datetime) (i operation : uuid) (endpoint : string)
  : BundlerJob.t :=
  BundlerJob.mk i operation endpoint BundlerJob.QUEUED 0 100 "" now None
    {[ "attempt_context" := JStr "initial" ]} now.

(** The event row [queue_operation] inserts. *)
Definition queued_event (now : datetime) (i operation : uuid) (endpoint : string)
  : UserOperationEvent.t :=
  UserOperationEvent.mk i operation "queued" {[ "endpoint" := JStr endpoint ]} now.

(** The columns of an operation that no save of the gateway names, except
    [metadata], which only [mark_included] writes. *)
Definition fixed_columns (o : UserOperation.t) :=
  (UserOperation.id o, UserOperation.chain_id o, UserOperation.sender o,
   UserOperation.wallet o, UserOperation.user o, UserOperation.user_op_hash o,
   UserOperation.nonce o, UserOperation.call_data o,
   UserOperation.call_gas_limit o, UserOperation.verification_gas_limit o,
   UserOperation.pre_verification_gas o, UserOperation.max_fee_per_gas o,
   UserOperation.max_priority_fee_per_gas o, UserOperation.paymaster o,
   UserOperation.metadata o, UserOperation.queued_at o).

(** The rows of the operations table with a given hash. *)
Definition operations_with_hash (h : string) (db : Store) : list UserOperation.t :=
  filter (fun o => UserOperation.user_op_hash o = h) (operations db).

(** The job object and the operation object of [mark_included] after their
    attributes were assigned and saved, and the event row it inserts. *)
Definition succeeded_job (now : datetime) (j : BundlerJob.t) : BundlerJob.t :=
  BundlerJob.set_updated_at now
    (BundlerJob.set_last_error ""
       (BundlerJob.set_status BundlerJob.SUCCEEDED j)).

Definition included_operation (now : datetime) (tx_hash : string)
    (o : UserOperation.t) : UserOperation.t :=
  UserOperation.set_updated_at now
    (UserOperation.set_completed_at (Some now)
       (UserOperation.set_metadata
          (<[ "tx_hash" := JStr tx_hash ]> (UserOperation.metadata o))
          (UserOperation.set_status UserOperation.INCLUDED o))).

Definition included_event (now : datetime) (i operation job_id : uuid)
    (tx_hash : string) : UserOperationEvent.t :=
  UserOperationEvent.mk i operation "included"
    (<[ "job_id" := JUuid job_id ]> {[ "tx_hash" := JStr tx_hash ]}) now.

(** The job object and the operation object of [dispatch_batch] after the
    loop body assigned their attributes and saved them, and the event row it
    inserts. *)
Definition claimed_job (now : datetime) (j : BundlerJob.t) : BundlerJob.t :=
  BundlerJob.set_updated_at now
    (BundlerJob.set_last_error ""
       (BundlerJob.set_last_attempt_at (Some now)
          (BundlerJob.set_attempt_count (BundlerJob.attempt_count j + 1)
             (BundlerJob.set_status BundlerJob.DISPATCHING j)))).

Definition dispatched_operation (now : datetime) (o : UserOperation.t) : UserOperation.t :=
  UserOperation.set_updated_at now
    (UserOperation.set_status UserOperation.DISPATCHED o).

Definition dispatching_event (now : datetime) (i : uuid) (x : joined)
  : UserOperationEvent.t :=
  UserOperationEvent.mk i (UserOperation.id x.2) "dispatching"
    (<[ "job_id" := JUuid (BundlerJob.id x.1) ]>
       {[ "endpoint" := JStr (BundlerJob.target_endpoint x.1) ]}) now.

(** The columns the saves of [dispatch_batch] name. *)
Definition dispatch_job_fields : list BundlerJob.field :=
  [BundlerJob.status_; BundlerJob.attempt_count_; BundlerJob.last_attempt_at_;
   BundlerJob.last_error_; BundlerJob.updated_at_].

Definition status_fields : list UserOperation.field :=
  [UserOperation.status_; UserOperation.updated_at_].

(** The key of a joined row, and the key of its operation. *)
Definition joined_id (x : joined) : uuid := BundlerJob.id x.1.
Definition joined_operation (x : joined) : uuid := UserOperation.id x.2.

(** The rows [reconcile_inflight] writes.  [failure_reason_of j] is the
    [last_error] the loop body leaves on a job that ran out of attempts. *)
Definition failure_reason_of (j : BundlerJob.t) : string :=
  str_or (BundlerJob.last_error j) "Dispatch attempts exceeded".

Definition failed_job_row (now : datetime) (reason : string) (row : BundlerJob.t)
  : BundlerJob.t :=
  BundlerJob.set_updated_at now
    (BundlerJob.set_last_error reason
       (BundlerJob.set_status BundlerJob.FAILED row)).

Definition failed_job (now : datetime) (j : BundlerJob.t) : BundlerJob.t :=
  failed_job_row now (failure_reason_of j) j.

Definition retrying_job (now : datetime) (j : BundlerJob.t) : BundlerJob.t :=
  BundlerJob.set_updated_at now (BundlerJob.set_status BundlerJob.RETRYING j).

Definition failed_operation (now : datetime) (reason : string) (o : UserOperation.t)
  : UserOperation.t :=
  UserOperation.set_updated_at now
    (UserOperation.set_completed_at (Some now)
       (UserOperation.set_failure_reason reason
          (UserOperation.set_status UserOperation.FAILED o))).

Definition queued_again (now : datetime) (o : UserOperation.t) : UserOperation.t :=
  UserOperation.set_updated_at now (UserOperation.set_status UserOperation.QUEUED o).

Definition failed_event (now : datetime) (i : uuid) (x : joined) : UserOperationEvent.t :=
  UserOperationEvent.mk i (UserOperation.id x.2) "failed"
    (<[ "job_id" := JUuid (BundlerJob.id x.1) ]>
       {[ "reason" := JStr (failure_reason_of x.1) ]}) now.

Definition requeued_event (now : datetime) (i : uuid) (x : joined) : UserOperationEvent.t :=
  UserOperationEvent.mk i (UserOperation.id x.2) "requeued"
    {[ "job_id" := JUuid (BundlerJob.id x.1) ]} now.

(** The two branches of the loop body of [reconcile_inflight], by the
    [attempt_count] of the job. *)
Definition exhausted (x : joined) : Prop := 3 <= BundlerJob.attempt_count x.1.

Definition reconciled_job (now : datetime) (x : joined) (row : BundlerJob.t) : BundlerJob.t :=
  if decide (exhausted x) then failed_job_row now (failure_reason_of x.1) row
  else retrying_job now row.

Definition reconciled_operation (now : datetime) (x : joined) (row : UserOperation.t)
  : UserOperation.t :=
  if decide (exhausted x) then failed_operation now (failure_reason_of x.1) row
  else queued_again now row.

Definition reconcile_event (now : datetime) (i : uuid) (x : joined) : UserOperationEvent.t :=
  if decide (exhausted x) then failed_event now i x else requeued_event now i x.

Definition reconcile_counters (x : joined) (c : Counters) : Counters :=
  if decide (exhausted x) then mkCounters (requeued c) (failed c + 1)
  else mkCounters (requeued c + 1) (failed c).

(** ** Statuses, as a caller reads them back *)

Definition job_status (i : uuid) (db : Store) : option BundlerJob.Status :=
  BundlerJob.status <$> get_job i db.

Definition operation_status (i : uuid) (db : Store) : option UserOperation.Status :=
  UserOperation.status <$> get_operation i db.

(** "Nothing transitions a [SUCCEEDED] or [FAILED] job or an [INCLUDED]
    operation further", for one step from [db] to [db']. *)
Definition terminal_statuses_kept (db db' : Store) : Prop :=
  (forall i st, job_status i db = Some st ->
     st = BundlerJob.SUCCEEDED \/ st = BundlerJob.FAILED ->
     job_status i db' = Some st) /\
  (forall i, operation_status i db = Some UserOperation.INCLUDED ->
     operation_status i db' = Some UserOperation.INCLUDED).

(** "[completed_at] is set if and only if the status is terminal", for every
    operation row. *)
Definition completed_iff_terminal (db : Store) : Prop :=
  forall i o, get_operation i db = Some o ->
    (UserOperation.completed_at o <> None <->
     UserOperation.terminal (UserOperation.status o) = true).

(** "Every old entry of the map is still there". *)
Definition entries_kept (m m' : dict) : Prop :=
  forall k v, m !! k = Some v -> m' !! k = Some v.

(** ** A worked run: the request of the API tests *)

Definition example_hash : string :=
  "0xabc1230000000000000000000000000000000000000000000000000000000000".

Definition example_args : QueueArgs :=
  mkQueueArgs 4202 "0x1234567890abcdef1234567890abcdef12345678" example_hash "1"
    "https://bundler.mock/rpc"
    (Some (mkPayload None (Some 21000%Z) (Some 150000%Z) None None None))
    (Some {[ "source" := JStr "test" ]}).

Definition example_tx : string :=
  "0x1111111111111111111111111111111111111111111111111111111111111111".

Definition example_tx' : string :=
  "0x2222222222222222222222222222222222222222222222222222222222222222".

(** Seconds on the clock, in microseconds. *)
Definition seconds (n : Z) : datetime := (n * 1000000)%Z.

(** Queued once: operation 0, job 1. *)
Definition example_queued_calls : list call :=
  [QueueOperation (seconds 1) example_args].

Definition example_queued : Store := run example_queued_calls empty_store.

(** Queued and dispatched. *)
Definition example_dispatched_calls : list call :=
  [QueueOperation (seconds 1) example_args; DispatchBatch (seconds 2) 5].

Definition example_dispatched : Store := run example_dispatched_calls empty_store.

(** Queued, dispatched and reported included. *)
Definition example_included_calls : list call :=
  [QueueOperation (seconds 1) example_args; DispatchBatch (seconds 2) 5;
   MarkIncluded (seconds 3) 1 example_tx].

Definition example_included : Store := run example_included_calls empty_store.

(** Dispatched three times, with a reconciliation after the first two
    dispatches, each more than five minutes after the dispatch. *)
Definition example_third_attempt_calls : list call :=
  [QueueOperation (seconds 1) example_args; DispatchBatch (seconds 2) 5;
   ReconcileInflight (seconds 400) 50; DispatchBatch (seconds 401) 5;
   ReconcileInflight (seconds 800) 50; DispatchBatch (seconds 801) 5].

Definition example_third_attempt : Store := run example_third_attempt_calls empty_store.

(** The same hash queued twice (jobs 1 and 3 of operation 0), the first job
    dispatched and reported included, then the second job dispatched. *)
Definition example_two_jobs : list call :=
  [QueueOperation (seconds 1) example_args;
   QueueOperation (seconds 2) example_args;
   DispatchBatch (seconds 3) 1;
   MarkIncluded (seconds 4) 1 example_tx;
   DispatchBatch (seconds 5) 1].

(** The rows of operation 0 and job 1 along the run. *)
Definition example_operation (status : UserOperation.Status) (updated_at : datetime)
  : UserOperation.t :=
  UserOperation.mk 0 4202 "0x1234567890abcdef1234567890abcdef12345678" None None
    example_hash "1" None 21000 150000 0 0 0 "" status ""
    {[ "source" := JStr "test" ]} (seconds 1) updated_at None.

Definition example_job (status : BundlerJob.Status) (attempt_count : nat)
    (last_attempt_at : option datetime) (updated_at : datetime) : BundlerJob.t :=
  BundlerJob.mk 1 0 "https://bundler.mock/rpc" status attempt_count 100 ""
    (seconds 1) last_attempt_at {[ "attempt_context" := JStr "initial" ]} updated_at.

Definition example_queued_row : joined :=
  (example_job BundlerJob.QUEUED 0 None (seconds 1),
   example_operation UserOperation.QUEUED (seconds 1)).

Definition example_dispatched_row : joined :=
  (example_job BundlerJob.DISPATCHING 1 (Some (seconds 2)) (seconds 2),
   example_operation UserOperation.DISPATCHED (seconds 2)).

Definition example_third_attempt_row : joined :=
  (example_job BundlerJob.DISPATCHING 3 (Some (seconds 801)) (seconds 801),
   example_operation UserOperation.DISPATCHED (seconds 801)).

(** ** What one call can do to a job row

    [job_change c j j']: the row [j] of a job before the call [c] and its
    row [j'] after it. *)
Definition job_change (c : call) (j j' : BundlerJob.t) : Prop :=
  j' = j \/
  match c with
  | QueueOperation _ _ => False
  | DispatchBatch now _ => eligible j /\ j' = claimed_job now j
  | ReconcileInflight now _ =>
      stale (now - minutes 5) j /\
      ((BundlerJob.attempt_count j < 3 /\ j' = retrying_job now j) \/
       (3 <= BundlerJob.attempt_count j /\ j' = failed_job now j))
  | MarkIncluded now i _ => BundlerJob.id j = i /\ j' = succeeded_job now j
  end.

(** The message [reconcile_inflight] leaves on a job that ran out of
    attempts and had no error of its own. *)
Definition attempts_exceeded : string := "Dispatch attempts exceeded".

(** What holds of every job row of a database the gateway built: the
    [attempt_count] and the [last_error] that go with each status. *)
Definition job_well_formed (j : BundlerJob.t) : Prop :=
  match BundlerJob.status j with
  | BundlerJob.QUEUED =>
      BundlerJob.attempt_count j = 0 /\ BundlerJob.last_attempt_at j = None /\
      BundlerJob.last_error j = ""
  | BundlerJob.DISPATCHING =>
      1 <= BundlerJob.attempt_count j <= 3 /\ is_Some (BundlerJob.last_attempt_at j) /\
      BundlerJob.last_error j = ""
  | BundlerJob.RETRYING =>
      1 <= BundlerJob.attempt_count j <= 2 /\ is_Some (BundlerJob.last_attempt_at j) /\
      BundlerJob.last_error j = ""
  | BundlerJob.FAILED =>
      BundlerJob.attempt_count j = 3 /\ is_Some (BundlerJob.last_attempt_at j) /\
      BundlerJob.last_error j = attempts_exceeded
  | BundlerJob.SUCCEEDED =>
      BundlerJob.attempt_count j <= 3 /\ BundlerJob.last_error j = ""
  end.

(** The columns of a job that no save of the gateway names. *)
Definition job_fixed_columns (j : BundlerJob.t) :=
  (BundlerJob.id j, BundlerJob.user_operation j, BundlerJob.target_endpoint j,
   BundlerJob.priority j, BundlerJob.enqueued_at j, BundlerJob.metadata j).

(** The clock's reading of a call, the number of events it appends, and the
    types those events can have. *)
Definition call_time (c : call) : datetime :=
  match c with
  | QueueOperation now _ | DispatchBatch now _ | ReconcileInflight now _
  | MarkIncluded now _ _ => now
  end.

Definition events_appended (c : call) (db : Store) : nat :=
  match c with
  | QueueOperation _ _ => 1
  | DispatchBatch _ n => length (queued_jobs n db)
  | ReconcileInflight now n => length (inflight now n db)
  | MarkIncluded _ i _ => match get_job i db with Some _ => 1 | None => 0 end
  end.

Definition event_types (c : call) : list string :=
  match c with
  | QueueOperation _ _ => ["queued"]
  | DispatchBatch _ _ => ["dispatching"]
  | ReconcileInflight _ _ => ["requeued"; "failed"]
  | MarkIncluded _ _ _ => ["included"]
  end.

(** ** [BundlerJob.touch_attempt] *)

Definition touch_attempt (now : datetime) (self : BundlerJob.t) (error : option string)
    (db : Store) : BundlerJob.t * Store :=
  let self := BundlerJob.set_attempt_count (BundlerJob.attempt_count self + 1) self in
  let self := BundlerJob.set_last_attempt_at (Some now) self in
  let self :=
    match error with
    | Some e => if decide (e = "") then self else BundlerJob.set_last_error e self
    | None => self
    end in
  save_job now self
    [BundlerJob.attempt_count_; BundlerJob.last_attempt_at_;
     BundlerJob.last_error_; BundlerJob.updated_at_] db.

(** Python truthiness of an optional [str] argument: [reason] counts when it
    is given and not empty. *)
Definition given (reason : option string) (old : string) : string :=
  match reason with
  | Some r => if decide (r = "") then old else r
  | None => old
  end.

(** * The API router, [api/routers/bundler.py]

    The routes run for an authenticated user (the [get_current_user]
    dependency is taken as satisfied).  A route ends with a response body,
    with an [HTTPException] of some status code, or with an exception that no
    handler of the route catches. *)
Inductive http (A : Type) :=
| Respond (body : A)
| HTTPException (status_code : nat)
| Uncaught.
Arguments Respond {A} body.
Arguments HTTPException {A} status_code.
Arguments Uncaught {A}.

(** ** [bytes.fromhex]

    Two hexadecimal digits per byte; ASCII whitespace between bytes is
    skipped; anything else is a [ValueError], here [None]. *)
Definition is_space (c : Ascii.ascii) : bool :=
  let n := Ascii.nat_of_ascii c in
  bool_decide (n = 32 \/ (9 <= n /\ n <= 13)).

Definition hex_digit_value (c : Ascii.ascii) : option nat :=
  let n := Ascii.nat_of_ascii c in
  if bool_decide (48 <= n /\ n <= 57) then Some (n - 48)
  else if bool_decide (97 <= n /\ n <= 102) then Some (n - 87)
  else if bool_decide (65 <= n /\ n <= 70) then Some (n - 55)
  else None.

Definition byte_of_digits (top bot : nat) : Byte.byte :=
  Ascii.byte_of_ascii (Ascii.ascii_of_nat (16 * top + bot)).

Fixpoint fromhex (s : string) : option (list Byte.byte) :=
  match s with
  | EmptyString => Some []
  | String c s' =>
      if is_space c then fromhex s'
      else
        match hex_digit_value c, s' with
        | Some top, String c' s'' =>
            match hex_digit_value c' with
            | Some bot => cons (byte_of_digits top bot) <$> fromhex s''
            | None => None
            end
        | _, _ => None
        end
  end.

(** [bytes.hex]: two lower-case digits per byte. *)
Definition hex_char (n : nat) : Ascii.ascii :=
  if bool_decide (n < 10) then Ascii.ascii_of_nat (48 + n) else Ascii.ascii_of_nat (87 + n).

Fixpoint hex (b : list Byte.byte) : string :=
  match b with
  | [] => EmptyString
  | x :: b =>
      let n := Ascii.nat_of_ascii (Ascii.ascii_of_byte x) in
      String (hex_char (n / 16)) (String (hex_char (n mod 16)) (hex b))
  end.

(** ** Request and response models *)

(** [OperationPayload]: every field is optional; [None] is JSON null. *)
Record OperationPayload := mkOperationPayload {
  call_data : option string;
  call_gas_limit : option Z;
  verification_gas_limit : option Z;
  pre_verification_gas : option Z;
  max_fee_per_gas : option Z;
  max_priority_fee_per_gas : option Z;
}.

(** [s[2:] if s.startswith("0x") else s] *)
Definition strip_0x (s : string) : string :=
  if String.prefix "0x" s
  then match s with String _ (String _ rest) => rest | _ => s end
  else s.

(** [{k: int(v) for k, v in numeric_fields.items() if v}]: a field that is
    null or zero gets no key. *)
Definition if_truthy (v : option Z) : option Z :=
  match v with
  | Some z => if decide (z = 0%Z) then None else Some z
  | None => None
  end.

Definition _coerce_payload (payload : OperationPayload) : http Payload :=
  let numeric (data_call_data : option (list Byte.byte)) :=
    mkPayload data_call_data
      (if_truthy (call_gas_limit payload))
      (if_truthy (verification_gas_limit payload))
      (if_truthy (pre_verification_gas payload))
      (if_truthy (max_fee_per_gas payload))
      (if_truthy (max_priority_fee_per_gas payload)) in
  match call_data payload with
  | None => Respond (numeric None)
  | Some s =>
      if decide (s = "") then Respond (numeric None)
      else
        match fromhex (strip_0x s) with
        | Some b => Respond (numeric (Some b))
        | None => HTTPException 400
        end
  end.

(** ** Route handlers

    [ReconcileResponse]: three required integers. *)
Record ReconcileResponse := mkReconcileResponse {
  processed : Z;
  rr_requeued : Z;
  rr_failed : Z;
}.

Definition validate_ReconcileResponse (result : dict) : option ReconcileResponse :=
  p ← result !! "processed" ≫= as_int;
  r ← result !! "requeued" ≫= as_int;
  f ← result !! "failed" ≫= as_int;
  Some (mkReconcileResponse p r f).

(** [dispatch_jobs]: the handler calls the gateway and builds the response
    model from the result dict; a dict the model rejects is an exception of
    the handler. *)
Definition dispatch_jobs (now : datetime) (batch_size : nat) (db : Store)
  : http DispatchResponse * Store :=
  let '(result, db) := dispatch_batch now batch_size db in
  match validate_DispatchResponse result with
  | Some response => (Respond response, db)
  | None => (Uncaught, db)
  end.

(** [reconcile_inflight], the handler. *)
Definition reconcile_inflight_route (now : datetime) (limit : nat) (db : Store)
  : http ReconcileResponse * Store :=
  let '(result, db) := reconcile_inflight now limit db in
  match validate_ReconcileResponse result with
  | Some response => (Respond response, db)
  | None => (Uncaught, db)
  end.

(** [mark_operation_included]: the [operation_id] of the path is not passed
    on; [DoesNotExist] becomes a 404. *)
Definition mark_operation_included (now : datetime) (operation_id : uuid)
    (job_id : uuid) (transaction_hash : string) (db : Store) : http bool * Store :=
  match mark_included now job_id transaction_hash db with
  | (Returned _, db) => (Respond true, db)
  | (Raised DoesNotExist, db) => (HTTPException 404, db)
  end.

(** [order_by("-queued_at")] *)
Definition newest_first (o1 o2 : UserOperation.t) : Prop :=
  (UserOperation.queued_at o2 <= UserOperation.queued_at o1)%Z.

Global Instance newest_first_dec o1 o2 : Decision (newest_first o1 o2).
Proof. unfold newest_first. apply _. Defined.

(** The inner [_fetch] of [list_operations]: an absent or empty status and
    an absent or zero chain id add no filter. *)
Definition list_operations_fetch (status_filter : option string) (chain_id : option Z)
    (limit : nat) (db : Store) : list UserOperation.t :=
  let queryset := operations db in
  let queryset :=
    match status_filter with
    | Some s =>
        if decide (s = "") then queryset
        else filter (fun o => UserOperation.value (UserOperation.status o) = s) queryset
    | None => queryset
    end in
  let queryset :=
    match chain_id with
    | Some c =>
        if decide (c = 0%Z) then queryset
        else filter (fun o => Z.of_N (UserOperation.chain_id o) = c) queryset
    | None => queryset
    end in
  take limit (merge_sort newest_first queryset).

(** The status strings of jobs. *)
Definition job_status_value (s : BundlerJob.Status) : string :=
  match s with
  | BundlerJob.QUEUED => "queued"
  | BundlerJob.DISPATCHING => "dispatching"
  | BundlerJob.SUCCEEDED => "succeeded"
  | BundlerJob.FAILED => "failed"
  | BundlerJob.RETRYING => "retrying"
  end.

(** The inner [_fetch] of [list_jobs]. *)
Definition list_jobs_fetch (status_filter : option string) (limit : nat) (db : Store)
  : list joined :=
  let queryset := select_related db (jobs db) in
  let queryset :=
    match status_filter with
    | Some s =>
        if decide (s = "") then queryset
        else filter (fun x : joined => job_status_value (BundlerJob.status x.1) = s) queryset
    | None => queryset
    end in
  take limit (merge_sort (fun x y : joined => job_order x.1 y.1) queryset).

(** [order_by("created_at")] *)
Definition oldest_first (e1 e2 : UserOperationEvent.t) : Prop :=
  (UserOperationEvent.created_at e1 <= UserOperationEvent.created_at e2)%Z.

Global Instance oldest_first_dec e1 e2 : Decision (oldest_first e1 e2).
Proof. unfold oldest_first. apply _. Defined.

(** [get_operation_events], up to the rendering of the rows: 404 for an
    unknown operation, else [operation.events.all().order_by("created_at")]. *)
Definition get_operation_events (operation_id : uuid) (db : Store)
  : http (list UserOperationEvent.t) :=
  match get_operation operation_id db with
  | None => HTTPException 404
  | Some operation =>
      Respond
        (merge_sort oldest_first
           (filter (fun e => UserOperationEvent.user_operation e = UserOperation.id operation)
              (events db)))
  end.

(** A request payload as a client sends it, and what the router hands to
    the gateway for it. *)
Definition example_request_payload : OperationPayload :=
  mkOperationPayload (Some "0xdeadbeef") (Some 21000%Z) (Some 150000%Z) None (Some 0%Z) None.

Definition example_call_data : list Byte.byte := [Byte.xde; Byte.xad; Byte.xbe; Byte.xef].



(** [get_operation_detail], up to the rendering of the rows: 404 for an
    unknown operation, else the operation with [operation.jobs.all()], which
    comes in the model's default ordering, [priority] then [enqueued_at]. *)
Definition get_operation_detail (operation_id : uuid) (db : Store)
  : http (UserOperation.t * list BundlerJob.t) :=
  match get_operation operation_id db with
  | None => HTTPException 404
  | Some operation =>
      Respond
        (operation,
         merge_sort job_order
           (filter (fun j => BundlerJob.user_operation j = UserOperation.id operation)
              (jobs db)))
  end.

(** What a query parameter selects: a parameter that is absent, or falsy
    ([unset]: the empty string, zero), selects every row; any other value
    selects the rows whose column has that value. *)
Definition selected {A : Type} (parameter : option A) (unset : A) (column : A) : Prop :=
  match parameter with
  | Some v => v = unset \/ column = v
  | None => True
  end.

Global Instance selected_dec {A : Type} `{EqDecision A} (parameter : option A) unset column
  : Decision (selected parameter unset column).
Proof. unfold selected. destruct parameter; apply _. Defined.

(** Two operations queued one after the other: operation 0 with job 1 and
    operation 3 with job 4. *)
Definition example_other_hash : string :=
  "0xdef4560000000000000000000000000000000000000000000000000000000000".

Definition example_other_args : QueueArgs :=
  mkQueueArgs 1 "0x1234567890abcdef1234567890abcdef12345678" example_other_hash "2"
    "https://bundler.mock/rpc" None None.

Definition example_two_operations_calls : list call :=
  [QueueOperation (seconds 1) example_args; QueueOperation (seconds 2) example_other_args].

Definition example_two_operations : Store := run example_two_operations_calls empty_store.

(** The operations the query parameters of [list_operations] select. *)
Definition operation_selected (status_filter : option string) (chain_id : option Z)
    (o : UserOperation.t) : Prop :=
  selected status_filter "" (UserOperation.value (UserOperation.status o)) /\
  selected chain_id 0%Z (Z.of_N (UserOperation.chain_id o)).

Global Instance operation_selected_dec status_filter chain_id o
  : Decision (operation_selected status_filter chain_id o).
Proof. unfold operation_selected. apply _. Defined.

(** The jobs the query parameter of [list_jobs] selects. *)
Definition job_selected (status_filter : option string) (j : BundlerJob.t) : Prop :=
  selected status_filter "" (job_status_value (BundlerJob.status j)).

Global Instance job_selected_dec status_filter j : Decision (job_selected status_filter j).
Proof. unfold job_selected. apply _. Defined.

(** ** Integrity of the event log

    Primary keys of events are unique and were handed out by [uuid4], and
    the foreign key of an event resolves. *)
Definition events_ok (db : Store) : Prop :=
  NoDup (UserOperationEvent.id <$> events db) /\
  Forall (fun e => UserOperationEvent.id e < uuid_next db /\
                   UserOperationEvent.user_operation e ∈ UserOperation.id <$> operations db)
    (events db).

(** ** The outcome of [reconcile_inflight] for the operation, as the
    specification words it

    "Set the parent Operation status [Failed]" for an examined job with
    three attempts, and "set the parent Operation status back to [Queued]"
    for one with fewer, both read when the call has returned. *)
Definition failure_escalated (now : datetime) (limit : nat) (db : Store) : Prop :=
  forall x, x ∈ inflight now limit db -> 3 <= BundlerJob.attempt_count x.1 ->
    operation_status (BundlerJob.user_operation x.1) (reconcile_inflight now limit db).2
    = Some UserOperation.FAILED.

Definition requeue_propagated (now : datetime) (limit : nat) (db : Store) : Prop :=
  forall x, x ∈ inflight now limit db -> BundlerJob.attempt_count x.1 < 3 ->
    operation_status (BundlerJob.user_operation x.1) (reconcile_inflight now limit db).2
    = Some UserOperation.QUEUED.

(** Two jobs of operation 0 in flight at once.  Job 1 is dispatched three
    times; the hash is queued again (job 8) and that job is dispatched
    after the third attempt of job 1. *)
Definition example_exhausted_first_calls : list call :=
  example_third_attempt_calls ++
  [QueueOperation (seconds 802) example_args; DispatchBatch (seconds 803) 5].

Definition example_exhausted_first : Store := run example_exhausted_first_calls empty_store.

(** The same, with the second job (job 6) queued and dispatched between the
    second and the third attempt of job 1. *)
Definition example_exhausted_last_calls : list call :=
  [QueueOperation (seconds 1) example_args; DispatchBatch (seconds 2) 5;
   ReconcileInflight (seconds 400) 50; DispatchBatch (seconds 401) 5;
   QueueOperation (seconds 402) example_args; DispatchBatch (seconds 600) 5;
   ReconcileInflight (seconds 800) 50; DispatchBatch (seconds 801) 5].

Definition example_exhausted_last : Store := run example_exhausted_last_calls empty_store.

(** ** What an insert of a [UserOperation] row accepts

    [BigIntegerField] is a signed 64-bit column, [PositiveBigIntegerField]
    its non-negative half, and a [CharField] holds at most [max_length]
    characters. *)
Definition bigint (z : Z) : Prop := (- 2 ^ 63 <= z < 2 ^ 63)%Z.

Global Instance bigint_dec z : Decision (bigint z).
Proof. unfold bigint. apply _. Defined.

Definition request_fits (a : QueueArgs) (p : OperationPayload) : Prop :=
  (Z.of_N (chain_id a) < 2 ^ 63)%Z /\
  String.length (sender a) <= 42 /\
  String.length (user_op_hash a) <= 66 /\
  String.length (nonce a) <= 120 /\
  bigint (default 0%Z (call_gas_limit p)) /\
  bigint (default 0%Z (verification_gas_limit p)) /\
  bigint (default 0%Z (pre_verification_gas p)) /\
  bigint (default 0%Z (max_fee_per_gas p)) /\
  bigint (default 0%Z (max_priority_fee_per_gas p)).

Global Instance request_fits_dec a p : Decision (request_fits a p).
Proof. unfold request_fits. apply _. Defined.

(** * Proofs *)

(** ** Tables: lookup by key and update by key *)

Section rows.
Context {A : Type} (key : A -> uuid).

Lemma lookup_row_Some i l r :
  lookup_row key i l = Some r -> r ∈ l /\ key r = i.
Proof.
  unfold lookup_row. intros H. apply find_some in H as [Hin Hk].
  apply list_elem_of_In in Hin. by apply bool_decide_eq_true in Hk.
Qed.

Lemma lookup_row_None i l :
  lookup_row key i l = None <-> i ∉ key <$> l.
Proof.
  unfold lookup_row. induction l as [|r l IH]; csimpl.
  - split; [intros _; apply not_elem_of_nil | done].
  - rewrite not_elem_of_cons. case_bool_decide.
    + split; [done | intros [? _]; congruence].
    + rewrite IH. intuition congruence.
Qed.

Lemma lookup_row_is_Some i l :
  is_Some (lookup_row key i l) <-> i ∈ key <$> l.
Proof.
  rewrite <- not_eq_None_Some, lookup_row_None.
  destruct (decide (i ∈ key <$> l)); tauto.
Qed.

Lemma lookup_row_NoDup l r :
  NoDup (key <$> l) -> r ∈ l -> lookup_row key (key r) l = Some r.
Proof.
  unfold lookup_row. induction l as [|x l IH]; csimpl; intros Hnd Hin.
  - by apply elem_of_nil in Hin.
  - apply NoDup_cons in Hnd as [Hx Hnd]. case_bool_decide as Hk.
    + apply elem_of_cons in Hin as [->|Hin]; [done|].
      exfalso. apply Hx. rewrite Hk. by apply list_elem_of_fmap_2.
    + apply elem_of_cons in Hin as [->|Hin]; [done | by apply IH].
Qed.

Lemma lookup_row_app i l l' :
  lookup_row key i (l ++ l') =
  match lookup_row key i l with Some r => Some r | None => lookup_row key i l' end.
Proof.
  unfold lookup_row. induction l as [|x l IH]; simpl; [done|].
  by case_bool_decide.
Qed.

Lemma update_rows_keys i f l :
  (forall r, key (f r) = key r) ->
  key <$> update_rows key i f l = key <$> l.
Proof.
  intros Hf. unfold update_rows. rewrite <- list_fmap_compose.
  apply list_fmap_ext. intros ? r _. simpl. by case_bool_decide.
Qed.

Lemma lookup_row_update_eq i f l :
  (forall r, key (f r) = key r) ->
  lookup_row key i (update_rows key i f l) = f <$> lookup_row key i l.
Proof.
  intros Hf. unfold lookup_row, update_rows.
  induction l as [|x l IH]; csimpl; [done|].
  destruct (decide (key x = i)) as [Hk|Hk].
  - rewrite !(bool_decide_eq_true_2 (key x = i)) by done. simpl.
    by rewrite bool_decide_eq_true_2 by (by rewrite Hf).
  - rewrite !(bool_decide_eq_false_2 (key x = i)) by done. simpl.
    apply IH.
Qed.

Lemma lookup_row_update_ne i k f l :
  (forall r, key (f r) = key r) -> i <> k ->
  lookup_row key i (update_rows key k f l) = lookup_row key i l.
Proof.
  intros Hf Hne. unfold lookup_row, update_rows.
  induction l as [|x l IH]; csimpl; [done|].
  destruct (decide (key x = k)) as [Hk|Hk].
  - rewrite (bool_decide_eq_true_2 (key x = k)) by done. simpl.
    rewrite bool_decide_eq_false_2 by (rewrite Hf; congruence).
    by rewrite bool_decide_eq_false_2 by congruence.
  - rewrite (bool_decide_eq_false_2 (key x = k)) by done. simpl.
    by rewrite IH.
Qed.

Lemma update_rows_absent i f l :
  i ∉ key <$> l -> update_rows key i f l = l.
Proof.
  unfold update_rows. induction l as [|x l IH]; csimpl; [done|].
  rewrite not_elem_of_cons. intros [Hx Hl].
  rewrite bool_decide_eq_false_2 by congruence. by rewrite IH.
Qed.

Lemma update_rows_length i f l : length (update_rows key i f l) = length l.
Proof. apply length_fmap. Qed.

End rows.

(** ** Saves never touch a key column *)

Lemma operation_write_fields_id fs o row :
  UserOperation.id (UserOperation.write_fields fs o row) = UserOperation.id row.
Proof. induction fs as [|f fs IH]; simpl; [done|]. by destruct f. Qed.

Lemma operation_write_fields_hash fs o row :
  UserOperation.user_op_hash (UserOperation.write_fields fs o row)
  = UserOperation.user_op_hash row.
Proof. induction fs as [|f fs IH]; simpl; [done|]. by destruct f. Qed.

Lemma job_write_fields_id fs j row :
  BundlerJob.id (BundlerJob.write_fields fs j row) = BundlerJob.id row.
Proof. induction fs as [|f fs IH]; simpl; [done|]. by destruct f. Qed.

Lemma job_write_fields_operation fs j row :
  BundlerJob.user_operation (BundlerJob.write_fields fs j row)
  = BundlerJob.user_operation row.
Proof. induction fs as [|f fs IH]; simpl; [done|]. by destruct f. Qed.

Lemma same_keys_refl db : same_keys db db.
Proof. by repeat split. Qed.

Lemma same_keys_trans db1 db2 db3 :
  same_keys db1 db2 -> same_keys db2 db3 -> same_keys db1 db3.
Proof.
  intros (?&?&?) (?&?&?). repeat split; try congruence. lia.
Qed.

Lemma same_keys_save_operation now o fs db :
  same_keys db (save_operation now o fs db).2.
Proof.
  repeat split; simpl; try done.
  unfold update_rows. rewrite <- list_fmap_compose. apply list_fmap_ext.
  intros ? r _. simpl. case_bool_decide; [|done]. unfold operation_keys.
  by rewrite operation_write_fields_id, operation_write_fields_hash.
Qed.

Lemma same_keys_save_job now j fs db :
  same_keys db (save_job now j fs db).2.
Proof.
  repeat split; simpl; try done.
  unfold update_rows. rewrite <- list_fmap_compose. apply list_fmap_ext.
  intros ? r _. simpl. case_bool_decide; [|done]. unfold job_keys.
  by rewrite job_write_fields_id, job_write_fields_operation.
Qed.

Lemma same_keys_create_event now i ty p db :
  same_keys db (create_event now i ty p db).2.
Proof. repeat split; simpl; try done. lia. Qed.

Lemma same_keys_mark_status now o st r db :
  same_keys db (mark_status now o st r db).2.
Proof. apply same_keys_save_operation. Qed.

Lemma operation_ids_keys l :
  UserOperation.id <$> l = (operation_keys <$> l).*1.
Proof. by rewrite <- list_fmap_compose. Qed.

Lemma operation_hashes_keys l :
  UserOperation.user_op_hash <$> l = (operation_keys <$> l).*2.
Proof. by rewrite <- list_fmap_compose. Qed.

Lemma job_ids_keys l : BundlerJob.id <$> l = (job_keys <$> l).*1.
Proof. by rewrite <- list_fmap_compose. Qed.

Lemma job_operations_keys l : BundlerJob.user_operation <$> l = (job_keys <$> l).*2.
Proof. by rewrite <- list_fmap_compose. Qed.

Lemma get_operation_is_Some i db :
  is_Some (get_operation i db) <-> i ∈ UserOperation.id <$> operations db.
Proof. apply lookup_row_is_Some. Qed.

Lemma store_ok_same_keys db db' :
  same_keys db db' -> store_ok db -> store_ok db'.
Proof.
  intros (Ho & Hj & Hn) (H1 & H2 & H3 & H4 & H5 & H6).
  unfold store_ok.
  rewrite !operation_ids_keys, !operation_hashes_keys, !job_ids_keys,
    !job_operations_keys in *.
  rewrite Ho, Hj. repeat split; try done.
  - eapply Forall_impl; [exact H5|]. simpl. intros. lia.
  - eapply Forall_impl; [exact H6|]. simpl. intros. lia.
Qed.

Lemma operations_grow_same_keys db db' : same_keys db db' -> operations_grow db db'.
Proof. intros (Ho & _). exists []. by rewrite app_nil_r. Qed.

Lemma operations_grow_refl db : operations_grow db db.
Proof. exists []. by rewrite app_nil_r. Qed.

Lemma operations_grow_trans db1 db2 db3 :
  operations_grow db1 db2 -> operations_grow db2 db3 -> operations_grow db1 db3.
Proof.
  intros [e1 H1] [e2 H2]. exists (e1 ++ e2). by rewrite H2, H1, app_assoc.
Qed.

(** ** The loops keep the keys *)

Lemma same_keys_dispatch_job now x db : same_keys db (dispatch_job now x db).2.
Proof.
  destruct x as [j o]. unfold dispatch_job.
  eapply same_keys_trans; [apply same_keys_save_job|].
  eapply same_keys_trans; [apply same_keys_save_operation|].
  apply same_keys_create_event.
Qed.

Lemma same_keys_dispatch_loop now l claimed db :
  same_keys db (dispatch_loop now l claimed db).2.
Proof.
  revert claimed db. induction l as [|x l IH]; intros claimed db; simpl.
  - apply same_keys_refl.
  - destruct (dispatch_job now x db) as [y db1] eqn:E.
    eapply same_keys_trans; [|apply IH].
    change db1 with (y, db1).2. rewrite <- E. apply same_keys_dispatch_job.
Qed.

Lemma same_keys_dispatch_batch now n db : same_keys db (dispatch_batch now n db).2.
Proof.
  unfold dispatch_batch.
  pose proof (same_keys_dispatch_loop now (queued_jobs n db) [] db) as H.
  destruct (dispatch_loop now (queued_jobs n db) [] db) as [[|y claimed] db1]; exact H.
Qed.

Lemma same_keys_reconcile_job now x c db : same_keys db (reconcile_job now x c db).2.
Proof.
  destruct x as [j o]. unfold reconcile_job. case_decide.
  - eapply same_keys_trans; [apply same_keys_save_job|].
    eapply same_keys_trans; [apply same_keys_mark_status|].
    apply same_keys_create_event.
  - eapply same_keys_trans; [apply same_keys_save_job|].
    eapply same_keys_trans; [apply same_keys_save_operation|].
    apply same_keys_create_event.
Qed.

Lemma same_keys_reconcile_loop now l c db :
  same_keys db (reconcile_loop now l c db).2.
Proof.
  revert c db. induction l as [|x l IH]; intros c db; simpl.
  - apply same_keys_refl.
  - destruct (reconcile_job now x c db) as [c1 db1] eqn:E.
    eapply same_keys_trans; [|apply IH].
    change db1 with (c1, db1).2. rewrite <- E. apply same_keys_reconcile_job.
Qed.

Lemma same_keys_reconcile_inflight now n db :
  same_keys db (reconcile_inflight now n db).2.
Proof.
  unfold reconcile_inflight. destruct (inflight now n db) as [|x l] eqn:E.
  - apply same_keys_refl.
  - pose proof (same_keys_reconcile_loop now (x :: l) (mkCounters 0 0) db) as H.
    destruct (reconcile_loop now (x :: l) (mkCounters 0 0) db); exact H.
Qed.

Lemma same_keys_mark_included now i tx db :
  same_keys db (mark_included now i tx db).2.
Proof.
  unfold mark_included. destruct (get_job_related i db) as [[j o]|e].
  - eapply same_keys_trans; [apply same_keys_save_job|].
    eapply same_keys_trans; [apply same_keys_save_operation|].
    apply same_keys_create_event.
  - apply same_keys_refl.
Qed.

(** ** [queue_operation] *)

Lemma get_operation_by_hash_Some h db o :
  get_operation_by_hash h db = Some o ->
  o ∈ operations db /\ UserOperation.user_op_hash o = h.
Proof.
  unfold get_operation_by_hash. intros H. apply find_some in H as [Hin Hk].
  apply list_elem_of_In in Hin. by apply bool_decide_eq_true in Hk.
Qed.

Lemma get_operation_by_hash_None h db :
  get_operation_by_hash h db = None <->
  h ∉ UserOperation.user_op_hash <$> operations db.
Proof.
  unfold get_operation_by_hash. induction (operations db) as [|r l IH]; csimpl.
  - split; [intros _; apply not_elem_of_nil | done].
  - rewrite not_elem_of_cons. case_bool_decide.
    + split; [done | intros [? _]; congruence].
    + rewrite IH. intuition congruence.
Qed.

(** The database after [queue_operation] when the hash is already there. *)
Lemma queue_operation_found now a db o :
  get_operation_by_hash (user_op_hash a) db = Some o ->
  queue_operation now a db =
  let db1 :=
    if decide (UserOperation.status o ≠ UserOperation.QUEUED)
    then (save_operation now (requeued_operation now o)
            [UserOperation.status_; UserOperation.failure_reason_;
             UserOperation.completed_at_; UserOperation.updated_at_] db).2
    else db in
  (mkQueuedOperation
     (if decide (UserOperation.status o ≠ UserOperation.QUEUED)
      then requeued_operation now o else o)
     (initial_job now (uuid_next db) (UserOperation.id o) (endpoint a)),
   mkStore (operations db1)
     (jobs db ++ [initial_job now (uuid_next db) (UserOperation.id o) (endpoint a)])
     (events db ++ [queued_event now (S (uuid_next db)) (UserOperation.id o) (endpoint a)])
     (S (S (uuid_next db)))).
Proof.
  intros H. unfold queue_operation, get_or_create. rewrite H.
  case_decide; reflexivity.
Qed.

(** The database after [queue_operation] when the hash is new. *)
Lemma queue_operation_fresh now a db :
  get_operation_by_hash (user_op_hash a) db = None ->
  queue_operation now a db =
  let p := default empty_payload (payload a) in
  let o :=
    UserOperation.mk (uuid_next db) (chain_id a) (sender a) None None
      (user_op_hash a) (nonce a) (p_call_data p)
      (int_or_0 (p_call_gas_limit p)) (int_or_0 (p_verification_gas_limit p))
      (int_or_0 (p_pre_verification_gas p)) (int_or_0 (p_max_fee_per_gas p))
      (int_or_0 (p_max_priority_fee_per_gas p))
      "" UserOperation.QUEUED "" (default ∅ (metadata a)) now now None in
  (mkQueuedOperation o
     (initial_job now (S (uuid_next db)) (uuid_next db) (endpoint a)),
   mkStore (operations db ++ [o])
     (jobs db ++ [initial_job now (S (uuid_next db)) (uuid_next db) (endpoint a)])
     (events db ++ [queued_event now (S (S (uuid_next db))) (uuid_next db) (endpoint a)])
     (S (S (S (uuid_next db))))).
Proof.
  intros H. unfold queue_operation, get_or_create. rewrite H. reflexivity.
Qed.

Lemma Forall_lt_fresh (l : list uuid) n : Forall (fun i => i < n) l -> n ∉ l.
Proof. rewrite Forall_forall. intros H Hin. apply H in Hin. lia. Qed.

Lemma store_ok_queue_operation now a db :
  store_ok db -> store_ok (queue_operation now a db).2.
Proof.
  intros Hok.
  destruct (get_operation_by_hash (user_op_hash a) db) as [o|] eqn:E.
  - rewrite (queue_operation_found _ _ _ _ E). cbv zeta.
    apply get_operation_by_hash_Some in E as [Hin Hh].
    set (db1 := if decide (UserOperation.status o ≠ UserOperation.QUEUED)
                then _ else db).
    assert (same_keys db db1) as Hsk.
    { subst db1. case_decide; [apply same_keys_save_operation | apply same_keys_refl]. }
    pose proof (store_ok_same_keys _ _ Hsk Hok) as (H1 & H2 & H3 & H4 & H5 & H6).
    destruct Hsk as (Ho & Hj & Hn).
    destruct Hok as (_ & _ & K3 & K4 & K5 & K6).
    assert (uuid_next db1 = uuid_next db) as Hnext.
    { subst db1. by case_decide. }
    assert (jobs db1 = jobs db) as Hjobs.
    { subst db1. by case_decide. }
    rewrite Hnext, Hjobs in *.
    unfold store_ok; simpl. rewrite !fmap_app; simpl.
    repeat split; try done.
    + apply NoDup_app. repeat split; [done| |apply NoDup_singleton].
      intros i Hi Hi'. apply list_elem_of_singleton in Hi'. subst i.
      by apply Forall_lt_fresh in K6.
    + apply Forall_app. split; [done|]. apply Forall_singleton.
      rewrite operation_ids_keys, Ho, <- operation_ids_keys.
      by apply list_elem_of_fmap_2.
    + eapply Forall_impl; [exact H5|]. simpl. intros. lia.
    + apply Forall_app. split.
      * eapply Forall_impl; [exact K6|]. simpl. intros. lia.
      * apply Forall_singleton. lia.
  - rewrite (queue_operation_fresh _ _ _ E). cbv zeta.
    apply get_operation_by_hash_None in E.
    destruct Hok as (K1 & K2 & K3 & K4 & K5 & K6).
    unfold store_ok; simpl. rewrite !fmap_app; simpl.
    repeat split.
    + apply NoDup_app. repeat split; [done| |apply NoDup_singleton].
      intros i Hi Hi'. apply list_elem_of_singleton in Hi'. subst i.
      by apply Forall_lt_fresh in K5.
    + apply NoDup_app. repeat split; [done| |apply NoDup_singleton].
      intros i Hi Hi'. apply list_elem_of_singleton in Hi'. by subst i.
    + apply NoDup_app. repeat split; [done| |apply NoDup_singleton].
      intros i Hi Hi'. apply list_elem_of_singleton in Hi'. subst i.
      apply Forall_lt_fresh in Hi; [done|].
      eapply Forall_impl; [exact K6|]. simpl. intros. lia.
    + apply Forall_app. split.
      * eapply Forall_impl; [exact K4|]. simpl. intros i Hi.
        apply elem_of_app. by left.
      * apply Forall_singleton. apply elem_of_app. right. by apply list_elem_of_singleton.
    + apply Forall_app. split.
      * eapply Forall_impl; [exact K5|]. simpl. intros. lia.
      * apply Forall_singleton. lia.
    + apply Forall_app. split.
      * eapply Forall_impl; [exact K6|]. simpl. intros. lia.
      * apply Forall_singleton. lia.
Qed.

Lemma operations_grow_queue_operation now a db :
  operations_grow db (queue_operation now a db).2.
Proof.
  destruct (get_operation_by_hash (user_op_hash a) db) as [o|] eqn:E.
  - rewrite (queue_operation_found _ _ _ _ E). cbv zeta.
    exists []. rewrite app_nil_r. cbn [snd operations]. case_decide; [|done].
    apply same_keys_save_operation.
  - rewrite (queue_operation_fresh _ _ _ E). cbv zeta.
    eexists. cbn [snd operations]. by rewrite fmap_app.
Qed.

Lemma store_ok_step c db : store_ok db -> store_ok (step c db).
Proof.
  destruct c; simpl.
  - apply store_ok_queue_operation.
  - apply store_ok_same_keys, same_keys_dispatch_batch.
  - apply store_ok_same_keys, same_keys_reconcile_inflight.
  - apply store_ok_same_keys, same_keys_mark_included.
Qed.

Lemma operations_grow_step c db : operations_grow db (step c db).
Proof.
  destruct c; simpl.
  - apply operations_grow_queue_operation.
  - apply operations_grow_same_keys, same_keys_dispatch_batch.
  - apply operations_grow_same_keys, same_keys_reconcile_inflight.
  - apply operations_grow_same_keys, same_keys_mark_included.
Qed.

Lemma run_snoc cs c db : run (cs ++ [c]) db = step c (run cs db).
Proof. unfold run. by rewrite foldl_app. Qed.

Lemma store_ok_run cs db : store_ok db -> store_ok (run cs db).
Proof.
  revert db. induction cs as [|c cs IH]; intros db H; simpl; [done|].
  by apply IH, store_ok_step.
Qed.

Lemma operations_grow_run cs db : operations_grow db (run cs db).
Proof.
  revert db. induction cs as [|c cs IH]; intros db; simpl.
  - apply operations_grow_refl.
  - eapply operations_grow_trans; [apply operations_grow_step | apply IH].
Qed.

Lemma store_ok_empty : store_ok empty_store.
Proof. unfold store_ok; simpl. repeat split; by constructor. Qed.

Lemma store_ok_reachable db : reachable db -> store_ok db.
Proof. intros [cs ->]. apply store_ok_run, store_ok_empty. Qed.

Lemma get_operation_by_hash_grow h db db' o :
  operations_grow db db' ->
  get_operation_by_hash h db = Some o ->
  exists o', get_operation_by_hash h db' = Some o' /\
             UserOperation.id o' = UserOperation.id o.
Proof.
  unfold operations_grow, get_operation_by_hash. intros [extra H].
  revert H. generalize (operations db'). 
  induction (operations db) as [|x l IH]; intros l' H Hf; [done|].
  destruct l' as [|x' l']; [done|]. csimpl in *.
  injection H as Hid Hh Hl.
  rewrite Hh. case_bool_decide.
  - injection Hf as <-. eauto.
  - by apply IH.
Qed.

Lemma operations_with_hash_unique h db o :
  NoDup (UserOperation.user_op_hash <$> operations db) ->
  get_operation_by_hash h db = Some o ->
  operations_with_hash h db = [o].
Proof.
  unfold operations_with_hash, get_operation_by_hash.
  induction (operations db) as [|x l IH]; csimpl; intros Hnd Hf; [done|].
  apply NoDup_cons in Hnd as [Hx Hnd]. rewrite filter_cons.
  case_bool_decide as Hk.
  - injection Hf as ->. rewrite decide_True by done. f_equal.
    clear IH. induction l as [|y l IH]; [done|]. csimpl in *.
    apply not_elem_of_cons in Hx as [Hy Hx]. apply NoDup_cons in Hnd as [_ Hnd].
    rewrite filter_cons, decide_False by congruence. by apply IH.
  - rewrite decide_False by done. by apply IH.
Qed.

Lemma operation_reset_row now o row :
  UserOperation.write_fields
    [UserOperation.status_; UserOperation.failure_reason_;
     UserOperation.completed_at_; UserOperation.updated_at_]
    (UserOperation.set_updated_at now (requeued_operation now o)) row
  = requeued_operation now row.
Proof. reflexivity. Qed.

(** C10: [queue_operation] on a hash that already has an operation ignores
    the other arguments that describe the operation (the result depends only
    on the hash and the endpoint), creates no operation row, leaves every
    column of every operation row other than [status], [failure_reason],
    [completed_at] and [updated_at] as it was, does not write the operations
    table at all when the found operation is already [QUEUED], and still
    inserts one job and one [queued] event. *)
Theorem queue_operation_existing_hash_frame now a db o :
  get_operation_by_hash (user_op_hash a) db = Some o ->
  let r := queue_operation now a db in
  (forall a', user_op_hash a' = user_op_hash a -> endpoint a' = endpoint a ->
     queue_operation now a' db = r) /\
  Forall2 (fun row row' =>
             fixed_columns row' = fixed_columns row /\
             (UserOperation.id row <> UserOperation.id o -> row' = row))
    (operations db) (operations r.2) /\
  (UserOperation.status o = UserOperation.QUEUED -> operations r.2 = operations db) /\
  bundler_job r.1 = initial_job now (uuid_next db) (UserOperation.id o) (endpoint a) /\
  jobs r.2 = jobs db ++ [bundler_job r.1] /\
  events r.2 =
    events db ++ [queued_event now (S (uuid_next db)) (UserOperation.id o) (endpoint a)].
Proof.
  intros H r. subst r. split.
  { intros a' Hh He. rewrite (queue_operation_found _ _ _ _ H).
    rewrite <- Hh in H. rewrite (queue_operation_found _ _ _ _ H). by rewrite He. }
  rewrite (queue_operation_found _ _ _ _ H). cbv zeta. cbn [fst snd operations jobs events bundler_job].
  repeat split; try done.
  - case_decide as Hs.
    + cbn [snd save_operation set_operations operations]. unfold update_rows.
      apply Forall2_fmap_r, Forall_Forall2_diag, Forall_forall. intros row _.
      unfold compose. case_bool_decide as Hk.
      * rewrite operation_reset_row. split; [done|]. simpl in Hk. congruence.
      * done.
    + apply Forall_Forall2_diag, Forall_forall. done.
  - intros Hs. by rewrite decide_False by (intros ?; congruence).
Qed.

Lemma find_snoc {A} (f : A -> bool) l x :
  List.find f (l ++ [x]) =
  match List.find f l with Some y => Some y | None => if f x then Some x else None end.
Proof. induction l as [|y l IH]; simpl; [done|]. by destruct (f y). Qed.

Lemma queue_operation_result_found now a db :
  exists o, get_operation_by_hash (user_op_hash a) (queue_operation now a db).2 = Some o /\
            UserOperation.id o = UserOperation.id (user_operation (queue_operation now a db).1).
Proof.
  destruct (get_operation_by_hash (user_op_hash a) db) as [o|] eqn:E.
  - destruct (get_operation_by_hash_grow _ _ _ _
                (operations_grow_queue_operation now a db) E) as (o' & Ho' & Hid).
    exists o'. split; [done|]. rewrite Hid.
    rewrite (queue_operation_found _ _ _ _ E). cbv zeta. cbn [fst user_operation].
    by case_decide.
  - rewrite (queue_operation_fresh _ _ _ E). cbv zeta. cbn [fst snd user_operation].
    eexists. split; [|reflexivity].
    unfold get_operation_by_hash in *. cbn [operations].
    rewrite find_snoc, E. by rewrite bool_decide_eq_true_2.
Qed.

Lemma get_operation_by_hash_id h db o :
  store_ok db -> get_operation_by_hash h db = Some o ->
  get_operation (UserOperation.id o) db = Some o.
Proof.
  intros (H1 & _) H. apply get_operation_by_hash_Some in H as [Hin _].
  by apply lookup_row_NoDup.
Qed.

(** C2: two calls of [queue_operation] with the same hash, with any gateway
    calls in between.  After the first call, at every later point and after
    the second call exactly one operation row has that hash; the second call
    creates no operation row; it inserts one job ([QUEUED], [attempt_count]
    0) that refers to the operation of the first call, and one [queued]
    event; and the operation, which keeps its id and hash, ends [QUEUED]:
    untouched when it was [QUEUED] already, otherwise with [failure_reason]
    empty and [completed_at] null. *)
Theorem queue_operation_same_hash_twice db0 now1 a1 cs now2 a2 :
  store_ok db0 ->
  user_op_hash a2 = user_op_hash a1 ->
  let h := user_op_hash a1 in
  let r1 := queue_operation now1 a1 db0 in
  let db2 := run cs r1.2 in
  let r2 := queue_operation now2 a2 db2 in
  let op := UserOperation.id (user_operation r1.1) in
  length (operations_with_hash h r1.2) = 1 /\
  length (operations_with_hash h db2) = 1 /\
  length (operations_with_hash h r2.2) = 1 /\
  length (operations r2.2) = length (operations db2) /\
  (exists o2 o3,
     get_operation op db2 = Some o2 /\
     get_operation op r2.2 = Some o3 /\
     user_operation r2.1 = o3 /\
     UserOperation.id o3 = op /\
     UserOperation.user_op_hash o2 = h /\
     UserOperation.user_op_hash o3 = h /\
     UserOperation.status o3 = UserOperation.QUEUED /\
     (UserOperation.status o2 = UserOperation.QUEUED -> o3 = o2) /\
     (UserOperation.status o2 <> UserOperation.QUEUED ->
        UserOperation.failure_reason o3 = "" /\
        UserOperation.completed_at o3 = None)) /\
  bundler_job r2.1 = initial_job now2 (uuid_next db2) op (endpoint a2) /\
  BundlerJob.status (bundler_job r2.1) = BundlerJob.QUEUED /\
  BundlerJob.attempt_count (bundler_job r2.1) = 0 /\
  BundlerJob.user_operation (bundler_job r2.1) = op /\
  jobs r2.2 = jobs db2 ++ [bundler_job r2.1] /\
  events r2.2 =
    events db2 ++ [queued_event now2 (S (uuid_next db2)) op (endpoint a2)].
Proof.
  intros Hok Hh h r1 db2 r2 op.
  assert (store_ok r1.2) as Hok1 by by apply store_ok_queue_operation.
  assert (store_ok db2) as Hok2 by by apply store_ok_run.
  assert (store_ok r2.2) as Hok3 by by apply store_ok_queue_operation.
  destruct (queue_operation_result_found now1 a1 db0) as (o1 & Ho1 & Hid1).
  fold r1 h op in Ho1, Hid1.
  destruct (get_operation_by_hash_grow h _ _ _ (operations_grow_run cs r1.2) Ho1)
    as (o2 & Ho2 & Hid2). fold db2 in Ho2.
  destruct (get_operation_by_hash_grow h _ _ _
              (operations_grow_queue_operation now2 a2 db2) Ho2)
    as (o3' & Ho3' & Hid3'). fold r2 in Ho3'.
  rewrite (operations_with_hash_unique h r1.2 o1), (operations_with_hash_unique h db2 o2),
    (operations_with_hash_unique h r2.2 o3'); try done; try apply Hok1; try apply Hok2;
    try apply Hok3.
  rewrite Hid1 in Hid2.
  pose proof (get_operation_by_hash_id _ _ _ Hok2 Ho2) as Hget2. rewrite Hid2 in Hget2.
  pose proof (get_operation_by_hash_Some _ _ _ Ho2) as [_ Hh2].
  assert (get_operation_by_hash (user_op_hash a2) db2 = Some o2) as Ho2' by by rewrite Hh.
  subst r2. rewrite (queue_operation_found _ _ _ _ Ho2'). cbv zeta.
  cbn [fst snd operations jobs events bundler_job user_operation].
  rewrite Hid2. repeat split; try done.
  - case_decide; [|done]. cbn [snd save_operation set_operations operations].
    apply update_rows_length.
  - exists o2. case_decide as Hs.
    + exists (requeued_operation now2 o2). repeat split; try done.
      cbn [snd save_operation set_operations operations]. unfold get_operation.
      cbn [operations].
      change (UserOperation.id (UserOperation.set_updated_at now2 (requeued_operation now2 o2)))
        with (UserOperation.id o2).
      rewrite Hid2. unfold get_operation in Hget2.
      rewrite lookup_row_update_eq, Hget2; [|intros; apply operation_write_fields_id].
      reflexivity.
    + exists o2. repeat split; try done.
Qed.

(** ** The join *)

Lemma elem_of_select_related db l x :
  x ∈ select_related db l <->
  x.1 ∈ l /\ get_operation (BundlerJob.user_operation x.1) db = Some x.2.
Proof.
  unfold select_related. rewrite list_elem_of_omap. split.
  - intros (j & Hj & Hx).
    destruct (get_operation (BundlerJob.user_operation j) db) as [o|] eqn:E; [|done].
    simpl in Hx. injection Hx as <-. simpl. by rewrite E.
  - intros [Hin Ho]. exists x.1. split; [done|]. rewrite Ho. by destruct x.
Qed.

Lemma select_related_operation_id db l x :
  x ∈ select_related db l -> UserOperation.id x.2 = BundlerJob.user_operation x.1.
Proof.
  rewrite elem_of_select_related. intros [_ H].
  by apply lookup_row_Some in H as [_ ?].
Qed.

Lemma job_operation_exists db j :
  store_ok db -> j ∈ jobs db ->
  is_Some (get_operation (BundlerJob.user_operation j) db).
Proof.
  intros (_ & _ & _ & Hfk & _) Hin. apply get_operation_is_Some.
  rewrite Forall_forall in Hfk. apply Hfk. by apply list_elem_of_fmap_2.
Qed.

(** With the foreign keys resolving, the join keeps every job row. *)
Lemma select_related_jobs db l :
  (forall j, j ∈ l -> is_Some (get_operation (BundlerJob.user_operation j) db)) ->
  (select_related db l).*1 = l.
Proof.
  unfold select_related. induction l as [|j l IH]; intros H; [done|]. csimpl.
  destruct (H j) as [o Ho]; [by left|]. rewrite Ho. csimpl.
  f_equal. apply IH. intros j' Hj'. apply H. by right.
Qed.

Lemma lookup_select_related db l i :
  (forall j, j ∈ l -> is_Some (get_operation (BundlerJob.user_operation j) db)) ->
  lookup_row (fun x : joined => BundlerJob.id x.1) i (select_related db l) =
  j ← lookup_row BundlerJob.id i l;
  o ← get_operation (BundlerJob.user_operation j) db;
  Some (j, o).
Proof.
  unfold select_related, lookup_row. induction l as [|j l IH]; intros H; [done|]. csimpl.
  destruct (H j) as [o Ho]; [by left|]. rewrite Ho. csimpl.
  case_bool_decide; csimpl.
  - by rewrite Ho.
  - apply IH. intros j' Hj'. apply H. by right.
Qed.

Lemma get_job_related_Some db i j :
  store_ok db -> get_job i db = Some j ->
  exists o, get_operation (BundlerJob.user_operation j) db = Some o /\
            get_job_related i db = Returned (j, o).
Proof.
  intros Hok Hj. unfold get_job_related.
  rewrite lookup_select_related by (intros; by apply job_operation_exists).
  unfold get_job in Hj. rewrite Hj. csimpl.
  apply lookup_row_Some in Hj as [Hin _].
  destruct (job_operation_exists db j Hok Hin) as [o Ho].
  exists o. by rewrite Ho.
Qed.

Lemma get_job_related_None db i :
  store_ok db -> get_job i db = None -> get_job_related i db = Raised DoesNotExist.
Proof.
  intros Hok Hj. unfold get_job_related.
  rewrite lookup_select_related by (intros; by apply job_operation_exists).
  unfold get_job in Hj. by rewrite Hj.
Qed.

(** ** [mark_included] *)

Lemma mark_included_found now i tx db j o :
  get_job_related i db = Returned (j, o) ->
  mark_included now i tx db =
  (Returned tt,
   mkStore
     (update_rows UserOperation.id (UserOperation.id o)
        (fun row =>
           UserOperation.set_status UserOperation.INCLUDED
             (UserOperation.set_metadata
                (<[ "tx_hash" := JStr tx ]> (UserOperation.metadata o))
                (UserOperation.set_completed_at (Some now)
                   (UserOperation.set_updated_at now row))))
        (operations db))
     (update_rows BundlerJob.id (BundlerJob.id j)
        (fun row =>
           BundlerJob.set_status BundlerJob.SUCCEEDED
             (BundlerJob.set_last_error "" (BundlerJob.set_updated_at now row)))
        (jobs db))
     (events db ++
        [included_event now (uuid_next db) (UserOperation.id o) (BundlerJob.id j) tx])
     (S (uuid_next db))).
Proof. intros H. unfold mark_included. rewrite H. reflexivity. Qed.

(** C4, as amended: [mark_included] raises [DoesNotExist] exactly when no job
    has the given id, and then the database is what it was.  Otherwise it
    returns; the job is [SUCCEEDED] with [last_error] empty; its operation is
    [INCLUDED] with [completed_at] the clock's reading; the operation's
    metadata is the old map with [tx_hash] set, so every old key is still a
    key and every key other than [tx_hash] has its old value; no other job
    or operation row changes; and exactly one [included] event with
    [job_id] and [tx_hash] is appended. *)
Theorem mark_included_spec now job_id tx_hash db :
  store_ok db ->
  let r := mark_included now job_id tx_hash db in
  (r.1 = Raised DoesNotExist <-> get_job job_id db = None) /\
  (get_job job_id db = None -> r.2 = db) /\
  (forall job, get_job job_id db = Some job ->
     exists op,
       get_operation (BundlerJob.user_operation job) db = Some op /\
       r.1 = Returned tt /\
       get_job job_id r.2 = Some (succeeded_job now job) /\
       BundlerJob.status (succeeded_job now job) = BundlerJob.SUCCEEDED /\
       BundlerJob.last_error (succeeded_job now job) = "" /\
       (forall i, i <> job_id -> get_job i r.2 = get_job i db) /\
       get_operation (UserOperation.id op) r.2
         = Some (included_operation now tx_hash op) /\
       UserOperation.status (included_operation now tx_hash op)
         = UserOperation.INCLUDED /\
       UserOperation.completed_at (included_operation now tx_hash op) = Some now /\
       UserOperation.metadata (included_operation now tx_hash op)
         = <[ "tx_hash" := JStr tx_hash ]> (UserOperation.metadata op) /\
       (forall k, is_Some (UserOperation.metadata op !! k) ->
          is_Some (UserOperation.metadata (included_operation now tx_hash op) !! k)) /\
       (forall k, k <> "tx_hash" ->
          UserOperation.metadata (included_operation now tx_hash op) !! k
          = UserOperation.metadata op !! k) /\
       (forall i, i <> UserOperation.id op -> get_operation i r.2 = get_operation i db) /\
       events r.2 =
         events db ++
         [included_event now (uuid_next db) (UserOperation.id op) job_id tx_hash]).
Proof.
  intros Hok r. subst r.
  destruct (get_job job_id db) as [job|] eqn:Hj.
  - destruct (get_job_related_Some _ _ _ Hok Hj) as (op & Hop & Hrel).
    rewrite (mark_included_found _ _ _ _ _ _ Hrel). cbn [fst snd].
    pose proof Hj as Hj'. apply lookup_row_Some in Hj' as [Hjin Hjid].
    pose proof Hop as Hop'. apply lookup_row_Some in Hop' as [Hoin Hoid].
    split; [split; done|]. split; [done|].
    intros ? [= <-]. exists op. rewrite Hjid.
    repeat split; try done.
    + unfold get_job in *. cbn [jobs]. rewrite lookup_row_update_eq by done. by rewrite Hj.
    + intros i Hi. unfold get_job. cbn [jobs]. by rewrite lookup_row_update_ne.
    + unfold get_operation in *. cbn [operations].
      rewrite lookup_row_update_eq by done.
      destruct Hok as (Hnd & _). rewrite <- Hoid in Hop. 
      rewrite (lookup_row_NoDup _ _ _ Hnd Hoin). reflexivity.
    + intros k [v Hk]. cbn. destruct (decide (k = "tx_hash")) as [->|Hne].
      * rewrite lookup_insert_eq. eauto.
      * rewrite lookup_insert_ne by done. eauto.
    + intros k Hk. cbn. by rewrite lookup_insert_ne.
    + intros i Hi. unfold get_operation. cbn [operations].
      by rewrite lookup_row_update_ne.
  - unfold mark_included. rewrite (get_job_related_None _ _ Hok Hj). done.
Qed.

(** ** Querysets: filter, order, slice *)

Section query.
Context {A : Type} (P : A -> Prop) `{!forall x, Decision (P x)}.
Context (R : relation A) `{!forall x y, Decision (R x y)}.
Context `{!Total R, !Transitive R}.

Lemma query_length n l : length (query P R n l) = min n (length (filter P l)).
Proof.
  unfold query. by rewrite length_take, (Permutation_length (merge_sort_Permutation R _)).
Qed.

Lemma elem_of_query n l x : x ∈ query P R n l -> P x /\ x ∈ l.
Proof.
  unfold query. intros Hx. apply (list_elem_of_filter P).
  rewrite <- (merge_sort_Permutation R). eapply elem_of_sublist; [exact Hx|apply sublist_take].
Qed.

Lemma query_sorted n l : StronglySorted R (query P R n l).
Proof.
  unfold query. eapply StronglySorted_app_1_l. rewrite take_drop.
  by apply StronglySorted_merge_sort.
Qed.

(** The slice holds the first rows of the ordering: a matching row that is
    left out comes after every row that is in. *)
Lemma query_first n l x y :
  x ∈ query P R n l -> y ∈ l -> P y -> y ∉ query P R n l -> R x y.
Proof.
  unfold query. intros Hx Hy HP Hny.
  eapply (StronglySorted_app_1_elem_of R (take n _) (drop n _)); [|exact Hx|].
  - rewrite take_drop. by apply StronglySorted_merge_sort.
  - assert (y ∈ merge_sort R (filter P l)) as Hin.
    { rewrite (merge_sort_Permutation R). by apply list_elem_of_filter. }
    rewrite <- (take_drop n) in Hin. apply elem_of_app in Hin as [?|?]; done.
Qed.

Lemma query_NoDup {B} (f : A -> B) n l :
  NoDup (f <$> l) -> NoDup (f <$> query P R n l).
Proof.
  unfold query. intros Hnd.
  assert (NoDup (f <$> filter P l)) as Hf.
  { eapply sublist_NoDup; [exact Hnd|]. apply fmap_sublist, sublist_filter. }
  rewrite <- (merge_sort_Permutation R) in Hf.
  eapply sublist_NoDup; [exact Hf|]. apply fmap_sublist, sublist_take.
Qed.

Lemma query_nil n l : filter P l = [] -> query P R n l = [].
Proof. unfold query. intros ->. by destruct n. Qed.

End query.

Global Instance job_order_total : Total (fun x y : joined => job_order x.1 y.1).
Proof. intros x y. unfold job_order. lia. Qed.

Global Instance job_order_trans : Transitive (fun x y : joined => job_order x.1 y.1).
Proof. intros x y z. unfold job_order. lia. Qed.

Global Instance attempt_order_total : Total (fun x y : joined => attempt_order x.1 y.1).
Proof.
  intros x y. unfold attempt_order.
  destruct (BundlerJob.last_attempt_at x.1), (BundlerJob.last_attempt_at y.1); try tauto. lia.
Qed.

Global Instance attempt_order_trans : Transitive (fun x y : joined => attempt_order x.1 y.1).
Proof.
  intros x y z. unfold attempt_order.
  destruct (BundlerJob.last_attempt_at x.1), (BundlerJob.last_attempt_at y.1),
    (BundlerJob.last_attempt_at z.1); try tauto. lia.
Qed.

(** ** [dispatch_batch] *)

Lemma lookup_row_cons {A} (key : A -> uuid) i x l :
  lookup_row key i (x :: l) =
  if decide (key x = i) then Some x else lookup_row key i l.
Proof.
  unfold lookup_row. simpl. case_decide.
  - by rewrite bool_decide_eq_true_2.
  - by rewrite bool_decide_eq_false_2.
Qed.

Lemma dispatch_job_eq now x db :
  dispatch_job now x db =
  ((claimed_job now x.1, dispatched_operation now x.2),
   mkStore
     (update_rows UserOperation.id (joined_operation x)
        (UserOperation.write_fields status_fields (dispatched_operation now x.2))
        (operations db))
     (update_rows BundlerJob.id (joined_id x)
        (BundlerJob.write_fields dispatch_job_fields (claimed_job now x.1))
        (jobs db))
     (events db ++ [dispatching_event now (uuid_next db) x])
     (S (uuid_next db))).
Proof. by destruct x. Qed.

Lemma claimed_job_row now j :
  BundlerJob.write_fields dispatch_job_fields (claimed_job now j) j = claimed_job now j.
Proof. reflexivity. Qed.

Lemma dispatched_operation_row now o row :
  UserOperation.write_fields status_fields (dispatched_operation now o) row
  = dispatched_operation now row.
Proof. reflexivity. Qed.

Lemma dispatched_operation_idem now row :
  dispatched_operation now (dispatched_operation now row) = dispatched_operation now row.
Proof. reflexivity. Qed.

(** What the loop of [dispatch_batch] returns and leaves in the database,
    for candidates with distinct primary keys. *)
Lemma dispatch_loop_spec now l : forall claimed db,
  NoDup (joined_id <$> l) ->
  let r := dispatch_loop now l claimed db in
  r.1 = claimed ++ ((fun x : joined => (claimed_job now x.1, dispatched_operation now x.2)) <$> l) /\
  uuid_next r.2 = uuid_next db + length l /\
  events r.2 = events db ++ imap (fun k x => dispatching_event now (uuid_next db + k) x) l /\
  (forall i,
     get_job i r.2 =
     match lookup_row joined_id i l with
     | Some x => BundlerJob.write_fields dispatch_job_fields (claimed_job now x.1)
                   <$> get_job i db
     | None => get_job i db
     end) /\
  (forall i,
     get_operation i r.2 =
     if decide (i ∈ joined_operation <$> l)
     then dispatched_operation now <$> get_operation i db
     else get_operation i db).
Proof.
  induction l as [|x l IH]; intros claimed db Hnd; cbn zeta.
  - simpl. rewrite !app_nil_r, Nat.add_0_r. repeat split; done.
  - rewrite fmap_cons in Hnd. apply NoDup_cons in Hnd as [Hx Hnd].
    cbn [dispatch_loop]. rewrite dispatch_job_eq.
    edestruct IH as (H1 & H2 & H3 & H4 & H5); [exact Hnd|].
    rewrite H1, H2, H3. clear H1 H2 H3. cbn [uuid_next events].
    repeat split.
    + by rewrite <- app_assoc.
    + simpl. lia.
    + rewrite <- app_assoc. f_equal. simpl. rewrite Nat.add_0_r. f_equal.
      apply imap_ext. intros k y _. simpl. f_equal. lia.
    + intros i. rewrite H4. unfold get_job. cbn [jobs].
      rewrite lookup_row_cons. case_decide as Hi.
      * subst i.
        assert (lookup_row joined_id (joined_id x) l = None) as ->
          by by apply lookup_row_None.
        rewrite lookup_row_update_eq; [done|]. intros. apply job_write_fields_id.
      * rewrite lookup_row_update_ne; [done| |congruence].
        intros. apply job_write_fields_id.
    + intros i. rewrite H5. unfold get_operation. cbn [operations].
      rewrite fmap_cons.
      destruct (decide (i = joined_operation x)) as [->|Hne].
      * rewrite lookup_row_update_eq by (intros; apply operation_write_fields_id).
        rewrite (decide_True (P := _ ∈ _ :: _)) by by left.
        case_decide; [|done].
        by destruct (lookup_row UserOperation.id (joined_operation x) (operations db)).
      * rewrite lookup_row_update_ne; [| intros; apply operation_write_fields_id | done].
        case_decide as Hin.
        -- rewrite decide_True; [done|]. by right.
        -- rewrite decide_False; [done|]. by apply not_elem_of_cons.
Qed.

(** ** The joined rows of a database with its integrity constraints *)

Lemma select_related_all db :
  store_ok db -> (select_related db (jobs db)).*1 = jobs db.
Proof. intros Hok. apply select_related_jobs. intros. by apply job_operation_exists. Qed.

Lemma select_related_ids db :
  store_ok db -> joined_id <$> select_related db (jobs db) = BundlerJob.id <$> jobs db.
Proof.
  intros Hok. rewrite <- (select_related_all db Hok) at 2.
  by rewrite <- list_fmap_compose.
Qed.

Lemma select_related_NoDup db :
  store_ok db -> NoDup (joined_id <$> select_related db (jobs db)).
Proof. intros Hok. rewrite select_related_ids by done. apply Hok. Qed.

Lemma joined_row db x :
  store_ok db -> x ∈ select_related db (jobs db) ->
  x.1 ∈ jobs db /\
  get_job (joined_id x) db = Some x.1 /\
  get_operation (joined_operation x) db = Some x.2 /\
  joined_operation x = BundlerJob.user_operation x.1.
Proof.
  intros Hok Hx. pose proof (select_related_operation_id _ _ _ Hx) as Hid.
  apply elem_of_select_related in Hx as [Hin Ho].
  unfold joined_operation. rewrite Hid. repeat split; try done.
  apply (lookup_row_NoDup BundlerJob.id (jobs db) x.1); [apply Hok | done].
Qed.

Lemma job_joined db j :
  store_ok db -> j ∈ jobs db -> exists o, (j, o) ∈ select_related db (jobs db).
Proof.
  intros Hok Hin. destruct (job_operation_exists db j Hok Hin) as [o Ho].
  exists o. by apply elem_of_select_related.
Qed.

Lemma job_unique db j j' :
  store_ok db -> j ∈ jobs db -> j' ∈ jobs db -> BundlerJob.id j = BundlerJob.id j' -> j = j'.
Proof.
  intros Hok Hj Hj' Hid.
  assert (get_job (BundlerJob.id j) db = Some j) as H1
    by (apply lookup_row_NoDup; [apply Hok | done]).
  assert (get_job (BundlerJob.id j') db = Some j') as H2
    by (apply lookup_row_NoDup; [apply Hok | done]).
  rewrite Hid in H1. congruence.
Qed.

Lemma list_filter_fmap {A B} (f : A -> B) (P : B -> Prop) `{!forall y, Decision (P y)}
    (l : list A) :
  filter P (f <$> l) = f <$> filter (fun x => P (f x)) l.
Proof.
  induction l as [|x l IH]; [done|]. csimpl. rewrite !filter_cons.
  case_decide; csimpl; by rewrite IH.
Qed.

Lemma filter_joined_length db (P : BundlerJob.t -> Prop) `{!forall j, Decision (P j)} :
  store_ok db ->
  length (filter (fun x : joined => P x.1) (select_related db (jobs db)))
  = length (filter P (jobs db)).
Proof.
  intros Hok. rewrite <- (select_related_all db Hok) at 2.
  rewrite (list_filter_fmap fst). by rewrite length_fmap.
Qed.

(** Selection by a queryset over the joined rows: what the slice holds. *)
Lemma joined_query_spec db (P : BundlerJob.t -> Prop) `{!forall j, Decision (P j)}
    (R : relation BundlerJob.t) `{!forall j1 j2, Decision (R j1 j2)}
    `{!Total (fun x y : joined => R x.1 y.1), !Transitive (fun x y : joined => R x.1 y.1)} n :
  store_ok db ->
  let sel := query (fun x : joined => P x.1) (fun x y => R x.1 y.1) n
               (select_related db (jobs db)) in
  length sel = min n (length (filter P (jobs db))) /\
  (forall x, x ∈ sel -> P x.1 /\ x ∈ select_related db (jobs db)) /\
  StronglySorted (fun x y : joined => R x.1 y.1) sel /\
  (forall j x, j ∈ jobs db -> P j -> j ∉ sel.*1 -> x ∈ sel -> R x.1 j) /\
  NoDup (joined_id <$> sel) /\
  (forall j, j ∈ jobs db -> j ∉ sel.*1 -> lookup_row joined_id (BundlerJob.id j) sel = None).
Proof.
  intros Hok sel. repeat split.
  - unfold sel. rewrite query_length. by rewrite filter_joined_length.
  - by eapply (elem_of_query (fun x : joined => P x.1)).
  - by eapply (elem_of_query (fun x : joined => P x.1)).
  - apply query_sorted; apply _.
  - intros j x Hj HP Hn Hx. destruct (job_joined db j Hok Hj) as [o Ho].
    change (R x.1 (j, o).1).
    eapply (query_first (fun x : joined => P x.1) (fun x y : joined => R x.1 y.1));
      [exact Hx | exact Ho | exact HP |].
    intros Hin. apply Hn. by apply (list_elem_of_fmap_2 fst) in Hin.
  - apply query_NoDup. by apply select_related_NoDup.
  - intros j Hj Hn. apply lookup_row_None. intros Hin.
    apply list_elem_of_fmap in Hin as (x & Hid & Hx). apply Hn.
    pose proof Hx as Hsel.
    apply (elem_of_query (fun x : joined => P x.1)) in Hx as [_ Hx].
    apply (joined_row db x Hok) in Hx as (Hx1 & _).
    rewrite (job_unique db j x.1 Hok Hj Hx1 Hid). by apply list_elem_of_fmap_2.
Qed.

Lemma dispatch_batch_eq now n db :
  dispatch_batch now n db =
  let r := dispatch_loop now (queued_jobs n db) [] db in
  (match r.1 with
   | [] => <[ "count" := JInt 0 ]> {[ "job_ids" := JList [] ]}
   | _ =>
       <[ "count" := JInt (Z.of_nat (length r.1)) ]>
         (<[ "job_ids" := JList ((fun x : joined => JUuid (BundlerJob.id x.1)) <$> r.1) ]>
            {[ "operation_hashes" :=
                 JList ((fun x : joined => JStr (UserOperation.user_op_hash x.2)) <$> r.1) ]})
   end, r.2).
Proof.
  unfold dispatch_batch.
  by destruct (dispatch_loop now (queued_jobs n db) [] db) as [[|y claimed] db1].
Qed.

Lemma queued_jobs_spec n db :
  store_ok db ->
  let sel := queued_jobs n db in
  length sel = min n (length (filter eligible (jobs db))) /\
  (forall x, x ∈ sel -> eligible x.1 /\ x ∈ select_related db (jobs db)) /\
  StronglySorted (fun x y : joined => job_order x.1 y.1) sel /\
  (forall j x, j ∈ jobs db -> eligible j -> j ∉ sel.*1 -> x ∈ sel -> job_order x.1 j) /\
  NoDup (joined_id <$> sel) /\
  (forall j, j ∈ jobs db -> j ∉ sel.*1 -> lookup_row joined_id (BundlerJob.id j) sel = None).
Proof. intros Hok. by apply (joined_query_spec db eligible job_order). Qed.

(** C7: [dispatch_batch] claims the first [min batch_size (number of
    eligible jobs)] jobs among those [QUEUED] or [RETRYING], in the order of
    [priority] then [enqueued_at]: every claimed job is eligible, the claimed
    jobs are ordered, and an eligible job left out comes after every claimed
    one.  After the call a claimed job is [DISPATCHING] with [attempt_count]
    one higher, [last_attempt_at] the clock's reading and [last_error] empty,
    and nothing else of its row changed; its operation is [DISPATCHED]; no
    other job row changed; one [dispatching] event per claimed job, with its
    [job_id] and [endpoint], was appended in claim order; and [job_ids] in the
    result lists the claimed jobs in that order. *)
Theorem dispatch_batch_spec now batch_size db :
  store_ok db ->
  let sel := queued_jobs batch_size db in
  let r := dispatch_batch now batch_size db in
  length sel = min batch_size (length (filter eligible (jobs db))) /\
  (forall x, x ∈ sel ->
     x.1 ∈ jobs db /\ eligible x.1 /\
     get_operation (BundlerJob.user_operation x.1) db = Some x.2) /\
  StronglySorted (fun x y : joined => job_order x.1 y.1) sel /\
  (forall j x, j ∈ jobs db -> eligible j -> j ∉ sel.*1 -> x ∈ sel -> job_order x.1 j) /\
  (forall x, x ∈ sel ->
     get_job (BundlerJob.id x.1) r.2 = Some (claimed_job now x.1) /\
     BundlerJob.status (claimed_job now x.1) = BundlerJob.DISPATCHING /\
     BundlerJob.attempt_count (claimed_job now x.1) = BundlerJob.attempt_count x.1 + 1 /\
     BundlerJob.last_attempt_at (claimed_job now x.1) = Some now /\
     BundlerJob.last_error (claimed_job now x.1) = "" /\
     get_operation (BundlerJob.user_operation x.1) r.2
       = Some (dispatched_operation now x.2) /\
     UserOperation.status (dispatched_operation now x.2) = UserOperation.DISPATCHED) /\
  (forall j, j ∈ jobs db -> j ∉ sel.*1 -> get_job (BundlerJob.id j) r.2 = Some j) /\
  events r.2 =
    events db ++ imap (fun k x => dispatching_event now (uuid_next db + k) x) sel /\
  r.1 !! "job_ids" = Some (JList ((fun x : joined => JUuid (BundlerJob.id x.1)) <$> sel)) /\
  r.1 !! "count" = Some (JInt (Z.of_nat (length sel))).
Proof.
  intros Hok sel r.
  destruct (queued_jobs_spec batch_size db Hok) as (Hlen & Hin & Hsort & Hfirst & Hnd & Hout).
  fold sel in Hlen, Hin, Hsort, Hfirst, Hnd, Hout.
  destruct (dispatch_loop_spec now sel [] db Hnd) as (L1 & L2 & L3 & L4 & L5).
  subst r. rewrite dispatch_batch_eq. cbv zeta. fold sel. cbn [fst snd].
  repeat split; try done.
  - by apply (joined_row db x Hok), Hin.
  - by apply Hin.
  - destruct (joined_row db x Hok) as (_ & _ & Ho & Hid); [by apply Hin|]. by rewrite <- Hid.
  - rewrite L4. change (BundlerJob.id x.1) with (joined_id x).
    rewrite (lookup_row_NoDup joined_id sel x Hnd) by done.
    destruct (joined_row db x Hok) as (_ & Hj & _); [by apply Hin|]. by rewrite Hj.
  - destruct (joined_row db x Hok) as (_ & _ & Ho & Hid); [by apply Hin|].
    rewrite L5, <- Hid, decide_True by by apply list_elem_of_fmap_2.
    by rewrite Ho.
  - intros j Hj Hn. rewrite L4, (Hout j Hj Hn).
    apply (lookup_row_NoDup BundlerJob.id); [apply Hok | done].
  - rewrite L1. cbn [app]. destruct sel as [|x l]; [done|]. rewrite fmap_cons.
    rewrite lookup_insert_ne by done. rewrite lookup_insert_eq.
    do 2 f_equal. csimpl. f_equal. rewrite <- list_fmap_compose. by apply list_fmap_ext.
  - rewrite L1. cbn [app]. destruct sel as [|x l]; [done|]. rewrite fmap_cons.
    rewrite lookup_insert_eq. csimpl. by rewrite length_fmap.
Qed.

(** The result dict of [dispatch_batch] when something was claimed: three
    keys, and [count] is the length of both lists.  When nothing was claimed
    the dict has two keys only. *)
Lemma dispatch_batch_result now n db :
  store_ok db ->
  let sel := queued_jobs n db in
  let r := dispatch_batch now n db in
  (sel <> [] ->
   exists job_ids hashes,
     r.1 !! "count" = Some (JInt (Z.of_nat (length sel))) /\
     r.1 !! "job_ids" = Some (JList job_ids) /\
     r.1 !! "operation_hashes" = Some (JList hashes) /\
     length job_ids = length sel /\ length hashes = length sel) /\
  (sel = [] ->
   r = (<[ "count" := JInt 0 ]> {[ "job_ids" := JList [] ]}, db) /\
   r.1 !! "operation_hashes" = None /\
   validate_DispatchResponse r.1 = None).
Proof.
  intros Hok sel r. subst r. rewrite dispatch_batch_eq. cbv zeta. fold sel. split.
  - intros Hne.
    destruct (queued_jobs_spec n db Hok) as (_ & _ & _ & _ & Hnd & _). fold sel in Hnd.
    destruct (dispatch_loop_spec now sel [] db Hnd) as (L1 & _).
    rewrite L1. cbn [app fst]. destruct sel as [|x l]; [done|]. rewrite fmap_cons.
    eexists _, _. rewrite lookup_insert_eq.
    rewrite lookup_insert_ne, lookup_insert_eq by done.
    rewrite !lookup_insert_ne, lookup_singleton_eq by done.
    repeat split; try done; csimpl; by rewrite !length_fmap.
  - intros ->. done.
Qed.

(** ** [reconcile_inflight] *)

Lemma failure_reason_of_nonempty j : failure_reason_of j <> "".
Proof. unfold failure_reason_of, str_or. by case_decide. Qed.

Lemma reconcile_job_eq now x c db :
  reconcile_job now x c db =
  (reconcile_counters x c,
   mkStore
     (update_rows UserOperation.id (joined_operation x) (reconciled_operation now x)
        (operations db))
     (update_rows BundlerJob.id (joined_id x) (reconciled_job now x) (jobs db))
     (events db ++ [reconcile_event now (uuid_next db) x])
     (S (uuid_next db))).
Proof.
  destruct x as [j o].
  unfold reconcile_job, reconciled_operation, reconciled_job, reconcile_event,
    reconcile_counters, exhausted. cbn [fst snd].
  case_decide; [|reflexivity].
  unfold mark_status. cbn [save_job fst snd BundlerJob.last_error
    BundlerJob.set_updated_at BundlerJob.set_last_error].
  fold (failure_reason_of j).
  rewrite (decide_False (P := failure_reason_of j = "")) by apply failure_reason_of_nonempty.
  reflexivity.
Qed.

Lemma reconciled_job_id now x row :
  BundlerJob.id (reconciled_job now x row) = BundlerJob.id row.
Proof. unfold reconciled_job. by case_decide. Qed.

Lemma reconciled_operation_id now x row :
  UserOperation.id (reconciled_operation now x row) = UserOperation.id row.
Proof. unfold reconciled_operation. by case_decide. Qed.

Lemma reconcile_loop_app now l1 l2 c db :
  reconcile_loop now (l1 ++ l2) c db =
  reconcile_loop now l2 (reconcile_loop now l1 c db).1 (reconcile_loop now l1 c db).2.
Proof.
  revert c db. induction l1 as [|x l1 IH]; intros c db; [done|].
  simpl. destruct (reconcile_job now x c db) as [c1 db1]. apply IH.
Qed.

(** What the loop of [reconcile_inflight] leaves in the database, for
    stale jobs with distinct primary keys. *)
Lemma reconcile_loop_spec now l : forall c db,
  NoDup (joined_id <$> l) ->
  let r := reconcile_loop now l c db in
  failed r.1 = failed c + length (filter exhausted l) /\
  requeued r.1 = requeued c + length (filter (fun x => ~ exhausted x) l) /\
  uuid_next r.2 = uuid_next db + length l /\
  events r.2 = events db ++ imap (fun k x => reconcile_event now (uuid_next db + k) x) l /\
  (forall i,
     get_job i r.2 =
     match lookup_row joined_id i l with
     | Some x => reconciled_job now x <$> get_job i db
     | None => get_job i db
     end) /\
  (forall i, i ∉ joined_operation <$> l -> get_operation i r.2 = get_operation i db).
Proof.
  induction l as [|x l IH]; intros c db Hnd; cbn zeta.
  - simpl. rewrite !app_nil_r, !Nat.add_0_r. repeat split; done.
  - rewrite fmap_cons in Hnd. apply NoDup_cons in Hnd as [Hx Hnd].
    cbn [reconcile_loop]. rewrite reconcile_job_eq.
    edestruct IH as (H1 & H2 & H3 & H4 & H5 & H6); [exact Hnd|].
    rewrite H1, H2, H3, H4. clear H1 H2 H3 H4. cbn [uuid_next events].
    rewrite !filter_cons. unfold reconcile_counters.
    repeat split.
    + case_decide; simpl; lia.
    + case_decide; [rewrite decide_False by tauto | rewrite decide_True by done];
        simpl; lia.
    + simpl. lia.
    + rewrite <- app_assoc. f_equal. simpl. rewrite Nat.add_0_r. f_equal.
      apply imap_ext. intros k y _. simpl. f_equal. lia.
    + intros i. rewrite H5. unfold get_job. cbn [jobs].
      rewrite lookup_row_cons. case_decide as Hi.
      * subst i.
        assert (lookup_row joined_id (joined_id x) l = None) as ->
          by by apply lookup_row_None.
        rewrite lookup_row_update_eq; [done|]. intros. apply reconciled_job_id.
      * rewrite lookup_row_update_ne; [done| |congruence].
        intros. apply reconciled_job_id.
    + intros i Hi. rewrite fmap_cons in Hi. apply not_elem_of_cons in Hi as [Hne Hi].
      rewrite H6 by done. unfold get_operation. cbn [operations].
      rewrite lookup_row_update_ne; [done| |done]. intros. apply reconciled_operation_id.
Qed.

Lemma reconcile_inflight_eq now n db :
  reconcile_inflight now n db =
  let sel := inflight now n db in
  let r := reconcile_loop now sel (mkCounters 0 0) db in
  (reconcile_result (length sel) (requeued r.1) (failed r.1), r.2).
Proof.
  unfold reconcile_inflight. destruct (inflight now n db) as [|x l]; [done|].
  cbv zeta. by destruct (reconcile_loop now (x :: l) (mkCounters 0 0) db).
Qed.

Lemma inflight_spec now n db :
  store_ok db ->
  let sel := inflight now n db in
  let cutoff := (now - minutes 5)%Z in
  length sel = min n (length (filter (stale cutoff) (jobs db))) /\
  (forall x, x ∈ sel -> stale cutoff x.1 /\ x ∈ select_related db (jobs db)) /\
  StronglySorted (fun x y : joined => attempt_order x.1 y.1) sel /\
  (forall j x, j ∈ jobs db -> stale cutoff j -> j ∉ sel.*1 -> x ∈ sel -> attempt_order x.1 j) /\
  NoDup (joined_id <$> sel) /\
  (forall j, j ∈ jobs db -> j ∉ sel.*1 -> lookup_row joined_id (BundlerJob.id j) sel = None).
Proof.
  intros Hok. by apply (joined_query_spec db (stale (now - minutes 5)) attempt_order).
Qed.

Lemma get_operation_same_keys db db' i :
  same_keys db db' -> is_Some (get_operation i db) -> is_Some (get_operation i db').
Proof.
  intros (Ho & _). rewrite !get_operation_is_Some, !operation_ids_keys. by rewrite Ho.
Qed.

(** One iteration of the loop of [reconcile_inflight], in the middle of the
    stale jobs: the rows of its job and of its operation before it, after
    it, and when the call returns. *)
Lemma reconcile_iteration now limit db pre x post :
  store_ok db ->
  inflight now limit db = pre ++ x :: post ->
  let before := reconcile_loop now pre (mkCounters 0 0) db in
  let after := reconcile_job now x before.1 before.2 in
  let r := reconcile_inflight now limit db in
  x.1 ∈ jobs db /\
  stale (now - minutes 5) x.1 /\
  get_job (BundlerJob.id x.1) before.2 = Some x.1 /\
  get_job (BundlerJob.id x.1) after.2 = Some (reconciled_job now x x.1) /\
  get_job (BundlerJob.id x.1) r.2 = Some (reconciled_job now x x.1) /\
  (exists o,
     get_operation (BundlerJob.user_operation x.1) before.2 = Some o /\
     get_operation (BundlerJob.user_operation x.1) after.2
       = Some (reconciled_operation now x o) /\
     ((forall y, y ∈ post ->
         BundlerJob.user_operation y.1 <> BundlerJob.user_operation x.1) ->
      get_operation (BundlerJob.user_operation x.1) r.2
        = Some (reconciled_operation now x o))) /\
  events after.2 = events before.2 ++ [reconcile_event now (uuid_next db + length pre) x] /\
  r.2 = (reconcile_loop now post after.1 after.2).2.
Proof.
  intros Hok Hsel before after r.
  destruct (inflight_spec now limit db Hok) as (_ & Hin & _ & _ & Hnd & _).
  rewrite Hsel in Hin, Hnd.
  assert (x ∈ pre ++ x :: post) as Hx by (apply elem_of_app; right; by left).
  destruct (Hin x Hx) as [Hstale Hjoin].
  destruct (joined_row db x Hok Hjoin) as (Hjob & Hgetj & Hgeto & Hfk).
  rewrite fmap_app, fmap_cons in Hnd.
  apply NoDup_app in Hnd as (Hnd1 & Hdisj & Hnd2).
  apply NoDup_cons in Hnd2 as [Hxpost Hnd2].
  destruct (reconcile_loop_spec now pre (mkCounters 0 0) db Hnd1)
    as (_ & _ & B3 & _ & B5 & _). fold before in B3, B5.
  assert (get_job (BundlerJob.id x.1) before.2 = Some x.1) as Hbefore.
  { rewrite B5. change (BundlerJob.id x.1) with (joined_id x).
    assert (lookup_row joined_id (joined_id x) pre = None) as ->; [|done].
    apply lookup_row_None. intros Hp. by apply (Hdisj _ Hp); left. }
  assert (after = (reconcile_counters x before.1,
            mkStore
              (update_rows UserOperation.id (joined_operation x)
                 (reconciled_operation now x) (operations before.2))
              (update_rows BundlerJob.id (joined_id x) (reconciled_job now x)
                 (jobs before.2))
              (events before.2 ++ [reconcile_event now (uuid_next before.2) x])
              (S (uuid_next before.2)))) as Hafter by apply reconcile_job_eq.
  assert (get_job (BundlerJob.id x.1) after.2 = Some (reconciled_job now x x.1)) as Hafterj.
  { rewrite Hafter. unfold get_job in *. cbn [snd jobs].
    change (BundlerJob.id x.1) with (joined_id x) in *.
    rewrite lookup_row_update_eq by (intros; apply reconciled_job_id).
    by rewrite Hbefore. }
  assert (r.2 = (reconcile_loop now post after.1 after.2).2) as Hr.
  { subst r. rewrite reconcile_inflight_eq. cbv zeta. cbn [snd]. rewrite Hsel.
    rewrite reconcile_loop_app. cbn [reconcile_loop]. fold before. fold after.
    by destruct after. }
  destruct (reconcile_loop_spec now post after.1 after.2 Hnd2) as (_ & _ & _ & _ & A5 & A6).
  split_and!; try done.
  - rewrite Hr, A5. change (BundlerJob.id x.1) with (joined_id x).
    assert (lookup_row joined_id (joined_id x) post = None) as ->; [|done].
    by apply lookup_row_None.
  - assert (is_Some (get_operation (BundlerJob.user_operation x.1) before.2)) as [o Ho].
    { eapply get_operation_same_keys; [apply same_keys_reconcile_loop|].
      rewrite <- Hfk. by rewrite Hgeto. }
    exists o. split; [done|].
    assert (get_operation (BundlerJob.user_operation x.1) after.2
            = Some (reconciled_operation now x o)) as Ho'.
    { rewrite Hafter. unfold get_operation in *. cbn [snd operations]. rewrite <- Hfk in *.
      rewrite lookup_row_update_eq by (intros; apply reconciled_operation_id).
      by rewrite Ho. }
    split; [done|]. intros Hother. rewrite Hr, A6; [done|].
    intros Hp. apply list_elem_of_fmap in Hp as (y & Hy & Hyin).
    apply (Hother y Hyin).
    destruct (Hin y) as [_ Hyj]; [apply elem_of_app; right; by right|].
    destruct (joined_row db y Hok Hyj) as (_ & _ & _ & Hfky). by rewrite <- Hfky, <- Hy.
  - rewrite Hafter. cbn [snd events]. by rewrite B3.
Qed.

Lemma filter_length_split {A} (P : A -> Prop) `{!forall x, Decision (P x)} (l : list A) :
  length l = length (filter (fun x => ~ P x) l) + length (filter P l).
Proof.
  induction l as [|x l IH]; [done|]. rewrite !filter_cons.
  destruct (decide (P x)).
  - rewrite decide_False by tauto. simpl. lia.
  - rewrite decide_True by done. simpl. lia.
Qed.

Lemma reconcile_inflight_events now limit db :
  store_ok db ->
  events (reconcile_inflight now limit db).2 =
  events db ++
  imap (fun k x => reconcile_event now (uuid_next db + k) x) (inflight now limit db).
Proof.
  intros Hok. rewrite reconcile_inflight_eq. cbv zeta. cbn [snd].
  destruct (inflight_spec now limit db Hok) as (_ & _ & _ & _ & Hnd & _).
  by destruct (reconcile_loop_spec now _ (mkCounters 0 0) db Hnd) as (_ & _ & _ & H & _).
Qed.

(** C5, as amended: an iteration of [reconcile_inflight] on a stale job whose
    [attempt_count] is at least 3.  The job was [DISPATCHING]; the iteration
    leaves it [FAILED] with a non-empty [last_error] (the one it had, or
    ['Dispatch attempts exceeded'] when it had none), and so it is when the
    call returns; the iteration sets the operation of the job to [FAILED]
    with that reason as [failure_reason], and so it is when the call returns
    unless a later iteration handles another job of the same operation; and
    the iteration appends one [failed] event with the [job_id] and the
    reason. *)
Theorem reconcile_inflight_failure now limit db pre x post :
  store_ok db ->
  inflight now limit db = pre ++ x :: post ->
  3 <= BundlerJob.attempt_count x.1 ->
  let reason := failure_reason_of x.1 in
  let before := reconcile_loop now pre (mkCounters 0 0) db in
  let after := reconcile_job now x before.1 before.2 in
  let r := reconcile_inflight now limit db in
  BundlerJob.status x.1 = BundlerJob.DISPATCHING /\
  reason <> "" /\
  reason = (if decide (BundlerJob.last_error x.1 = "")
            then "Dispatch attempts exceeded" else BundlerJob.last_error x.1) /\
  get_job (BundlerJob.id x.1) after.2 = Some (failed_job now x.1) /\
  get_job (BundlerJob.id x.1) r.2 = Some (failed_job now x.1) /\
  BundlerJob.status (failed_job now x.1) = BundlerJob.FAILED /\
  BundlerJob.last_error (failed_job now x.1) = reason /\
  (exists o,
     get_operation (BundlerJob.user_operation x.1) before.2 = Some o /\
     get_operation (BundlerJob.user_operation x.1) after.2
       = Some (failed_operation now reason o) /\
     UserOperation.status (failed_operation now reason o) = UserOperation.FAILED /\
     UserOperation.failure_reason (failed_operation now reason o) = reason /\
     ((forall y, y ∈ post ->
         BundlerJob.user_operation y.1 <> BundlerJob.user_operation x.1) ->
      get_operation (BundlerJob.user_operation x.1) r.2
        = Some (failed_operation now reason o))) /\
  events after.2 = events before.2 ++ [failed_event now (uuid_next db + length pre) x] /\
  events r.2 =
    events db ++
    imap (fun k y => reconcile_event now (uuid_next db + k) y) (pre ++ x :: post).
Proof.
  intros Hok Hsel Hx reason before after r.
  destruct (reconcile_iteration now limit db pre x post Hok Hsel)
    as (_ & [Hst _] & _ & Ha & Hr & (o & Ho & Hoa & Hor) & He & _).
  fold before in Ho, He. fold after in Ha, Hoa, He. fold r in Hr, Hor.
  unfold reconciled_job, reconciled_operation, reconcile_event in *.
  rewrite !(decide_True (P := exhausted x)) in * by done.
  split_and!; try done.
  - apply failure_reason_of_nonempty.
  - exists o. split_and!; done.
  - subst r. rewrite <- Hsel. by apply reconcile_inflight_events.
Qed.

(** C6, as amended: [reconcile_inflight] examines the jobs that are [DISPATCHING] with a
    [last_attempt_at] more than five minutes before the clock's reading:
    every examined job is one of them, they come oldest first, there are
    [min limit (number of stale jobs)] of them, and a stale job left out is
    no older than any examined one; no other job row changes.  An iteration
    on a job with [attempt_count] below 3 leaves it [RETRYING], and so it is
    when the call returns; it sets the job's operation to [QUEUED], and so
    it is when the call returns unless a later iteration handles another job
    of the same operation; and it appends one [requeued] event with the
    [job_id].  The result counts satisfy [processed = requeued + failed], and
    with no stale job the call returns three zeros and leaves the database
    alone. *)
Theorem reconcile_inflight_spec now limit db :
  store_ok db ->
  let cutoff := (now - minutes 5)%Z in
  let sel := inflight now limit db in
  let r := reconcile_inflight now limit db in
  length sel = min limit (length (filter (stale cutoff) (jobs db))) /\
  (forall x, x ∈ sel ->
     x.1 ∈ jobs db /\ BundlerJob.status x.1 = BundlerJob.DISPATCHING /\
     exists t, BundlerJob.last_attempt_at x.1 = Some t /\ (t < now - 300000000)%Z) /\
  StronglySorted (fun x y : joined => attempt_order x.1 y.1) sel /\
  (forall j x, j ∈ jobs db -> stale cutoff j -> j ∉ sel.*1 -> x ∈ sel ->
     attempt_order x.1 j) /\
  (forall j, j ∈ jobs db -> j ∉ sel.*1 -> get_job (BundlerJob.id j) r.2 = Some j) /\
  (forall pre x post,
     sel = pre ++ x :: post -> BundlerJob.attempt_count x.1 < 3 ->
     let before := reconcile_loop now pre (mkCounters 0 0) db in
     let after := reconcile_job now x before.1 before.2 in
     get_job (BundlerJob.id x.1) after.2 = Some (retrying_job now x.1) /\
     get_job (BundlerJob.id x.1) r.2 = Some (retrying_job now x.1) /\
     BundlerJob.status (retrying_job now x.1) = BundlerJob.RETRYING /\
     (exists o,
        get_operation (BundlerJob.user_operation x.1) before.2 = Some o /\
        get_operation (BundlerJob.user_operation x.1) after.2 = Some (queued_again now o) /\
        UserOperation.status (queued_again now o) = UserOperation.QUEUED /\
        ((forall y, y ∈ post ->
            BundlerJob.user_operation y.1 <> BundlerJob.user_operation x.1) ->
         get_operation (BundlerJob.user_operation x.1) r.2 = Some (queued_again now o))) /\
     events after.2 =
       events before.2 ++ [requeued_event now (uuid_next db + length pre) x]) /\
  events r.2 =
    events db ++ imap (fun k x => reconcile_event now (uuid_next db + k) x) sel /\
  (exists requeued failed,
     r.1 = reconcile_result (length sel) requeued failed /\
     length sel = requeued + failed /\
     requeued = length (filter (fun x => ~ exhausted x) sel) /\
     failed = length (filter exhausted sel)) /\
  (filter (stale cutoff) (jobs db) = [] -> r = (reconcile_result 0 0 0, db)).
Proof.
  intros Hok cutoff sel r.
  destruct (inflight_spec now limit db Hok) as (Hlen & Hin & Hsort & Hfirst & Hnd & Hout).
  fold sel cutoff in Hlen, Hin, Hsort, Hfirst, Hnd, Hout.
  destruct (reconcile_loop_spec now sel (mkCounters 0 0) db Hnd)
    as (L1 & L2 & _ & _ & L5 & _).
  assert (r = (reconcile_result (length sel)
                 (requeued (reconcile_loop now sel (mkCounters 0 0) db).1)
                 (failed (reconcile_loop now sel (mkCounters 0 0) db).1),
               (reconcile_loop now sel (mkCounters 0 0) db).2)) as Hr
    by apply reconcile_inflight_eq.
  split_and!; try done.
  - intros x Hx. destruct (Hin x Hx) as [[Hst Hlast] Hj].
    destruct (joined_row db x Hok Hj) as (Hjob & _).
    split_and!; try done.
    destruct (BundlerJob.last_attempt_at x.1) as [t|]; [|done].
    exists t. split; [done|]. unfold cutoff, minutes in Hlast. lia.
  - intros j Hj Hn. rewrite Hr. cbn [snd]. rewrite L5, (Hout j Hj Hn).
    apply (lookup_row_NoDup BundlerJob.id); [apply Hok | done].
  - intros pre x post Hsel Hx before after.
    destruct (reconcile_iteration now limit db pre x post Hok Hsel)
      as (_ & _ & _ & Ha & Hfin & (o & Ho & Hoa & Hor) & He & _).
    fold before in Ho, He. fold after in Ha, Hoa, He. fold r in Hfin, Hor.
    unfold reconciled_job, reconciled_operation, reconcile_event in *.
    rewrite !(decide_False (P := exhausted x)) in * by (unfold exhausted; lia).
    split_and!; try done. exists o. split_and!; done.
  - by apply reconcile_inflight_events.
  - eexists _, _. split; [by rewrite Hr|]. rewrite L1, L2. simpl.
    split_and!; try done. apply filter_length_split.
  - intros Hnone. rewrite Hr.
    assert (sel = []) as ->; [|done].
    apply length_zero_iff_nil. rewrite Hlen, Hnone. simpl. lia.
Qed.

(** ** Rows a call leaves alone *)

Lemma get_job_elem db i j :
  store_ok db -> get_job i db = Some j <-> j ∈ jobs db /\ BundlerJob.id j = i.
Proof.
  intros Hok. split.
  - apply lookup_row_Some.
  - intros [Hin <-]. apply (lookup_row_NoDup BundlerJob.id); [apply Hok | done].
Qed.

Lemma get_operation_elem db i o :
  store_ok db -> get_operation i db = Some o <-> o ∈ operations db /\ UserOperation.id o = i.
Proof.
  intros Hok. split.
  - apply lookup_row_Some.
  - intros [Hin <-]. apply (lookup_row_NoDup UserOperation.id); [apply Hok | done].
Qed.

Lemma queue_operation_jobs now a db :
  exists j, jobs (queue_operation now a db).2 = jobs db ++ [j].
Proof.
  destruct (get_operation_by_hash (user_op_hash a) db) as [o|] eqn:E.
  - rewrite (queue_operation_found _ _ _ _ E). by eexists.
  - rewrite (queue_operation_fresh _ _ _ E). by eexists.
Qed.

Lemma queue_operation_job_frame now a db i j :
  get_job i db = Some j -> get_job i (queue_operation now a db).2 = Some j.
Proof.
  intros H. unfold get_job in *. destruct (queue_operation_jobs now a db) as [j' ->].
  by rewrite lookup_row_app, H.
Qed.

Lemma dispatch_batch_job_frame now n db i j :
  store_ok db -> get_job i db = Some j -> ~ eligible j ->
  get_job i (dispatch_batch now n db).2 = Some j.
Proof.
  intros Hok Hj Hne. pose proof Hj as Hj'. apply (get_job_elem db i j Hok) in Hj' as [Hin <-].
  destruct (queued_jobs_spec n db Hok) as (_ & Hsel & _ & _ & Hnd & Hout).
  destruct (dispatch_loop_spec now (queued_jobs n db) [] db Hnd) as (_ & _ & _ & L4 & _).
  rewrite dispatch_batch_eq. cbv zeta. cbn [snd]. rewrite L4, Hout; [done..|].
  intros Hx. apply list_elem_of_fmap in Hx as (x & -> & Hx). apply Hne. by apply Hsel.
Qed.

Lemma dispatch_batch_operation_frame now n db i :
  store_ok db ->
  (forall x, x ∈ queued_jobs n db -> BundlerJob.user_operation x.1 <> i) ->
  get_operation i (dispatch_batch now n db).2 = get_operation i db.
Proof.
  intros Hok Hother.
  destruct (queued_jobs_spec n db Hok) as (_ & Hsel & _ & _ & Hnd & _).
  destruct (dispatch_loop_spec now (queued_jobs n db) [] db Hnd) as (_ & _ & _ & _ & L5).
  rewrite dispatch_batch_eq. cbv zeta. cbn [snd]. rewrite L5, decide_False; [done|].
  intros Hx. apply list_elem_of_fmap in Hx as (x & -> & Hx).
  apply (Hother x Hx). destruct (Hsel x Hx) as [_ Hj].
  by destruct (joined_row db x Hok Hj) as (_ & _ & _ & <-).
Qed.

Lemma reconcile_inflight_job_frame now n db i j :
  store_ok db -> get_job i db = Some j -> BundlerJob.status j <> BundlerJob.DISPATCHING ->
  get_job i (reconcile_inflight now n db).2 = Some j.
Proof.
  intros Hok Hj Hne. pose proof Hj as Hj'. apply (get_job_elem db i j Hok) in Hj' as [Hin <-].
  destruct (inflight_spec now n db Hok) as (_ & Hsel & _ & _ & Hnd & Hout).
  destruct (reconcile_loop_spec now (inflight now n db) (mkCounters 0 0) db Hnd)
    as (_ & _ & _ & _ & L5 & _).
  rewrite reconcile_inflight_eq. cbv zeta. cbn [snd]. rewrite L5, Hout; [done..|].
  intros Hx. apply list_elem_of_fmap in Hx as (x & -> & Hx). apply Hne.
  by destruct (Hsel x Hx) as [[? _] _].
Qed.

Lemma reconcile_inflight_operation_frame now n db i :
  store_ok db ->
  (forall x, x ∈ inflight now n db -> BundlerJob.user_operation x.1 <> i) ->
  get_operation i (reconcile_inflight now n db).2 = get_operation i db.
Proof.
  intros Hok Hother.
  destruct (inflight_spec now n db Hok) as (_ & Hsel & _ & _ & Hnd & _).
  destruct (reconcile_loop_spec now (inflight now n db) (mkCounters 0 0) db Hnd)
    as (_ & _ & _ & _ & _ & L6).
  rewrite reconcile_inflight_eq. cbv zeta. cbn [snd]. apply L6.
  intros Hx. apply list_elem_of_fmap in Hx as (x & -> & Hx).
  apply (Hother x Hx). destruct (Hsel x Hx) as [_ Hj].
  by destruct (joined_row db x Hok Hj) as (_ & _ & _ & <-).
Qed.

Lemma mark_included_job_status now job_id tx db i st :
  store_ok db -> job_status i db = Some st ->
  i <> job_id \/ st = BundlerJob.SUCCEEDED ->
  job_status i (mark_included now job_id tx db).2 = Some st.
Proof.
  intros Hok Hst Hcase. unfold job_status in *.
  destruct (get_job job_id db) as [job|] eqn:Hj.
  - destruct (get_job_related_Some _ _ _ Hok Hj) as (op & Hop & Hrel).
    rewrite (mark_included_found _ _ _ _ _ _ Hrel). unfold get_job in *. cbn [snd jobs].
    apply lookup_row_Some in Hj as Hj'. destruct Hj' as [_ Hid]. rewrite Hid.
    destruct (decide (i = job_id)) as [->|Hne].
    + rewrite lookup_row_update_eq by done. rewrite Hj in *. simpl in *.
      destruct Hcase as [?|Hs]; [done|]. injection Hst as Hst. by rewrite Hs.
    + by rewrite lookup_row_update_ne.
  - unfold mark_included. by rewrite (get_job_related_None _ _ Hok Hj).
Qed.

Lemma mark_included_operation_status now job_id tx db i :
  store_ok db -> operation_status i db = Some UserOperation.INCLUDED ->
  operation_status i (mark_included now job_id tx db).2 = Some UserOperation.INCLUDED.
Proof.
  intros Hok Hst. unfold operation_status in *.
  destruct (get_job job_id db) as [job|] eqn:Hj.
  - destruct (get_job_related_Some _ _ _ Hok Hj) as (op & Hop & Hrel).
    rewrite (mark_included_found _ _ _ _ _ _ Hrel). unfold get_operation in *.
    cbn [snd operations].
    destruct (decide (i = UserOperation.id op)) as [->|Hne].
    + rewrite lookup_row_update_eq by done.
      by destruct (lookup_row UserOperation.id (UserOperation.id op) (operations db)).
    + by rewrite lookup_row_update_ne.
  - unfold mark_included. by rewrite (get_job_related_None _ _ Hok Hj).
Qed.

Lemma queue_operation_other_hash now a db i o :
  store_ok db -> get_operation i db = Some o ->
  user_op_hash a <> UserOperation.user_op_hash o ->
  get_operation i (queue_operation now a db).2 = Some o.
Proof.
  intros Hok Ho Hh. unfold get_operation in *.
  destruct (get_operation_by_hash (user_op_hash a) db) as [o2|] eqn:E.
  - rewrite (queue_operation_found _ _ _ _ E). cbv zeta. cbn [snd operations].
    case_decide; [|done]. cbn [snd save_operation set_operations operations].
    rewrite lookup_row_update_ne; [done | intros; apply operation_write_fields_id |].
    intros ->. apply get_operation_by_hash_id in E as E'; [|done].
    unfold get_operation in E'.
    change (UserOperation.id (UserOperation.set_updated_at now (requeued_operation now o2)))
      with (UserOperation.id o2) in Ho.
    rewrite E' in Ho. injection Ho as <-.
    apply get_operation_by_hash_Some in E as [_ E]. by rewrite E in Hh.
  - rewrite (queue_operation_fresh _ _ _ E). cbv zeta. cbn [snd operations].
    by rewrite lookup_row_app, Ho.
Qed.

Lemma queue_operation_own_hash now a db o :
  store_ok db -> get_operation_by_hash (user_op_hash a) db = Some o ->
  UserOperation.status o <> UserOperation.QUEUED ->
  get_operation (UserOperation.id o) (queue_operation now a db).2
  = Some (requeued_operation now o).
Proof.
  intros Hok E Hs. rewrite (queue_operation_found _ _ _ _ E). cbv zeta.
  unfold get_operation. cbn [snd]. case_decide; [|done].
  cbn [snd save_operation set_operations operations].
  change (UserOperation.id (UserOperation.set_updated_at now (requeued_operation now o)))
    with (UserOperation.id o).
  rewrite lookup_row_update_eq by (intros; apply operation_write_fields_id).
  apply get_operation_by_hash_id in E; [|done]. unfold get_operation in E. by rewrite E.
Qed.

(** C3, as amended: in a database that meets its integrity constraints (as
    every reachable one does), [queue_operation], [dispatch_batch] and
    [reconcile_inflight] leave the status of every [SUCCEEDED] or [FAILED]
    job as it is, and [mark_included] does so for every job but the one it
    is called for, which stays [SUCCEEDED] if it was; an [INCLUDED]
    operation stays [INCLUDED] under [mark_included], under
    [queue_operation] for another hash, and under [dispatch_batch] and
    [reconcile_inflight] when none of the jobs they handle belongs to it;
    and [queue_operation] for the hash of an [INCLUDED] operation resets it
    to [QUEUED]. *)
Theorem terminal_statuses_step c db :
  store_ok db ->
  (forall i st, job_status i db = Some st ->
     st = BundlerJob.SUCCEEDED \/ st = BundlerJob.FAILED ->
     match c with
     | MarkIncluded _ job_id _ => i <> job_id \/ st = BundlerJob.SUCCEEDED
     | _ => True
     end ->
     job_status i (step c db) = Some st) /\
  (forall i o, get_operation i db = Some o ->
     UserOperation.status o = UserOperation.INCLUDED ->
     match c with
     | QueueOperation _ a => user_op_hash a <> UserOperation.user_op_hash o
     | DispatchBatch _ n =>
         forall x, x ∈ queued_jobs n db -> BundlerJob.user_operation x.1 <> i
     | ReconcileInflight now n =>
         forall x, x ∈ inflight now n db -> BundlerJob.user_operation x.1 <> i
     | MarkIncluded _ _ _ => True
     end ->
     operation_status i (step c db) = Some UserOperation.INCLUDED) /\
  (forall now a o, c = QueueOperation now a ->
     get_operation_by_hash (user_op_hash a) db = Some o ->
     UserOperation.status o = UserOperation.INCLUDED ->
     operation_status (UserOperation.id o) (step c db) = Some UserOperation.QUEUED).
Proof.
  intros Hok. split_and!.
  - intros i st Hst Hterm Hc. unfold job_status in Hst.
    destruct (get_job i db) as [j|] eqn:Hj; [|done]. injection Hst as Hst.
    destruct c as [now a|now n|now n|now job_id tx]; cbn [step].
    + unfold job_status. by rewrite (queue_operation_job_frame now a db i j Hj), <- Hst.
    + unfold job_status. rewrite (dispatch_batch_job_frame now n db i j Hok Hj).
      * by rewrite <- Hst.
      * unfold eligible. rewrite Hst. by destruct Hterm as [-> | ->]; intros [?|?].
    + unfold job_status. rewrite (reconcile_inflight_job_frame now n db i j Hok Hj).
      * by rewrite <- Hst.
      * rewrite Hst. by destruct Hterm as [-> | ->].
    + apply mark_included_job_status; [done| |done]. unfold job_status. by rewrite Hj, <- Hst.
  - intros i o Ho Hst Hc.
    destruct c as [now a|now n|now n|now job_id tx]; cbn [step].
    + unfold operation_status.
      by rewrite (queue_operation_other_hash now a db i o Hok Ho Hc), <- Hst.
    + unfold operation_status.
      by rewrite (dispatch_batch_operation_frame now n db i Hok Hc), Ho, <- Hst.
    + unfold operation_status.
      by rewrite (reconcile_inflight_operation_frame now n db i Hok Hc), Ho, <- Hst.
    + apply mark_included_operation_status; [done|]. unfold operation_status.
      by rewrite Ho, <- Hst.
  - intros now a o -> E Hst. cbn [step]. unfold operation_status.
    rewrite (queue_operation_own_hash now a db o Hok E); [done|]. by rewrite Hst.
Qed.

(** ** The worked run *)

Lemma example_queued_ok : store_ok example_queued.
Proof. apply (bool_decide_unpack _). vm_compute. exact I. Qed.

Lemma example_queued_jobs : queued_jobs 5 example_queued = [example_queued_row].
Proof. vm_compute. reflexivity. Qed.

Lemma example_dispatched_inflight :
  inflight (seconds 400) 50 example_dispatched = [] ++ example_dispatched_row :: [].
Proof. vm_compute. reflexivity. Qed.

Lemma example_third_attempt_inflight :
  inflight (seconds 1200) 50 example_third_attempt = [] ++ example_third_attempt_row :: [].
Proof. vm_compute. reflexivity. Qed.

(** C3, as stated, fails: the operation of the worked run is [INCLUDED]
    after [mark_included], and queueing its hash again leaves it [QUEUED]. *)
Lemma included_operation_requeued :
  reachable example_included /\
  ~ terminal_statuses_kept example_included
      (step (QueueOperation (seconds 4) example_args) example_included).
Proof.
  split.
  - by exists example_included_calls.
  - intros [_ H].
    assert (operation_status 0 example_included = Some UserOperation.INCLUDED) as E1
      by (vm_compute; reflexivity).
    assert (operation_status 0
              (step (QueueOperation (seconds 4) example_args) example_included)
            = Some UserOperation.QUEUED) as E2 by (vm_compute; reflexivity).
    specialize (H 0 E1). rewrite E2 in H. discriminate H.
Qed.

(** C4, as stated, fails on "every pre-existing key and value": a second
    report for the same job with another transaction hash replaces the value
    under [tx_hash]. *)
Lemma mark_included_overwrites_tx_hash :
  exists o o',
    get_operation 0 example_included = Some o /\
    get_operation 0 (mark_included (seconds 4) 1 example_tx' example_included).2 = Some o' /\
    UserOperation.metadata o !! "tx_hash" = Some (JStr example_tx) /\
    UserOperation.metadata o' !! "tx_hash" = Some (JStr example_tx') /\
    ~ entries_kept (UserOperation.metadata o) (UserOperation.metadata o').
Proof.
  exists (included_operation (seconds 3) example_tx example_dispatched_row.2),
    (included_operation (seconds 4) example_tx'
       (included_operation (seconds 3) example_tx example_dispatched_row.2)).
  assert (UserOperation.metadata
            (included_operation (seconds 3) example_tx example_dispatched_row.2)
            !! "tx_hash" = Some (JStr example_tx)) as E1 by (vm_compute; reflexivity).
  assert (UserOperation.metadata
            (included_operation (seconds 4) example_tx'
               (included_operation (seconds 3) example_tx example_dispatched_row.2))
            !! "tx_hash" = Some (JStr example_tx')) as E2 by (vm_compute; reflexivity).
  split; [vm_compute; reflexivity|]. split; [vm_compute; reflexivity|].
  split; [exact E1|]. split; [exact E2|].
  intros H. apply H in E1. rewrite E2 in E1. revert E1. vm_compute. discriminate.
Qed.

(** C5, as stated, fails on "sets the parent Operation's status to
    Failed": when a later iteration of the same call handles another job of
    the operation that has fewer than three attempts, the operation is
    [QUEUED] when the call returns.  Jobs 1 and 8 belong to operation 0 and
    are examined in that order; job 1 has three attempts and ends [FAILED],
    job 8 has one and ends [RETRYING]. *)
Lemma exhausted_job_operation_queued :
  let db := example_exhausted_first in
  let r := reconcile_inflight (seconds 1200) 50 db in
  reachable db /\
  joined_id <$> inflight (seconds 1200) 50 db = [1; 8] /\
  job_status 1 r.2 = Some BundlerJob.FAILED /\
  job_status 8 r.2 = Some BundlerJob.RETRYING /\
  operation_status 0 r.2 = Some UserOperation.QUEUED /\
  ~ failure_escalated (seconds 1200) 50 db.
Proof.
  cbv zeta.
  assert (operation_status 0 (reconcile_inflight (seconds 1200) 50 example_exhausted_first).2
          = Some UserOperation.QUEUED) as E by (vm_compute; reflexivity).
  split_and!.
  - by exists example_exhausted_first_calls.
  - vm_compute. reflexivity.
  - vm_compute. reflexivity.
  - vm_compute. reflexivity.
  - exact E.
  - intros H.
    assert (exists x,
              lookup_row joined_id 1 (inflight (seconds 1200) 50 example_exhausted_first)
                = Some x /\
              BundlerJob.attempt_count x.1 = 3 /\
              BundlerJob.user_operation x.1 = 0) as (x & Hx & Hn & Ho).
    { eexists. split_and!; vm_compute; reflexivity. }
    apply lookup_row_Some in Hx as [Hx _].
    specialize (H x Hx). rewrite Hn, Ho, E in H.
    assert (3 <= 3) as Hle by lia. specialize (H Hle). discriminate H.
Qed.

(** C6, as stated, fails on "its parent Operation's status set back to
    Queued": when a later iteration of the same call handles another job of
    the operation that has three attempts, the operation is [FAILED] when
    the call returns.  Jobs 6 and 1 belong to operation 0 and are examined
    in that order; job 6 has one attempt and ends [RETRYING], job 1 has
    three and ends [FAILED]. *)
Lemma requeued_job_operation_failed :
  let db := example_exhausted_last in
  let r := reconcile_inflight (seconds 1200) 50 db in
  reachable db /\
  joined_id <$> inflight (seconds 1200) 50 db = [6; 1] /\
  job_status 6 r.2 = Some BundlerJob.RETRYING /\
  job_status 1 r.2 = Some BundlerJob.FAILED /\
  operation_status 0 r.2 = Some UserOperation.FAILED /\
  ~ requeue_propagated (seconds 1200) 50 db.
Proof.
  cbv zeta.
  assert (operation_status 0 (reconcile_inflight (seconds 1200) 50 example_exhausted_last).2
          = Some UserOperation.FAILED) as E by (vm_compute; reflexivity).
  split_and!.
  - by exists example_exhausted_last_calls.
  - vm_compute. reflexivity.
  - vm_compute. reflexivity.
  - vm_compute. reflexivity.
  - exact E.
  - intros H.
    assert (exists x,
              lookup_row joined_id 6 (inflight (seconds 1200) 50 example_exhausted_last)
                = Some x /\
              BundlerJob.attempt_count x.1 = 1 /\
              BundlerJob.user_operation x.1 = 0) as (x & Hx & Hn & Ho).
    { eexists. split_and!; vm_compute; reflexivity. }
    apply lookup_row_Some in Hx as [Hx _].
    specialize (H x Hx). rewrite Hn, Ho, E in H.
    assert (1 < 3) as Hlt by lia. specialize (H Hlt). discriminate H.
Qed.

(** C8, where the code departs from it: with nothing to claim,
    [dispatch_batch] returns a dict with the keys [count] and [job_ids]
    only.  The key [operation_hashes] is missing, and the response model of
    the router, which requires it, rejects the dict. *)
Theorem dispatch_batch_nothing_claimed now batch_size :
  dispatch_batch now batch_size empty_store
    = (<[ "count" := JInt 0 ]> {[ "job_ids" := JList [] ]}, empty_store) /\
  (dispatch_batch now batch_size empty_store).1 !! "count" = Some (JInt 0) /\
  (dispatch_batch now batch_size empty_store).1 !! "job_ids" = Some (JList []) /\
  (dispatch_batch now batch_size empty_store).1 !! "operation_hashes" = None /\
  validate_DispatchResponse (dispatch_batch now batch_size empty_store).1 = None.
Proof.
  assert (dispatch_batch now batch_size empty_store
          = (<[ "count" := JInt 0 ]> {[ "job_ids" := JList [] ]}, empty_store)) as ->.
  { unfold dispatch_batch, queued_jobs. rewrite query_nil; done. }
  split_and!; vm_compute; reflexivity.
Qed.

Lemma not_completed_iff_terminal db i st t :
  operation_status i db = Some st ->
  UserOperation.terminal st = false ->
  UserOperation.completed_at <$> get_operation i db = Some (Some t) ->
  ~ completed_iff_terminal db.
Proof.
  unfold operation_status. intros Hst Hterm Hc H.
  destruct (get_operation i db) as [o|] eqn:E; [|done].
  injection Hst as Hst. injection Hc as Hc.
  destruct (H i o E) as [H1 _]. rewrite Hst, Hterm, Hc in H1.
  by specialize (H1 ltac:(discriminate)).
Qed.

(** C9, where the code departs from it: the worked run with two jobs of one
    operation is a run of gateway calls from the empty database, and it ends
    with the operation [DISPATCHED], which is not terminal, and its
    [completed_at] still set by the earlier [mark_included]. *)
Theorem completed_at_survives_dispatch :
  reachable (run example_two_jobs empty_store) /\
  operation_status 0 (run example_two_jobs empty_store) = Some UserOperation.DISPATCHED /\
  UserOperation.completed_at <$> get_operation 0 (run example_two_jobs empty_store)
    = Some (Some (seconds 4)) /\
  ~ completed_iff_terminal (run example_two_jobs empty_store).
Proof.
  assert (operation_status 0 (run example_two_jobs empty_store)
          = Some UserOperation.DISPATCHED) as E1 by (vm_compute; reflexivity).
  assert (UserOperation.completed_at <$> get_operation 0 (run example_two_jobs empty_store)
          = Some (Some (seconds 4))) as E2 by (vm_compute; reflexivity).
  split; [by exists example_two_jobs|]. split; [exact E1|]. split; [exact E2|].
  by apply (not_completed_iff_terminal _ 0 UserOperation.DISPATCHED (seconds 4)).
Qed.

(** ** The theorems at the worked run *)

(** C10 at the worked run: the hash is queued again while its operation is
    [DISPATCHED]. *)
Lemma queue_operation_existing_hash_frame_witness :
  get_operation_by_hash (user_op_hash example_args) example_dispatched
    = Some example_dispatched_row.2 /\
  jobs (queue_operation (seconds 3) example_args example_dispatched).2
    = jobs example_dispatched ++
      [initial_job (seconds 3) (uuid_next example_dispatched) 0 "https://bundler.mock/rpc"].
Proof.
  assert (get_operation_by_hash (user_op_hash example_args) example_dispatched
          = Some example_dispatched_row.2) as H by (vm_compute; reflexivity).
  split; [exact H|].
  destruct (queue_operation_existing_hash_frame (seconds 3) example_args
              example_dispatched example_dispatched_row.2 H)
    as (_ & _ & _ & Hj & Hjobs & _).
  rewrite Hjobs, Hj. vm_compute. reflexivity.
Defined.

(** C2 at the worked run: queued, dispatched, reported included, and queued
    again. *)
Lemma queue_operation_same_hash_twice_witness :
  store_ok empty_store /\
  user_op_hash example_args = user_op_hash example_args /\
  length (operations_with_hash (user_op_hash example_args)
            (queue_operation (seconds 4) example_args
               (run [DispatchBatch (seconds 2) 5; MarkIncluded (seconds 3) 1 example_tx]
                  (queue_operation (seconds 1) example_args empty_store).2)).2) = 1.
Proof.
  assert (store_ok empty_store) as Hok by (apply (bool_decide_unpack _); vm_compute; exact I).
  split; [exact Hok|]. split; [reflexivity|].
  destruct (queue_operation_same_hash_twice empty_store (seconds 1) example_args
              [DispatchBatch (seconds 2) 5; MarkIncluded (seconds 3) 1 example_tx]
              (seconds 4) example_args Hok eq_refl)
    as (_ & _ & H & _).
  exact H.
Defined.

(** C3 at the worked run: dispatching again leaves the included operation
    alone. *)
Lemma terminal_statuses_step_witness :
  store_ok example_included /\
  job_status 1 (step (DispatchBatch (seconds 4) 5) example_included)
    = Some BundlerJob.SUCCEEDED.
Proof.
  assert (store_ok example_included) as Hok
    by (apply (bool_decide_unpack _); vm_compute; exact I).
  split; [exact Hok|].
  destruct (terminal_statuses_step (DispatchBatch (seconds 4) 5) example_included Hok)
    as (H & _).
  apply H; [vm_compute; reflexivity | by left | exact I].
Defined.

(** C4 at the worked run. *)
Lemma mark_included_spec_witness :
  store_ok example_dispatched /\
  ((mark_included (seconds 3) 1 example_tx example_dispatched).1 = Raised DoesNotExist
   <-> get_job 1 example_dispatched = None).
Proof.
  assert (store_ok example_dispatched) as Hok
    by (apply (bool_decide_unpack _); vm_compute; exact I).
  split; [exact Hok|].
  destruct (mark_included_spec (seconds 3) 1 example_tx example_dispatched Hok) as (H & _).
  exact H.
Defined.

(** C5 at the worked run: the third attempt went stale. *)
Lemma reconcile_inflight_failure_witness :
  store_ok example_third_attempt /\
  inflight (seconds 1200) 50 example_third_attempt
    = [] ++ example_third_attempt_row :: [] /\
  3 <= BundlerJob.attempt_count example_third_attempt_row.1 /\
  get_job 1 (reconcile_inflight (seconds 1200) 50 example_third_attempt).2
    = Some (failed_job (seconds 1200) example_third_attempt_row.1).
Proof.
  assert (store_ok example_third_attempt) as Hok
    by (apply (bool_decide_unpack _); vm_compute; exact I).
  assert (inflight (seconds 1200) 50 example_third_attempt
          = [] ++ example_third_attempt_row :: []) as Hsel by (vm_compute; reflexivity).
  assert (3 <= BundlerJob.attempt_count example_third_attempt_row.1) as Hx
    by (vm_compute; lia).
  split; [exact Hok|]. split; [exact Hsel|]. split; [exact Hx|].
  destruct (reconcile_inflight_failure (seconds 1200) 50 example_third_attempt
              [] example_third_attempt_row [] Hok Hsel Hx)
    as (_ & _ & _ & _ & H & _).
  exact H.
Defined.

(** C6 at the worked run: the first attempt went stale. *)
Lemma reconcile_inflight_spec_witness :
  store_ok example_dispatched /\
  length (inflight (seconds 400) 50 example_dispatched)
    = min 50 (length (filter (stale (seconds 400 - minutes 5)) (jobs example_dispatched))).
Proof.
  assert (store_ok example_dispatched) as Hok
    by (apply (bool_decide_unpack _); vm_compute; exact I).
  split; [exact Hok|].
  destruct (reconcile_inflight_spec (seconds 400) 50 example_dispatched Hok) as (H & _).
  exact H.
Defined.

(** C7 at the worked run. *)
Lemma dispatch_batch_spec_witness :
  store_ok example_queued /\
  (dispatch_batch (seconds 2) 5 example_queued).1 !! "job_ids"
    = Some (JList ((fun x : joined => JUuid (BundlerJob.id x.1))
                     <$> queued_jobs 5 example_queued)).
Proof.
  assert (store_ok example_queued) as Hok
    by (apply (bool_decide_unpack _); vm_compute; exact I).
  split; [exact Hok|].
  destruct (dispatch_batch_spec (seconds 2) 5 example_queued Hok)
    as (_ & _ & _ & _ & _ & _ & _ & H & _).
  exact H.
Defined.

(** ** One call, row by row *)

Lemma dispatch_batch_job now n db i :
  store_ok db ->
  get_job i (dispatch_batch now n db).2 =
  match lookup_row joined_id i (queued_jobs n db) with
  | Some x => Some (claimed_job now x.1)
  | None => get_job i db
  end.
Proof.
  intros Hok.
  destruct (queued_jobs_spec n db Hok) as (_ & Hsel & _ & _ & Hnd & _).
  destruct (dispatch_loop_spec now (queued_jobs n db) [] db Hnd) as (_ & _ & _ & L4 & _).
  rewrite dispatch_batch_eq. cbv zeta. cbn [snd]. rewrite L4.
  destruct (lookup_row joined_id i (queued_jobs n db)) as [x|] eqn:E; [|done].
  apply lookup_row_Some in E as [Hx <-].
  destruct (Hsel x Hx) as [_ Hj].
  destruct (joined_row db x Hok Hj) as (_ & -> & _). done.
Qed.

Lemma reconcile_inflight_job now n db i :
  store_ok db ->
  get_job i (reconcile_inflight now n db).2 =
  match lookup_row joined_id i (inflight now n db) with
  | Some x => Some (reconciled_job now x x.1)
  | None => get_job i db
  end.
Proof.
  intros Hok.
  destruct (inflight_spec now n db Hok) as (_ & Hsel & _ & _ & Hnd & _).
  destruct (reconcile_loop_spec now (inflight now n db) (mkCounters 0 0) db Hnd)
    as (_ & _ & _ & _ & L5 & _).
  rewrite reconcile_inflight_eq. cbv zeta. cbn [snd]. rewrite L5.
  destruct (lookup_row joined_id i (inflight now n db)) as [x|] eqn:E; [|done].
  apply lookup_row_Some in E as [Hx <-].
  destruct (Hsel x Hx) as [_ Hj].
  destruct (joined_row db x Hok Hj) as (_ & -> & _). done.
Qed.

Lemma mark_included_job now job_id tx db i :
  store_ok db ->
  get_job i (mark_included now job_id tx db).2 =
  if decide (i = job_id) then succeeded_job now <$> get_job i db else get_job i db.
Proof.
  intros Hok. destruct (get_job job_id db) as [job|] eqn:Hj.
  - destruct (get_job_related_Some _ _ _ Hok Hj) as (op & Hop & Hrel).
    rewrite (mark_included_found _ _ _ _ _ _ Hrel). unfold get_job in *. cbn [snd jobs].
    apply lookup_row_Some in Hj as Hj'. destruct Hj' as [_ Hid]. rewrite Hid.
    case_decide as Hi.
    + subst i. by rewrite lookup_row_update_eq.
    + by rewrite lookup_row_update_ne.
  - unfold mark_included. rewrite (get_job_related_None _ _ Hok Hj). cbn [snd].
    case_decide as Hi; [|done]. subst i. by rewrite Hj.
Qed.

(** What a call does to a job row that is there before the call. *)
Lemma job_step c db i j :
  store_ok db -> get_job i db = Some j ->
  exists j', get_job i (step c db) = Some j' /\ job_change c j j'.
Proof.
  intros Hok Hj. pose proof Hj as Hj'. apply (get_job_elem db i j Hok) in Hj' as [Hin Hid].
  destruct c as [now a|now n|now n|now job_id tx]; cbn [step].
  - exists j. split; [by apply queue_operation_job_frame | by left].
  - rewrite dispatch_batch_job by done.
    destruct (lookup_row joined_id i (queued_jobs n db)) as [x|] eqn:E.
    + destruct (queued_jobs_spec n db Hok) as (_ & Hsel & _).
      apply lookup_row_Some in E as [Hx Hxi]. destruct (Hsel x Hx) as [Hel Hjoin].
      destruct (joined_row db x Hok Hjoin) as (_ & Hgx & _).
      rewrite Hxi, Hj in Hgx. injection Hgx as Hgx.
      eexists. split; [done|]. right. rewrite <- Hgx in *. done.
    + exists j. split; [done | by left].
  - rewrite reconcile_inflight_job by done.
    destruct (lookup_row joined_id i (inflight now n db)) as [x|] eqn:E.
    + destruct (inflight_spec now n db Hok) as (_ & Hsel & _).
      apply lookup_row_Some in E as [Hx Hxi]. destruct (Hsel x Hx) as [Hst Hjoin].
      destruct (joined_row db x Hok Hjoin) as (_ & Hgx & _).
      rewrite Hxi, Hj in Hgx. injection Hgx as Hgx.
      eexists. split; [done|]. right.
      unfold reconciled_job, exhausted, failed_job. rewrite <- Hgx in *. split; [done|].
      case_decide; [right | left]; split; try done; lia.
    + exists j. split; [done | by left].
  - rewrite mark_included_job, Hj by done. case_decide.
    + eexists. split; [done|]. right. split; [congruence | done].
    + exists j. split; [done | by left].
Qed.

(** A job row that appears during a call is the row [queue_operation]
    inserts. *)
Lemma job_step_new c db i j' :
  store_ok db -> get_job i db = None -> get_job i (step c db) = Some j' ->
  exists now a operation,
    c = QueueOperation now a /\ i = BundlerJob.id j' /\
    j' = initial_job now (BundlerJob.id j') operation (endpoint a).
Proof.
  intros Hok Hn Hj'.
  destruct c as [now a|now n|now n|now job_id tx]; cbn [step] in Hj'.
  - exists now, a.
    assert (exists u operation,
              jobs (queue_operation now a db).2
              = jobs db ++ [initial_job now u operation (endpoint a)]) as (u & op & Hjobs).
    { destruct (get_operation_by_hash (user_op_hash a) db) as [o|] eqn:E.
      - rewrite (queue_operation_found _ _ _ _ E). by eexists _, _.
      - rewrite (queue_operation_fresh _ _ _ E). by eexists _, _. }
    unfold get_job in *. rewrite Hjobs, lookup_row_app, Hn in Hj'.
    apply lookup_row_Some in Hj' as [Hin Hid].
    apply list_elem_of_singleton in Hin. subst j'. simpl in Hid. subst i.
    exists op. done.
  - rewrite dispatch_batch_job in Hj' by done.
    destruct (lookup_row joined_id i (queued_jobs n db)) as [x|] eqn:E; [|congruence].
    destruct (queued_jobs_spec n db Hok) as (_ & Hsel & _).
    apply lookup_row_Some in E as [Hx Hxi]. destruct (Hsel x Hx) as [_ Hjoin].
    destruct (joined_row db x Hok Hjoin) as (_ & Hgx & _). rewrite Hxi in Hgx. congruence.
  - rewrite reconcile_inflight_job in Hj' by done.
    destruct (lookup_row joined_id i (inflight now n db)) as [x|] eqn:E; [|congruence].
    destruct (inflight_spec now n db Hok) as (_ & Hsel & _).
    apply lookup_row_Some in E as [Hx Hxi]. destruct (Hsel x Hx) as [_ Hjoin].
    destruct (joined_row db x Hok Hjoin) as (_ & Hgx & _). rewrite Hxi in Hgx. congruence.
  - rewrite mark_included_job, Hn in Hj' by done. by case_decide.
Qed.

(** ** The life of a job *)

Lemma job_change_well_formed c j j' :
  job_well_formed j -> job_change c j j' -> job_well_formed j'.
Proof.
  intros Hwf [->|Hc]; [done|].
  destruct c as [now a|now n|now n|now job_id tx].
  - done.
  - destruct Hc as [Hel ->]. unfold job_well_formed, eligible in *. cbn.
    destruct Hel as [Hs|Hs]; rewrite Hs in Hwf; destruct Hwf as (? & ? & ?);
      split_and!; try done; lia.
  - destruct Hc as [[Hs Hlast] [[Hlt ->]|[Hge ->]]]; unfold job_well_formed in *;
      rewrite Hs in Hwf; destruct Hwf as (? & ? & Herr); cbn.
    + split_and!; try done; lia.
    + split_and!; try done; [lia|]. unfold failure_reason_of. by rewrite Herr.
  - destruct Hc as [_ ->]. unfold job_well_formed in *. cbn.
    destruct (BundlerJob.status j); split; try done; lia.
Qed.

Lemma job_well_formed_run cs : forall i j,
  get_job i (run cs empty_store) = Some j -> job_well_formed j.
Proof.
  induction cs as [|c cs IH] using rev_ind; intros i j Hj; [done|].
  rewrite run_snoc in Hj.
  assert (store_ok (run cs empty_store)) as Hok by apply store_ok_run, store_ok_empty.
  destruct (get_job i (run cs empty_store)) as [j0|] eqn:E.
  - destruct (job_step c _ i j0 Hok E) as (j' & Hj' & Hc).
    rewrite Hj in Hj'. injection Hj' as <-.
    eapply job_change_well_formed; [by eapply IH | done].
  - destruct (job_step_new c _ i j Hok E Hj) as (now & a & op & _ & _ & ->). done.
Qed.

(** X1: every gateway call keeps the integrity constraints of the schema
    (unique primary keys, unique [user_op_hash], resolving foreign keys, keys
    handed out by [uuid4]), and so does every run of calls. *)
Theorem integrity_kept cs db :
  store_ok db ->
  store_ok (run cs db) /\ forall c, store_ok (step c (run cs db)).
Proof.
  intros Hok. split; [by apply store_ok_run|].
  intros c. by apply store_ok_step, store_ok_run.
Qed.

Lemma integrity_kept_witness :
  store_ok empty_store /\ store_ok (run example_third_attempt_calls empty_store).
Proof.
  assert (store_ok empty_store) as Hok by (apply (bool_decide_unpack _); vm_compute; exact I).
  split; [exact Hok|].
  exact (proj1 (integrity_kept example_third_attempt_calls empty_store Hok)).
Defined.

(** X2: one gateway call never deletes a job and never rewrites its id,
    operation, endpoint, priority, [enqueued_at] or metadata; and the status
    of a job only moves along the edges of the job state machine: to
    [DISPATCHING] from [QUEUED] or [RETRYING] and only by [dispatch_batch],
    to [RETRYING] or [FAILED] from [DISPATCHING] and only by
    [reconcile_inflight] (by [attempt_count] below 3 or not), to [SUCCEEDED]
    only by [mark_included] for that job. *)
Theorem job_transitions c db i j :
  store_ok db -> get_job i db = Some j ->
  exists j',
    get_job i (step c db) = Some j' /\
    job_fixed_columns j' = job_fixed_columns j /\
    (BundlerJob.status j' = BundlerJob.status j \/
     (BundlerJob.status j' = BundlerJob.DISPATCHING /\
      (BundlerJob.status j = BundlerJob.QUEUED \/
       BundlerJob.status j = BundlerJob.RETRYING) /\
      exists now n, c = DispatchBatch now n) \/
     (BundlerJob.status j' = BundlerJob.RETRYING /\
      BundlerJob.status j = BundlerJob.DISPATCHING /\
      BundlerJob.attempt_count j < 3 /\
      exists now n, c = ReconcileInflight now n) \/
     (BundlerJob.status j' = BundlerJob.FAILED /\
      BundlerJob.status j = BundlerJob.DISPATCHING /\
      3 <= BundlerJob.attempt_count j /\
      exists now n, c = ReconcileInflight now n) \/
     (BundlerJob.status j' = BundlerJob.SUCCEEDED /\
      exists now tx, c = MarkIncluded now i tx)).
Proof.
  intros Hok Hj. destruct (job_step c db i j Hok Hj) as (j' & Hj' & Hc).
  exists j'. split; [done|].
  destruct Hc as [->|Hc]; [split; [done | by left]|].
  destruct c as [now a|now n|now n|now job_id tx].
  - done.
  - destruct Hc as [Hel ->]. split; [done|]. right; left. split_and!; eauto.
  - destruct Hc as [[Hs _] [[Hlt ->]|[Hge ->]]]; (split; [done|]).
    + right; right; left. split_and!; eauto.
    + right; right; right; left. split_and!; eauto.
  - destruct Hc as [Hid ->]. split; [done|]. do 4 right. split; [done|].
    apply lookup_row_Some in Hj as [_ Hi]. rewrite Hid in Hi. subst. eauto.
Qed.

Lemma job_transitions_witness :
  store_ok example_queued /\
  get_job 1 example_queued = Some example_queued_row.1 /\
  exists j',
    get_job 1 (step (DispatchBatch (seconds 2) 5) example_queued) = Some j' /\
    job_fixed_columns j' = job_fixed_columns example_queued_row.1.
Proof.
  assert (store_ok example_queued) as Hok
    by (apply (bool_decide_unpack _); vm_compute; exact I).
  assert (get_job 1 example_queued = Some example_queued_row.1) as Hj
    by (vm_compute; reflexivity).
  split; [exact Hok|]. split; [exact Hj|].
  destruct (job_transitions (DispatchBatch (seconds 2) 5) example_queued 1
              example_queued_row.1 Hok Hj) as (j' & Hj' & Hfix & _).
  exists j'. split; [exact Hj' | exact Hfix].
Defined.

(** X3: [attempt_count] never decreases.  One call leaves it as it is or,
    when [dispatch_batch] claims the job, adds exactly one; over any run of
    calls it can only grow. *)
Theorem attempt_count_monotone db i j :
  store_ok db -> get_job i db = Some j ->
  (forall c, exists j',
     get_job i (step c db) = Some j' /\
     (BundlerJob.attempt_count j' = BundlerJob.attempt_count j \/
      (exists now n, c = DispatchBatch now n) /\ eligible j /\
      BundlerJob.status j' = BundlerJob.DISPATCHING /\
      BundlerJob.attempt_count j' = BundlerJob.attempt_count j + 1)) /\
  (forall cs, exists j',
     get_job i (run cs db) = Some j' /\
     BundlerJob.attempt_count j <= BundlerJob.attempt_count j').
Proof.
  intros Hok Hj.
  assert (forall db c j, store_ok db -> get_job i db = Some j ->
            exists j', get_job i (step c db) = Some j' /\
              (BundlerJob.attempt_count j' = BundlerJob.attempt_count j \/
               (exists now n, c = DispatchBatch now n) /\ eligible j /\
               BundlerJob.status j' = BundlerJob.DISPATCHING /\
               BundlerJob.attempt_count j' = BundlerJob.attempt_count j + 1)) as Hstep.
  { clear. intros db c j Hok Hj. destruct (job_step c db i j Hok Hj) as (j' & Hj' & Hc).
    exists j'. split; [done|].
    destruct Hc as [->|Hc]; [by left|].
    destruct c as [now a|now n|now n|now job_id tx].
    - done.
    - destruct Hc as [Hel ->]. right. split_and!; eauto.
    - destruct Hc as [_ [[_ ->]|[_ ->]]]; by left.
    - destruct Hc as [_ ->]. by left. }
  split; [intros c; by apply Hstep|].
  intros cs. revert db j Hok Hj. induction cs as [|c cs IH]; intros db j Hok Hj.
  - exists j. split; [done | lia].
  - destruct (Hstep db c j Hok Hj) as (j1 & Hj1 & Hc).
    destruct (IH (step c db) j1 (store_ok_step c db Hok) Hj1) as (j' & Hj' & Hle).
    exists j'. split; [done|]. destruct Hc as [?|(_ & _ & _ & ?)]; lia.
Qed.

Lemma attempt_count_monotone_witness :
  store_ok example_queued /\
  get_job 1 example_queued = Some example_queued_row.1 /\
  exists j', get_job 1 (run [DispatchBatch (seconds 2) 5] example_queued) = Some j' /\
             BundlerJob.attempt_count example_queued_row.1 <= BundlerJob.attempt_count j'.
Proof.
  assert (store_ok example_queued) as Hok
    by (apply (bool_decide_unpack _); vm_compute; exact I).
  assert (get_job 1 example_queued = Some example_queued_row.1) as Hj
    by (vm_compute; reflexivity).
  split; [exact Hok|]. split; [exact Hj|].
  exact (proj2 (attempt_count_monotone example_queued 1 example_queued_row.1 Hok Hj)
           [DispatchBatch (seconds 2) 5]).
Defined.

(** X4: the retry bound.  In every database the gateway can build from the
    empty one, no job has been attempted more than three times; a [QUEUED]
    job was never attempted, a [RETRYING] job once or twice, a [DISPATCHING]
    job at least once, and a [FAILED] job exactly three times. *)
Theorem attempts_bounded db i j :
  reachable db -> get_job i db = Some j ->
  BundlerJob.attempt_count j <= 3 /\
  (BundlerJob.status j = BundlerJob.QUEUED -> BundlerJob.attempt_count j = 0) /\
  (BundlerJob.status j = BundlerJob.RETRYING -> 1 <= BundlerJob.attempt_count j <= 2) /\
  (BundlerJob.status j = BundlerJob.DISPATCHING -> 1 <= BundlerJob.attempt_count j) /\
  (BundlerJob.status j = BundlerJob.FAILED -> BundlerJob.attempt_count j = 3).
Proof.
  intros [cs ->] Hj. pose proof (job_well_formed_run cs i j Hj) as Hwf.
  unfold job_well_formed in Hwf.
  destruct (BundlerJob.status j); split_and!; intros; try done; lia.
Qed.

Lemma attempts_bounded_witness :
  reachable example_third_attempt /\
  get_job 1 example_third_attempt = Some example_third_attempt_row.1 /\
  BundlerJob.attempt_count example_third_attempt_row.1 <= 3.
Proof.
  assert (reachable example_third_attempt) as Hr
    by (exists example_third_attempt_calls; reflexivity).
  assert (get_job 1 example_third_attempt = Some example_third_attempt_row.1) as Hj
    by (vm_compute; reflexivity).
  split; [exact Hr|]. split; [exact Hj|].
  exact (proj1 (attempts_bounded example_third_attempt 1 example_third_attempt_row.1 Hr Hj)).
Defined.

(** X5: in every database the gateway can build from the empty one, the
    [last_error] of a [FAILED] job is ['Dispatch attempts exceeded'] and the
    [last_error] of every other job is empty; and a job that is
    [DISPATCHING], [RETRYING] or [FAILED] has its [last_attempt_at] set, so
    the staleness test of [reconcile_inflight] never meets a NULL. *)
Theorem last_error_of_job db i j :
  reachable db -> get_job i db = Some j ->
  BundlerJob.last_error j =
    (if decide (BundlerJob.status j = BundlerJob.FAILED) then attempts_exceeded else "") /\
  (BundlerJob.status j = BundlerJob.DISPATCHING \/
   BundlerJob.status j = BundlerJob.RETRYING \/
   BundlerJob.status j = BundlerJob.FAILED ->
   is_Some (BundlerJob.last_attempt_at j)).
Proof.
  intros [cs ->] Hj. pose proof (job_well_formed_run cs i j Hj) as Hwf.
  unfold job_well_formed in Hwf.
  destruct (BundlerJob.status j); cbn; split; try tauto; intros [?|[?|?]]; try done; tauto.
Qed.

Lemma last_error_of_job_witness :
  reachable example_third_attempt /\
  get_job 1 example_third_attempt = Some example_third_attempt_row.1 /\
  BundlerJob.last_error example_third_attempt_row.1 = "".
Proof.
  assert (reachable example_third_attempt) as Hr
    by (exists example_third_attempt_calls; reflexivity).
  assert (get_job 1 example_third_attempt = Some example_third_attempt_row.1) as Hj
    by (vm_compute; reflexivity).
  split; [exact Hr|]. split; [exact Hj|].
  exact (proj1 (last_error_of_job example_third_attempt 1 example_third_attempt_row.1 Hr Hj)).
Defined.

(** ** Properties of every operation row *)

Lemma Forall_update_rows {A} (P : A -> Prop) (key : A -> uuid) i f l :
  (forall r, P r -> P (f r)) -> Forall P l -> Forall P (update_rows key i f l).
Proof.
  intros Hf Hl. unfold update_rows. apply Forall_fmap.
  eapply Forall_impl; [exact Hl|]. intros r Hr. simpl. case_bool_decide; auto.
Qed.

Section operation_rows.
Context (P : UserOperation.t -> Prop) (Q : BundlerJob.t -> Prop).
Context (P_status : forall now st o,
  UserOperation.terminal st = false ->
  P o -> P (UserOperation.set_updated_at now (UserOperation.set_status st o))).
Context (P_reset : forall now o, P o -> P (requeued_operation now o)).
Context (P_failed : forall now j o,
  Q j -> P o -> P (failed_operation now (failure_reason_of j) o)).
Context (P_included : forall now m o,
  P o ->
  P (UserOperation.set_status UserOperation.INCLUDED
       (UserOperation.set_metadata m
          (UserOperation.set_completed_at (Some now)
             (UserOperation.set_updated_at now o))))).
Context (P_new : forall o,
  UserOperation.status o = UserOperation.QUEUED ->
  UserOperation.failure_reason o = "" ->
  UserOperation.completed_at o = None -> P o).

Lemma operation_rows_dispatch_loop now l : forall claimed db,
  Forall P (operations db) -> Forall P (operations (dispatch_loop now l claimed db).2).
Proof.
  induction l as [|x l IH]; intros claimed db H; [done|].
  cbn [dispatch_loop]. rewrite dispatch_job_eq. apply IH. cbn [operations].
  apply Forall_update_rows; [|done]. intros r Hr.
  rewrite dispatched_operation_row. by apply P_status.
Qed.

Lemma operation_rows_reconcile_loop now l : forall c db,
  Forall (fun x : joined => Q x.1) l ->
  Forall P (operations db) -> Forall P (operations (reconcile_loop now l c db).2).
Proof.
  induction l as [|x l IH]; intros c db HQ H; [done|].
  apply Forall_cons in HQ as [Hx HQ].
  cbn [reconcile_loop]. rewrite reconcile_job_eq. apply IH; [done|]. cbn [operations].
  apply Forall_update_rows; [|done]. intros r Hr.
  unfold reconciled_operation. case_decide; [by apply P_failed | by apply P_status].
Qed.

Lemma operation_rows_step c db :
  store_ok db ->
  (forall i j, get_job i db = Some j ->
     BundlerJob.status j = BundlerJob.DISPATCHING -> Q j) ->
  Forall P (operations db) -> Forall P (operations (step c db)).
Proof.
  intros Hok HQ H. destruct c as [now a|now n|now n|now job_id tx]; cbn [step].
  - destruct (get_operation_by_hash (user_op_hash a) db) as [o|] eqn:E.
    + rewrite (queue_operation_found _ _ _ _ E). cbv zeta. cbn [snd operations].
      case_decide; [|done]. cbn [snd save_operation set_operations operations].
      apply Forall_update_rows; [|done]. intros r Hr.
      rewrite operation_reset_row. by apply P_reset.
    + rewrite (queue_operation_fresh _ _ _ E). cbv zeta. cbn [snd operations].
      apply Forall_app. split; [done|]. apply Forall_singleton. by apply P_new.
  - rewrite dispatch_batch_eq. cbv zeta. cbn [snd]. by apply operation_rows_dispatch_loop.
  - rewrite reconcile_inflight_eq. cbv zeta. cbn [snd].
    apply operation_rows_reconcile_loop; [|done]. apply Forall_forall. intros x Hx.
    destruct (inflight_spec now n db Hok) as (_ & Hsel & _).
    destruct (Hsel x Hx) as [[Hst _] Hjoin].
    destruct (joined_row db x Hok Hjoin) as (_ & Hg & _). by eapply HQ.
  - destruct (get_job job_id db) as [job|] eqn:Hj.
    + destruct (get_job_related_Some _ _ _ Hok Hj) as (op & Hop & Hrel).
      rewrite (mark_included_found _ _ _ _ _ _ Hrel). cbn [snd operations].
      apply Forall_update_rows; [|done]. intros r Hr. by apply P_included.
    + unfold mark_included. by rewrite (get_job_related_None _ _ Hok Hj).
Qed.

Context (Q_run : forall cs i j,
  get_job i (run cs empty_store) = Some j ->
  BundlerJob.status j = BundlerJob.DISPATCHING -> Q j).

Lemma operation_rows_run cs : Forall P (operations (run cs empty_store)).
Proof.
  induction cs as [|c cs IH] using rev_ind; [by constructor|].
  rewrite run_snoc. apply operation_rows_step; [| |done].
  - apply store_ok_run, store_ok_empty.
  - apply Q_run.
Qed.

End operation_rows.

Lemma failure_reason_of_well_formed j :
  job_well_formed j -> BundlerJob.status j = BundlerJob.DISPATCHING ->
  failure_reason_of j = attempts_exceeded.
Proof.
  unfold job_well_formed. intros H Hs. rewrite Hs in H. destruct H as (_ & _ & He).
  unfold failure_reason_of. by rewrite He.
Qed.

(** X6: in every database the gateway can build from the empty one, an
    operation whose status is terminal has its [completed_at] set; a [FAILED]
    operation has a non-empty failure reason, and the only failure reason
    the gateway ever stores is ['Dispatch attempts exceeded']; and no
    operation is [DROPPED]. *)
Theorem terminal_operation_completed db i o :
  reachable db -> get_operation i db = Some o ->
  (UserOperation.terminal (UserOperation.status o) = true ->
   is_Some (UserOperation.completed_at o)) /\
  (UserOperation.status o = UserOperation.FAILED ->
   UserOperation.failure_reason o = attempts_exceeded) /\
  (UserOperation.failure_reason o = "" \/
   UserOperation.failure_reason o = attempts_exceeded) /\
  UserOperation.status o <> UserOperation.DROPPED.
Proof.
  intros [cs ->] Ho. apply lookup_row_Some in Ho as [Hin _].
  revert o Hin. apply Forall_forall.
  apply (operation_rows_run
           (fun o =>
              (UserOperation.terminal (UserOperation.status o) = true ->
               is_Some (UserOperation.completed_at o)) /\
              (UserOperation.status o = UserOperation.FAILED ->
               UserOperation.failure_reason o = attempts_exceeded) /\
              (UserOperation.failure_reason o = "" \/
               UserOperation.failure_reason o = attempts_exceeded) /\
              UserOperation.status o <> UserOperation.DROPPED)
           (fun j => failure_reason_of j = attempts_exceeded)).
  - intros now st o Hst (_ & _ & Hr & _). cbn. split_and!; try done.
    + intros Ht. congruence.
    + intros ->. done.
    + intros ->. done.
  - intros now o (_ & _ & _ & _). cbn. split_and!; try done. by left.
  - intros now j o Hj (_ & _ & _ & _). cbn. rewrite Hj. split_and!; try done.
    by right.
  - intros now m o (_ & _ & Hr & _). cbn. split_and!; done.
  - intros o Hs Hf Hc. rewrite Hs, Hf. split_and!; try done. by left.
  - intros cs' i' j Hj Hs. apply failure_reason_of_well_formed; [|done].
    by eapply job_well_formed_run.
Qed.

Lemma terminal_operation_completed_witness :
  reachable example_included /\
  get_operation 0 example_included
    = Some (included_operation (seconds 3) example_tx example_dispatched_row.2) /\
  (UserOperation.terminal
     (UserOperation.status
        (included_operation (seconds 3) example_tx example_dispatched_row.2)) = true ->
   is_Some (UserOperation.completed_at
              (included_operation (seconds 3) example_tx example_dispatched_row.2))).
Proof.
  assert (reachable example_included) as Hr by (exists example_included_calls; reflexivity).
  assert (get_operation 0 example_included
          = Some (included_operation (seconds 3) example_tx example_dispatched_row.2)) as Ho
    by (vm_compute; reflexivity).
  split; [exact Hr|]. split; [exact Ho|].
  exact (proj1 (terminal_operation_completed example_included 0 _ Hr Ho)).
Defined.

(** ** The event log *)

Lemma Forall_imap {A B} (P : B -> Prop) (f : nat -> A -> B) (l : list A) :
  (forall k x, x ∈ l -> P (f k x)) -> Forall P (imap f l).
Proof.
  revert f. induction l as [|x l IH]; intros f H; [by constructor|].
  simpl. constructor; [apply H; by left|]. apply IH. intros k y Hy. apply H. by right.
Qed.

Lemma events_step c db :
  store_ok db ->
  exists new,
    events (step c db) = events db ++ new /\
    length new = events_appended c db /\
    Forall (fun e => UserOperationEvent.event_type e ∈ event_types c /\
                     UserOperationEvent.created_at e = call_time c /\
                     uuid_next db <= UserOperationEvent.id e) new.
Proof.
  intros Hok. destruct c as [now a|now n|now n|now job_id tx]; cbn [step].
  - destruct (get_operation_by_hash (user_op_hash a) db) as [o|] eqn:E.
    + rewrite (queue_operation_found _ _ _ _ E). eexists. split; [done|]. split; [done|].
      apply Forall_singleton. cbn. split_and!; [by left | done | lia].
    + rewrite (queue_operation_fresh _ _ _ E). eexists. split; [done|]. split; [done|].
      apply Forall_singleton. cbn. split_and!; [by left | done | lia].
  - destruct (queued_jobs_spec n db Hok) as (_ & _ & _ & _ & Hnd & _).
    destruct (dispatch_loop_spec now (queued_jobs n db) [] db Hnd) as (_ & _ & L3 & _).
    rewrite dispatch_batch_eq. cbv zeta. cbn [snd]. rewrite L3.
    eexists. split; [done|]. split; [by rewrite length_imap|].
    apply Forall_imap. intros k x _. cbn. split_and!; [by left | done | lia].
  - rewrite reconcile_inflight_events by done.
    eexists. split; [done|]. split; [by rewrite length_imap|].
    apply Forall_imap. intros k x _. unfold reconcile_event.
    case_decide; cbn; (split_and!; [|done|lia]).
    + right. by left.
    + by left.
  - cbn [events_appended]. destruct (get_job job_id db) as [job|] eqn:Hj.
    + destruct (get_job_related_Some _ _ _ Hok Hj) as (op & Hop & Hrel).
      rewrite (mark_included_found _ _ _ _ _ _ Hrel). cbn [snd events].
      eexists. split; [done|]. split; [done|].
      apply Forall_singleton. cbn. split_and!; [by left | done | lia].
    + unfold mark_included. rewrite (get_job_related_None _ _ Hok Hj). cbn [snd].
      exists []. by rewrite app_nil_r.
Qed.

(** X7: the event log is append-only.  A gateway call leaves every event
    that is there as it is and appends, at the end, one event for
    [queue_operation], one per claimed job for [dispatch_batch], one per
    examined job for [reconcile_inflight], and one for [mark_included] when
    the job exists (none when it does not); each new event has a type that
    belongs to the call and the call's time as [created_at].  So after any
    run of calls the old log is a prefix of the new one. *)
Theorem events_append_only db :
  store_ok db ->
  (forall c, exists new,
     events (step c db) = events db ++ new /\
     length new = events_appended c db /\
     Forall (fun e => UserOperationEvent.event_type e ∈ event_types c /\
                      UserOperationEvent.created_at e = call_time c) new) /\
  (forall cs, events db `prefix_of` events (run cs db)).
Proof.
  intros Hok. split.
  - intros c. destruct (events_step c db Hok) as (new & H1 & H2 & H3).
    exists new. split_and!; try done. eapply Forall_impl; [exact H3|].
    by intros e (? & ? & ?).
  - intros cs. revert db Hok. induction cs as [|c cs IH]; intros db Hok; [done|].
    simpl. destruct (events_step c db Hok) as (new & H1 & _).
    etrans; [|apply IH, store_ok_step, Hok]. rewrite H1. by apply prefix_app_r.
Qed.

Lemma events_append_only_witness :
  store_ok example_queued /\
  events example_queued `prefix_of`
    events (run [DispatchBatch (seconds 2) 5; MarkIncluded (seconds 3) 1 example_tx]
              example_queued).
Proof.
  assert (store_ok example_queued) as Hok
    by (apply (bool_decide_unpack _); vm_compute; exact I).
  split; [exact Hok|].
  exact (proj2 (events_append_only example_queued Hok)
           [DispatchBatch (seconds 2) 5; MarkIncluded (seconds 3) 1 example_tx]).
Defined.

(** ** Calls in sequence *)

Lemma queued_jobs_all n db x :
  store_ok db -> length (filter eligible (jobs db)) <= n ->
  x ∈ select_related db (jobs db) -> eligible x.1 -> x ∈ queued_jobs n db.
Proof.
  intros Hok Hn Hx Hel. unfold queued_jobs, query.
  rewrite take_ge.
  - rewrite merge_sort_Permutation. by apply list_elem_of_filter.
  - rewrite (Permutation_length (merge_sort_Permutation _ _)).
    by rewrite (filter_joined_length db eligible).
Qed.

(** X8: two [dispatch_batch] calls, one after the other, never claim the
    same job: every job the second call claims was eligible before the
    first call and was not claimed by it.  When the first call asks for at
    least as many jobs as are eligible, it claims them all, and the second
    call claims nothing and leaves the database as it is. *)
Theorem dispatch_batch_twice now1 n1 now2 n2 db :
  store_ok db ->
  let first := dispatch_batch now1 n1 db in
  let second := dispatch_batch now2 n2 first.2 in
  (forall x, x ∈ queued_jobs n2 first.2 ->
     (joined_id x ∉ joined_id <$> queued_jobs n1 db) /\
     get_job (joined_id x) db = Some x.1 /\ eligible x.1) /\
  (length (filter eligible (jobs db)) <= n1 ->
   length (queued_jobs n1 db) = length (filter eligible (jobs db)) /\
   queued_jobs n2 first.2 = [] /\
   second.2 = first.2).
Proof.
  intros Hok first second.
  assert (store_ok first.2) as Hok1
    by (eapply store_ok_same_keys; [apply same_keys_dispatch_batch | done]).
  assert (forall x, x ∈ queued_jobs n2 first.2 ->
            (joined_id x ∉ joined_id <$> queued_jobs n1 db) /\
            get_job (joined_id x) db = Some x.1 /\ eligible x.1) as Hsecond.
  { intros x Hx.
    destruct (queued_jobs_spec n2 first.2 Hok1) as (_ & Hsel2 & _).
    destruct (Hsel2 x Hx) as [Hel Hjoin].
    destruct (joined_row first.2 x Hok1 Hjoin) as (_ & Hg & _).
    unfold first in Hg. rewrite dispatch_batch_job in Hg by done.
    destruct (lookup_row joined_id (joined_id x) (queued_jobs n1 db)) as [y|] eqn:E.
    - injection Hg as Hg. rewrite <- Hg in Hel. by destruct Hel.
    - apply lookup_row_None in E. done. }
  split; [done|]. intros Hn.
  assert (queued_jobs n2 first.2 = []) as Hnil.
  { destruct (queued_jobs n2 first.2) as [|x l] eqn:E; [done|]. exfalso.
    destruct (Hsecond x) as (Hnot & Hg & Hel); [by left|]. apply Hnot.
    apply (get_job_elem db _ _ Hok) in Hg as [Hin _].
    destruct (job_joined db x.1 Hok Hin) as [o Ho].
    apply (list_elem_of_fmap_2 joined_id) in Ho as Hid.
    change (joined_id (x.1, o)) with (joined_id x) in Hid.
    apply (list_elem_of_fmap_2 joined_id (queued_jobs n1 db) (x.1, o)).
    by apply queued_jobs_all. }
  split_and!; [|done|].
  - destruct (queued_jobs_spec n1 db Hok) as (Hlen & _). rewrite Hlen. lia.
  - unfold second. rewrite dispatch_batch_eq. cbv zeta. by rewrite Hnil.
Qed.

Lemma dispatch_batch_twice_witness :
  store_ok example_queued /\
  (length (filter eligible (jobs example_queued)) <= 5 ->
   length (queued_jobs 5 example_queued) = length (filter eligible (jobs example_queued)) /\
   queued_jobs 5 (dispatch_batch (seconds 2) 5 example_queued).2 = [] /\
   (dispatch_batch (seconds 3) 5 (dispatch_batch (seconds 2) 5 example_queued).2).2
   = (dispatch_batch (seconds 2) 5 example_queued).2).
Proof.
  assert (store_ok example_queued) as Hok
    by (apply (bool_decide_unpack _); vm_compute; exact I).
  split; [exact Hok|].
  exact (proj2 (dispatch_batch_twice (seconds 2) 5 (seconds 3) 5 example_queued Hok)).
Defined.

(** X9: a job that [dispatch_batch] claimed at some time is not examined by
    a [reconcile_inflight] that runs at most five minutes later. *)
Theorem fresh_dispatch_not_stale now n now' limit db x :
  store_ok db ->
  (now' <= now + minutes 5)%Z ->
  x ∈ queued_jobs n db ->
  (joined_id x ∉ joined_id <$> inflight now' limit (dispatch_batch now n db).2) /\
  get_job (joined_id x) (reconcile_inflight now' limit (dispatch_batch now n db).2).2
    = Some (claimed_job now x.1).
Proof.
  intros Hok Hle Hx.
  assert (store_ok (dispatch_batch now n db).2) as Hok1
    by (eapply store_ok_same_keys; [apply same_keys_dispatch_batch | done]).
  destruct (queued_jobs_spec n db Hok) as (_ & _ & _ & _ & Hnd & _).
  assert (get_job (joined_id x) (dispatch_batch now n db).2 = Some (claimed_job now x.1)) as Hg.
  { rewrite dispatch_batch_job by done. by rewrite (lookup_row_NoDup joined_id _ x Hnd). }
  assert (joined_id x ∉ joined_id <$> inflight now' limit (dispatch_batch now n db).2) as Hnot.
  { intros Hin. apply list_elem_of_fmap in Hin as (y & Hid & Hy).
    destruct (inflight_spec now' limit _ Hok1) as (_ & Hsel & _).
    destruct (Hsel y Hy) as [[_ Hlast] Hjoin].
    destruct (joined_row _ y Hok1 Hjoin) as (_ & Hgy & _).
    rewrite <- Hid, Hg in Hgy. injection Hgy as Hgy. rewrite <- Hgy in Hlast.
    cbn in Hlast. lia. }
  split; [done|].
  rewrite reconcile_inflight_job by done.
  apply lookup_row_None in Hnot. by rewrite Hnot.
Qed.

Lemma fresh_dispatch_not_stale_witness :
  store_ok example_queued /\
  (seconds 200 <= seconds 2 + minutes 5)%Z /\
  example_queued_row ∈ queued_jobs 5 example_queued /\
  joined_id example_queued_row
    ∉ (joined_id <$>
       inflight (seconds 200) 50 (dispatch_batch (seconds 2) 5 example_queued).2).
Proof.
  assert (store_ok example_queued) as Hok
    by (apply (bool_decide_unpack _); vm_compute; exact I).
  assert ((seconds 200 <= seconds 2 + minutes 5)%Z) as Hle by (vm_compute; discriminate).
  assert (example_queued_row ∈ queued_jobs 5 example_queued) as Hx.
  { replace (queued_jobs 5 example_queued) with [example_queued_row]
      by (vm_compute; reflexivity). by left. }
  split; [exact Hok|]. split; [exact Hle|]. split; [exact Hx|].
  exact (proj1 (fresh_dispatch_not_stale (seconds 2) 5 (seconds 200) 50 example_queued
                  example_queued_row Hok Hle Hx)).
Defined.

(** ** Objects and their rows *)

Lemma get_operation_by_hash_NoDup db o :
  store_ok db -> o ∈ operations db ->
  get_operation_by_hash (UserOperation.user_op_hash o) db = Some o.
Proof.
  intros (_ & Hnd & _). unfold get_operation_by_hash.
  induction (operations db) as [|x l IH]; csimpl in *; intros Hin.
  - by apply elem_of_nil in Hin.
  - apply NoDup_cons in Hnd as [Hx Hnd]. case_bool_decide as Hk.
    + apply elem_of_cons in Hin as [->|Hin]; [done|].
      exfalso. apply Hx. rewrite Hk. by apply list_elem_of_fmap_2.
    + apply elem_of_cons in Hin as [->|Hin]; [done | by apply IH].
Qed.

(** X10: what [queue_operation] returns is what it stored.  The operation
    object it returns is the row found under its id and under the hash, the
    job object is the row found under its id, the job refers to the
    operation and targets the given endpoint, and the returned operation is
    always [QUEUED] (so the API answers ["queued"]), whatever its status
    was before. *)
Theorem queue_operation_returns_rows now a db :
  store_ok db ->
  let r := queue_operation now a db in
  get_operation (UserOperation.id (user_operation r.1)) r.2 = Some (user_operation r.1) /\
  get_operation_by_hash (user_op_hash a) r.2 = Some (user_operation r.1) /\
  get_job (BundlerJob.id (bundler_job r.1)) r.2 = Some (bundler_job r.1) /\
  BundlerJob.user_operation (bundler_job r.1) = UserOperation.id (user_operation r.1) /\
  BundlerJob.target_endpoint (bundler_job r.1) = endpoint a /\
  UserOperation.user_op_hash (user_operation r.1) = user_op_hash a /\
  UserOperation.status (user_operation r.1) = UserOperation.QUEUED /\
  UserOperation.value (UserOperation.status (user_operation r.1)) = "queued".
Proof.
  intros Hok r.
  assert (store_ok r.2) as Hok' by by apply store_ok_queue_operation.
  assert (user_operation r.1 ∈ operations r.2 /\
          UserOperation.user_op_hash (user_operation r.1) = user_op_hash a /\
          UserOperation.status (user_operation r.1) = UserOperation.QUEUED /\
          bundler_job r.1 ∈ jobs r.2 /\
          BundlerJob.user_operation (bundler_job r.1) = UserOperation.id (user_operation r.1) /\
          BundlerJob.target_endpoint (bundler_job r.1) = endpoint a)
    as (Hin & Hh & Hs & Hj & Hfk & Hep).
  { subst r. destruct (get_operation_by_hash (user_op_hash a) db) as [o|] eqn:E.
    - pose proof (get_operation_by_hash_Some _ _ _ E) as [Ho Hh].
      destruct (decide (UserOperation.status o = UserOperation.QUEUED)) as [Hq|Hq].
      + rewrite (queue_operation_found _ _ _ _ E). cbv zeta.
        rewrite !decide_False by (intros ?; congruence).
        cbn [fst snd operations jobs user_operation bundler_job].
        split_and!; try done. apply elem_of_app. right. by left.
      + pose proof (queue_operation_own_hash now a db o Hok E Hq) as Hrow.
        apply lookup_row_Some in Hrow as [Hrow _]. revert Hrow.
        rewrite (queue_operation_found _ _ _ _ E). cbv zeta.
        rewrite !decide_True by done.
        cbn [fst snd operations jobs user_operation bundler_job]. intros Hrow.
        split_and!; try done. apply elem_of_app. right. by left.
    - rewrite (queue_operation_fresh _ _ _ E). cbv zeta.
      cbn [fst snd operations jobs user_operation bundler_job].
      split_and!; try done; apply elem_of_app; right; by left. }
  split_and!; try done.
  - by apply (get_operation_elem r.2 _ _ Hok').
  - rewrite <- Hh. by apply get_operation_by_hash_NoDup.
  - by apply (get_job_elem r.2 _ _ Hok').
  - by rewrite Hs.
Qed.

Lemma queue_operation_returns_rows_witness :
  store_ok example_included /\
  UserOperation.status
    (user_operation (queue_operation (seconds 4) example_args example_included).1)
  = UserOperation.QUEUED.
Proof.
  assert (store_ok example_included) as Hok
    by (apply (bool_decide_unpack _); vm_compute; exact I).
  split; [exact Hok|].
  destruct (queue_operation_returns_rows (seconds 4) example_args example_included Hok)
    as (_ & _ & _ & _ & _ & _ & H & _).
  exact H.
Defined.

(** ** [mark_status] and [touch_attempt] *)

Lemma of_value_value s : UserOperation.of_value (UserOperation.value s) = Some s.
Proof. by destruct s. Qed.

Lemma of_value_None v :
  v ∉ UserOperation.values -> UserOperation.of_value v = None.
Proof.
  unfold UserOperation.values, UserOperation.of_value, UserOperation.all. intros Hv.
  cbn [List.find].
  repeat (case_bool_decide as Hk;
          [exfalso; apply Hv; rewrite <- Hk; cbn; set_solver|]; clear Hk).
  done.
Qed.

(** X11: [mark_status] writes the object's status, failure reason and
    completion time over the row with the object's id and nothing else.  A
    status string that is one of the five values is stored as it is and any
    other string is stored as [FAILED]; a reason that is absent or empty
    leaves the failure reason the object had; [completed_at] becomes the
    clock's reading for a terminal status and stays the object's for the
    others; every other column of the row, every other row, the jobs and
    the events are left alone. *)
Theorem mark_status_spec now self status reason db row :
  get_operation (UserOperation.id self) db = Some row ->
  let valid := default UserOperation.FAILED (UserOperation.of_value status) in
  let r := mark_status now self status reason db in
  (forall s, status = UserOperation.value s -> valid = s) /\
  (status ∉ UserOperation.values -> valid = UserOperation.FAILED) /\
  (exists row',
     get_operation (UserOperation.id self) r.2 = Some row' /\
     UserOperation.status row' = valid /\
     UserOperation.failure_reason row' = given reason (UserOperation.failure_reason self) /\
     UserOperation.completed_at row' =
       (if UserOperation.terminal valid then Some now
        else UserOperation.completed_at self) /\
     UserOperation.updated_at row' = now /\
     fixed_columns row' = fixed_columns row) /\
  (forall i, i <> UserOperation.id self -> get_operation i r.2 = get_operation i db) /\
  jobs r.2 = jobs db /\ events r.2 = events db.
Proof.
  intros Hrow valid r. split_and!.
  - intros s ->. unfold valid. by rewrite of_value_value.
  - intros Hv. unfold valid. by rewrite of_value_None.
  - subst r. unfold mark_status. fold valid. unfold get_operation in *.
    cbn [snd fst save_operation set_operations operations].
    set (o := UserOperation.set_updated_at now _).
    assert (UserOperation.id o = UserOperation.id self /\
            UserOperation.status o = valid /\
            UserOperation.failure_reason o = given reason (UserOperation.failure_reason self) /\
            UserOperation.completed_at o =
              (if UserOperation.terminal valid then Some now
               else UserOperation.completed_at self) /\
            UserOperation.updated_at o = now) as (Hid & Hs & Hf & Hc & Hu).
    { subst o. unfold given.
      destruct reason as [r0|]; [case_decide|]; by destruct (UserOperation.terminal valid). }
    clearbody o.
    rewrite Hid, lookup_row_update_eq by (intros; apply operation_write_fields_id).
    rewrite Hrow. eexists. split; [done|]. cbn. by rewrite Hs, Hf, Hc, Hu.
  - intros i Hi. subst r. unfold mark_status. fold valid. unfold get_operation.
    cbn [snd fst save_operation set_operations operations].
    set (o := UserOperation.set_updated_at now _).
    assert (UserOperation.id o = UserOperation.id self) as Hid.
    { subst o. destruct reason as [r0|]; [case_decide|];
        by destruct (UserOperation.terminal valid). }
    rewrite Hid, lookup_row_update_ne; [done | intros; apply operation_write_fields_id | done].
  - done.
  - done.
Qed.

Lemma mark_status_spec_witness :
  get_operation (UserOperation.id example_dispatched_row.2) example_dispatched
    = Some example_dispatched_row.2 /\
  ("cancelled" ∉ UserOperation.values ->
   default UserOperation.FAILED (UserOperation.of_value "cancelled") = UserOperation.FAILED).
Proof.
  assert (get_operation (UserOperation.id example_dispatched_row.2) example_dispatched
          = Some example_dispatched_row.2) as H by (vm_compute; reflexivity).
  split; [exact H|].
  destruct (mark_status_spec (seconds 3) example_dispatched_row.2 "cancelled" None
              example_dispatched example_dispatched_row.2 H) as (_ & Hv & _).
  exact Hv.
Defined.

(** X12: [touch_attempt] counts one more attempt on the job object, stamps
    [last_attempt_at] with the clock's reading, replaces [last_error] only
    when an error is given and not empty, and writes those columns over the
    row with the object's id.  The status of the row is not written, nor
    any other column, nor any other row. *)
Theorem touch_attempt_spec now self error db row :
  get_job (BundlerJob.id self) db = Some row ->
  let r := touch_attempt now self error db in
  (exists row',
     get_job (BundlerJob.id self) r.2 = Some row' /\
     BundlerJob.attempt_count row' = BundlerJob.attempt_count self + 1 /\
     BundlerJob.last_attempt_at row' = Some now /\
     BundlerJob.last_error row' = given error (BundlerJob.last_error self) /\
     BundlerJob.updated_at row' = now /\
     BundlerJob.status row' = BundlerJob.status row /\
     job_fixed_columns row' = job_fixed_columns row) /\
  (forall i, i <> BundlerJob.id self -> get_job i r.2 = get_job i db) /\
  operations r.2 = operations db /\ events r.2 = events db.
Proof.
  intros Hrow r. subst r. unfold touch_attempt, get_job in *.
  cbn [snd fst save_job set_jobs jobs].
  set (o := BundlerJob.set_updated_at now _).
  assert (BundlerJob.id o = BundlerJob.id self /\
          BundlerJob.attempt_count o = BundlerJob.attempt_count self + 1 /\
          BundlerJob.last_attempt_at o = Some now /\
          BundlerJob.last_error o = given error (BundlerJob.last_error self) /\
          BundlerJob.updated_at o = now) as (Hid & Ha & Hl & He & Hu).
  { subst o. unfold given. destruct error as [e|]; [case_decide|]; done. }
  clearbody o. rewrite Hid. split_and!; try done.
  - rewrite lookup_row_update_eq by (intros; apply job_write_fields_id).
    rewrite Hrow. eexists. split; [done|]. cbn. by rewrite Ha, Hl, He, Hu.
  - intros i Hi.
    rewrite lookup_row_update_ne; [done | intros; apply job_write_fields_id | done].
Qed.

Lemma touch_attempt_spec_witness :
  get_job (BundlerJob.id example_dispatched_row.1) example_dispatched
    = Some example_dispatched_row.1 /\
  operations (touch_attempt (seconds 3) example_dispatched_row.1 (Some "timeout")
                example_dispatched).2
  = operations example_dispatched.
Proof.
  assert (get_job (BundlerJob.id example_dispatched_row.1) example_dispatched
          = Some example_dispatched_row.1) as H by (vm_compute; reflexivity).
  split; [exact H|].
  destruct (touch_attempt_spec (seconds 3) example_dispatched_row.1 (Some "timeout")
              example_dispatched example_dispatched_row.1 H) as (_ & _ & Ho & _).
  exact Ho.
Defined.

(** ** The request payload *)

Lemma hex_byte x :
  let n := Ascii.nat_of_ascii (Ascii.ascii_of_byte x) in
  is_space (hex_char (n / 16)) = false /\
  hex_digit_value (hex_char (n / 16)) = Some (n / 16) /\
  hex_digit_value (hex_char (n mod 16)) = Some (n mod 16) /\
  byte_of_digits (n / 16) (n mod 16) = x /\
  hex_char (n mod 16) <> Ascii.ascii_of_nat 120.
Proof. destruct x; vm_compute; done. Qed.

Lemma fromhex_cons x s :
  fromhex (hex [x] +:+ s) = cons x <$> fromhex s.
Proof.
  destruct (hex_byte x) as (H1 & H2 & H3 & H4 & _). cbn zeta in *.
  change (hex [x] +:+ s)
    with (String (hex_char (Ascii.nat_of_ascii (Ascii.ascii_of_byte x) / 16))
            (String (hex_char (Ascii.nat_of_ascii (Ascii.ascii_of_byte x) mod 16)) s)).
  change (fromhex (String ?c (String ?c' ?s'))) with
    (if is_space c then fromhex (String c' s')
     else match hex_digit_value c with
          | Some top =>
              match hex_digit_value c' with
              | Some bot => cons (byte_of_digits top bot) <$> fromhex s'
              | None => None
              end
          | None => None
          end).
  by rewrite H1, H2, H3, H4.
Qed.

Lemma hex_cons x b : hex (x :: b) = hex [x] +:+ hex b.
Proof. done. Qed.

Lemma append_assoc (s1 s2 s3 : string) : (s1 +:+ s2) +:+ s3 = s1 +:+ (s2 +:+ s3).
Proof.
  induction s1 as [|c s1 IH]; [done|].
  change (String c ((s1 +:+ s2) +:+ s3) = String c (s1 +:+ (s2 +:+ s3))).
  by rewrite IH.
Qed.

Lemma append_nil_r (s : string) : s +:+ "" = s.
Proof.
  induction s as [|c s IH]; [done|].
  change (String c (s +:+ "") = String c s). by rewrite IH.
Qed.

Lemma fromhex_hex_app b s : fromhex (hex b +:+ s) = (fun b' => b ++ b') <$> fromhex s.
Proof.
  induction b as [|x b IH].
  - change (hex [] +:+ s) with s. by destruct (fromhex s).
  - rewrite hex_cons, append_assoc, fromhex_cons, IH.
    by destruct (fromhex s).
Qed.

Lemma fromhex_hex b : fromhex (hex b) = Some b.
Proof.
  pose proof (fromhex_hex_app b "") as H. rewrite append_nil_r in H.
  rewrite H. simpl. by rewrite app_nil_r.
Qed.

Lemma hex_digit_not_space c : is_Some (hex_digit_value c) -> is_space c = false.
Proof.
  unfold hex_digit_value, is_space. intros [v Hv].
  apply bool_decide_eq_false. intros Hs.
  repeat case_bool_decide; try done; lia.
Qed.

Lemma strip_0x_prefixed s : strip_0x ("0x" +:+ s) = s.
Proof. by destruct s. Qed.

Lemma strip_0x_hex b : strip_0x (hex b) = hex b.
Proof.
  destruct b as [|x b]; [done|].
  unfold strip_0x. cbn [hex].
  destruct (hex_byte x) as (_ & _ & _ & _ & H). cbn zeta in H.
  cbn [String.prefix].
  destruct (Ascii.ascii_dec _ _); [|done].
  destruct (Ascii.ascii_dec _ _) as [E|]; [|done]. by destruct H.
Qed.

Lemma hex_nonempty b : b <> [] -> hex b <> "".
Proof. by destruct b. Qed.

Lemma fromhex_odd c : is_space c = false -> fromhex (String c "") = None.
Proof. intros H. cbn [fromhex]. rewrite H. by destruct (hex_digit_value c). Qed.

Lemma strip_0x_hex_app b s : b <> [] -> strip_0x (hex b +:+ s) = hex b +:+ s.
Proof.
  destruct b as [|x b]; [done|]. intros _.
  unfold strip_0x. cbn [hex].
  destruct (hex_byte x) as (_ & _ & _ & _ & H). cbn zeta in H.
  set (c2 := hex_char (_ mod 16)) in *. set (c1 := hex_char (_ / 16)).
  change (String c1 (String c2 (hex b)) +:+ s) with (String c1 (String c2 (hex b +:+ s))).
  cbn [String.prefix].
  destruct (Ascii.ascii_dec _ _); [|done].
  destruct (Ascii.ascii_dec _ _) as [E|]; [|done]. by destruct H.
Qed.

Lemma strip_0x_short c : strip_0x (String c "") = String c "".
Proof.
  unfold strip_0x. cbn [String.prefix]. by destruct (Ascii.ascii_dec _ _).
Qed.


(** X13: [_coerce_payload] decodes what [bytes.hex] writes.  For every byte
    string [b], a [call_data] of ["0x"] followed by the hexadecimal digits of
    [b] is accepted and gives [b] (for [b] empty: the text ["0x"] gives the
    empty byte string, not an absent key); without the prefix the same holds
    for every non-empty [b].  The numeric keys are those of the request that
    are neither null nor zero. *)
Theorem coerce_payload_decodes p b :
  call_data p = Some ("0x" +:+ hex b) \/ (b <> [] /\ call_data p = Some (hex b)) ->
  exists data,
    _coerce_payload p = Respond data /\
    p_call_data data = Some b /\
    p_call_gas_limit data = if_truthy (call_gas_limit p) /\
    p_verification_gas_limit data = if_truthy (verification_gas_limit p) /\
    p_pre_verification_gas data = if_truthy (pre_verification_gas p) /\
    p_max_fee_per_gas data = if_truthy (max_fee_per_gas p) /\
    p_max_priority_fee_per_gas data = if_truthy (max_priority_fee_per_gas p).
Proof.
  intros [H|[Hb H]]; unfold _coerce_payload; rewrite H.
  - rewrite decide_False by done.
    rewrite strip_0x_prefixed, fromhex_hex. eexists. by split_and!.
  - rewrite decide_False by by apply hex_nonempty.
    rewrite strip_0x_hex, fromhex_hex. eexists. by split_and!.
Qed.

(** X14: an odd number of hexadecimal digits is refused.  When [call_data] is
    the digits of some bytes followed by one more character that is not
    white space, with or without the ["0x"] prefix, [_coerce_payload] ends in
    an [HTTPException] with status 400, whatever the other fields are. *)
Theorem coerce_payload_rejects_odd p pre b c :
  pre = "" \/ pre = "0x" ->
  is_space c = false ->
  call_data p = Some (pre +:+ (hex b +:+ String c "")) ->
  _coerce_payload p = HTTPException 400.
Proof.
  intros Hpre Hc H. unfold _coerce_payload. rewrite H.
  assert (fromhex (hex b +:+ String c "") = None) as Hnone.
  { by rewrite fromhex_hex_app, fromhex_odd. }
  assert (hex b +:+ String c "" <> "") as Hne.
  { by destruct b. }
  destruct Hpre as [-> | ->].
  - change ("" +:+ ?s) with s. rewrite decide_False by done.
    destruct (decide (b = [])) as [->|Hb].
    + change (hex [] +:+ ?s) with s in *. by rewrite strip_0x_short, Hnone.
    + by rewrite strip_0x_hex_app, Hnone.
  - rewrite decide_False by done. by rewrite strip_0x_prefixed, Hnone.
Qed.


Lemma coerce_payload_decodes_witness :
  exists data,
    _coerce_payload example_request_payload = Respond data /\
    p_call_data data = Some example_call_data /\
    p_call_gas_limit data = if_truthy (call_gas_limit example_request_payload) /\
    p_verification_gas_limit data = if_truthy (verification_gas_limit example_request_payload) /\
    p_pre_verification_gas data = if_truthy (pre_verification_gas example_request_payload) /\
    p_max_fee_per_gas data = if_truthy (max_fee_per_gas example_request_payload) /\
    p_max_priority_fee_per_gas data = if_truthy (max_priority_fee_per_gas example_request_payload).
Proof.
  apply (coerce_payload_decodes example_request_payload example_call_data).
  left. vm_compute. reflexivity.
Defined.

Lemma coerce_payload_rejects_odd_witness :
  _coerce_payload (mkOperationPayload (Some "0xdeadbee") None None None None None)
  = HTTPException 400.
Proof.
  apply (coerce_payload_rejects_odd _ "0x" [Byte.xde; Byte.xad; Byte.xbe] (Ascii.ascii_of_nat 101)).
  - right. reflexivity.
  - vm_compute. reflexivity.
  - vm_compute. reflexivity.
Defined.


(** ** The route handlers *)

Lemma filter_none {A} (P : A -> Prop) `{!forall x, Decision (P x)} (l : list A) :
  (forall x, x ∈ l -> ~ P x) -> filter P l = [].
Proof.
  induction l as [|x l IH]; [done|]. intros Hl. rewrite filter_cons.
  rewrite decide_False by (apply Hl; by left).
  apply IH. intros y Hy. apply Hl. by right.
Qed.

Lemma filter_all {A} (P : A -> Prop) `{!forall x, Decision (P x)} (l : list A) :
  (forall x, x ∈ l -> P x) -> filter P l = l.
Proof.
  induction l as [|x l IH]; [done|]. intros Hl. rewrite filter_cons.
  rewrite decide_True by (apply Hl; by left).
  f_equal. apply IH. intros y Hy. apply Hl. by right.
Qed.

(** X16: the [mark-included] route answers by the job alone.  It ends in a
    404 exactly when no job has the [job_id] of the body, and then nothing is
    written.  Otherwise it answers success, the job is [SUCCEEDED] and the
    job's own operation is [INCLUDED], whatever [operation_id] the path
    names: when the path names another operation, that operation's row is
    left as it was. *)
Theorem mark_operation_included_spec now operation_id job_id tx db :
  store_ok db ->
  let r := mark_operation_included now operation_id job_id tx db in
  (get_job job_id db = None <-> r.1 = HTTPException 404) /\
  (get_job job_id db = None -> r.2 = db) /\
  (forall job, get_job job_id db = Some job ->
     r.1 = Respond true /\
     job_status job_id r.2 = Some BundlerJob.SUCCEEDED /\
     operation_status (BundlerJob.user_operation job) r.2 = Some UserOperation.INCLUDED /\
     (BundlerJob.user_operation job <> operation_id ->
      get_operation operation_id r.2 = get_operation operation_id db)).
Proof.
  intros Hok r. subst r. unfold mark_operation_included.
  destruct (get_job job_id db) as [job|] eqn:Hj.
  - destruct (get_job_related_Some _ _ _ Hok Hj) as (op & Hop & Hrel).
    rewrite (mark_included_found _ _ _ _ _ _ Hrel). cbn [fst snd].
    pose proof Hj as Hj'. apply lookup_row_Some in Hj' as [_ Hjid].
    pose proof Hop as Hop'. apply lookup_row_Some in Hop' as [_ Hoid].
    split; [split; done|]. split; [done|].
    intros ? [= <-]. split; [done|].
    unfold job_status, operation_status, get_job, get_operation in *. cbn [jobs operations].
    rewrite Hjid, Hoid. split_and!.
    + rewrite lookup_row_update_eq by done. by rewrite Hj.
    + rewrite lookup_row_update_eq by done. by rewrite Hop.
    + intros Hne. by rewrite lookup_row_update_ne.
  - unfold mark_included. rewrite (get_job_related_None _ _ Hok Hj). cbn [fst snd].
    split; [split; done|]. split; done.
Qed.

(** X17: the [dispatch] route.  The handler builds a [DispatchResponse] from
    the gateway's dict.  With a batch size of at least one (the query
    parameter is validated so) and at least one job [QUEUED] or [RETRYING],
    it responds: [count] is the number of claimed jobs, between one and the
    batch size, and [job_ids] and [operation_hashes] both have [count]
    entries.  With no such job the dict lacks [operation_hashes], the
    response model refuses it, and the route ends in an exception that
    nothing catches; the database is what it was. *)
Theorem dispatch_jobs_spec now batch_size db :
  store_ok db ->
  1 <= batch_size ->
  let r := dispatch_jobs now batch_size db in
  r.2 = (dispatch_batch now batch_size db).2 /\
  ((forall j, j ∈ jobs db -> ~ eligible j) -> r = (Uncaught, db)) /\
  ((exists j, j ∈ jobs db /\ eligible j) ->
   exists response,
     r.1 = Respond response /\
     count response = Z.of_nat (min batch_size (length (filter eligible (jobs db)))) /\
     (1 <= count response <= Z.of_nat batch_size)%Z /\
     Z.of_nat (length (job_ids response)) = count response /\
     Z.of_nat (length (operation_hashes response)) = count response).
Proof.
  intros Hok Hn r. subst r. unfold dispatch_jobs.
  destruct (dispatch_batch_result now batch_size db Hok) as [Hsome Hnone].
  destruct (queued_jobs_spec batch_size db Hok) as (Hlen & _).
  cbv zeta in *.
  destruct (dispatch_batch now batch_size db) as [result db'] eqn:E. cbn [fst snd] in *.
  split; [by destruct (validate_DispatchResponse result)|]. split.
  - intros Hno.
    assert (queued_jobs batch_size db = []) as Hnil.
    { apply length_zero_iff_nil. rewrite Hlen, (filter_none eligible) by done. simpl. lia. }
    destruct (Hnone Hnil) as ([= -> ->] & _ & Hv). by rewrite Hv.
  - intros (j & Hj & He).
    assert (1 <= length (filter eligible (jobs db))) as Hpos.
    { assert (j ∈ filter eligible (jobs db)) as Hin by by apply list_elem_of_filter.
      destruct (filter eligible (jobs db)); [by apply elem_of_nil in Hin|simpl; lia]. }
    assert (queued_jobs batch_size db <> []) as Hne.
    { intros Hnil. rewrite Hnil in Hlen. simpl in Hlen. lia. }
    destruct (Hsome Hne) as (ids & hashes & Hc & Hi & Hh & Hli & Hlh).
    unfold validate_DispatchResponse. rewrite Hc, Hi, Hh. csimpl.
    eexists. split; [reflexivity|]. cbn [count job_ids operation_hashes].
    rewrite Hli, Hlh, Hlen. split_and!; try done; lia.
Qed.

Lemma validate_reconcile_result p r f :
  validate_ReconcileResponse (reconcile_result p r f)
  = Some (mkReconcileResponse (Z.of_nat p) (Z.of_nat r) (Z.of_nat f)).
Proof.
  unfold validate_ReconcileResponse, reconcile_result.
  assert (forall (m : dict) k v, <[ k := v ]> m !! k = Some v) as Heq
    by (intros; apply lookup_insert_eq).
  rewrite Heq.
  rewrite (lookup_insert_ne _ "processed" "requeued") by done. rewrite Heq.
  rewrite (lookup_insert_ne _ "processed" "failed") by done.
  rewrite (lookup_insert_ne _ "requeued" "failed") by done.
  by rewrite lookup_singleton_eq.
Qed.

(** X18: the [reconcile] route always responds.  [processed] is the number
    of stale jobs handled, at most the limit; every one of them is counted
    once, as requeued or as failed; [failed] counts those whose
    [attempt_count] had reached three. *)
Theorem reconcile_inflight_route_spec now limit db :
  store_ok db ->
  let r := reconcile_inflight_route now limit db in
  r.2 = (reconcile_inflight now limit db).2 /\
  exists response,
    r.1 = Respond response /\
    processed response
      = Z.of_nat (min limit (length (filter (stale (now - minutes 5)) (jobs db)))) /\
    processed response = (rr_requeued response + rr_failed response)%Z /\
    rr_failed response = Z.of_nat (length (filter exhausted (inflight now limit db))) /\
    (0 <= rr_requeued response)%Z.
Proof.
  intros Hok r. subst r. unfold reconcile_inflight_route.
  rewrite reconcile_inflight_eq. cbv zeta.
  destruct (inflight_spec now limit db Hok) as (Hlen & _ & _ & _ & Hnd & _).
  cbv zeta in Hlen.
  destruct (reconcile_loop_spec now _ (mkCounters 0 0) db Hnd) as (Hf & Hr & _).
  cbn [requeued failed] in Hf, Hr.
  rewrite validate_reconcile_result.
  split; [done|]. eexists. split; [reflexivity|].
  cbn [processed rr_requeued rr_failed]. rewrite Hf, Hr, Hlen.
  split_and!; try done; [|lia].
  rewrite <- Hlen.
  rewrite (filter_length_split exhausted (inflight now limit db)) at 1. lia.
Qed.

Lemma mark_operation_included_spec_witness :
  let r := mark_operation_included (seconds 3) 0 4 example_tx example_two_operations in
  r.1 = Respond true /\
  operation_status 3 r.2 = Some UserOperation.INCLUDED /\
  get_operation 0 r.2 = get_operation 0 example_two_operations.
Proof.
  assert (store_ok example_two_operations) as Hok
    by (apply (bool_decide_unpack _); vm_compute; exact I).
  assert (exists job, get_job 4 example_two_operations = Some job /\
                      BundlerJob.user_operation job = 3) as (job & Hj & Hop).
  { eexists. split; vm_compute; reflexivity. }
  destruct (mark_operation_included_spec (seconds 3) 0 4 example_tx example_two_operations
              Hok) as (_ & _ & H).
  destruct (H job Hj) as (H1 & _ & H3 & H4).
  rewrite Hop in H3, H4.
  split; [exact H1|]. split; [exact H3|]. apply H4. discriminate.
Defined.

Lemma dispatch_jobs_spec_witness :
  exists response,
    (dispatch_jobs (seconds 2) 5 example_queued).1 = Respond response /\
    count response = 1%Z /\
    Z.of_nat (length (job_ids response)) = count response /\
    Z.of_nat (length (operation_hashes response)) = count response.
Proof.
  assert (store_ok example_queued) as Hok
    by (apply (bool_decide_unpack _); vm_compute; exact I).
  assert (1 <= 5) as Hn by lia.
  assert (get_job 1 example_queued = Some example_queued_row.1) as Hj
    by (vm_compute; reflexivity).
  assert (eligible example_queued_row.1) as He by (left; reflexivity).
  assert (Z.of_nat (min 5 (length (filter eligible (jobs example_queued)))) = 1%Z) as Hc
    by (vm_compute; reflexivity).
  destruct (dispatch_jobs_spec (seconds 2) 5 example_queued Hok Hn) as (_ & _ & H).
  destruct H as (response & H1 & H2 & _ & H4 & H5).
  { exists example_queued_row.1. split; [|exact He].
    by apply (get_job_elem example_queued 1 _ Hok) in Hj as [? _]. }
  exists response. rewrite Hc in H2. by split_and!.
Defined.

Lemma reconcile_inflight_route_spec_witness :
  exists response,
    (reconcile_inflight_route (seconds 400) 50 example_dispatched).1 = Respond response /\
    processed response = 1%Z /\
    processed response = (rr_requeued response + rr_failed response)%Z /\
    rr_failed response = 0%Z.
Proof.
  assert (store_ok example_dispatched) as Hok
    by (apply (bool_decide_unpack _); vm_compute; exact I).
  assert (Z.of_nat (min 50 (length (filter (stale (seconds 400 - minutes 5))
                                      (jobs example_dispatched)))) = 1%Z) as Hp
    by (vm_compute; reflexivity).
  assert (Z.of_nat (length (filter exhausted (inflight (seconds 400) 50 example_dispatched)))
          = 0%Z) as Hf by (vm_compute; reflexivity).
  destruct (reconcile_inflight_route_spec (seconds 400) 50 example_dispatched Hok)
    as (_ & response & H1 & H2 & H3 & H4 & _).
  exists response. rewrite Hp in H2. rewrite Hf in H4. by split_and!.
Defined.

(** ** The list routes *)

Global Instance newest_first_total : Total newest_first.
Proof. intros x y. unfold newest_first. lia. Qed.

Global Instance newest_first_trans : Transitive newest_first.
Proof. intros x y z. unfold newest_first. lia. Qed.

Global Instance oldest_first_total : Total oldest_first.
Proof. intros x y. unfold oldest_first. lia. Qed.

Global Instance oldest_first_trans : Transitive oldest_first.
Proof. intros x y z. unfold oldest_first. lia. Qed.

Global Instance job_order_rows_total : Total job_order.
Proof. intros x y. unfold job_order. lia. Qed.

Global Instance job_order_rows_trans : Transitive job_order.
Proof. intros x y z. unfold job_order. lia. Qed.

(** A slice as long as the selection holds all of it. *)
Lemma query_all {A} (P : A -> Prop) `{!forall x, Decision (P x)}
    (R : relation A) `{!forall x y, Decision (R x y)} n l x :
  length (filter P l) <= n -> P x -> x ∈ l -> x ∈ query P R n l.
Proof.
  intros Hn HP Hx. unfold query.
  rewrite take_ge by by rewrite (Permutation_length (merge_sort_Permutation R _)).
  rewrite (merge_sort_Permutation R). by apply list_elem_of_filter.
Qed.

(** The conditional [queryset.filter] of the list routes. *)
Lemma filter_selected {A B} `{EqDecision B} (parameter : option B) (unset : B)
    (column : A -> B) (l : list A) :
  match parameter with
  | Some v => if decide (v = unset) then l else filter (fun x => column x = v) l
  | None => l
  end = filter (fun x => selected parameter unset (column x)) l.
Proof.
  destruct parameter as [v|]; simpl.
  - case_decide as Hv.
    + symmetry. apply filter_all. intros. by left.
    + apply list_filter_iff. intros x. split; [by right|]. by intros [?|?].
  - symmetry. by apply filter_all.
Qed.

Lemma filter_filter_and {A} (P Q : A -> Prop) `{!forall x, Decision (P x)}
    `{!forall x, Decision (Q x)} (l : list A) :
  filter Q (filter P l) = filter (fun x => P x /\ Q x) l.
Proof.
  induction l as [|x l IH]; [done|]. rewrite !filter_cons.
  destruct (decide (P x)) as [HP|HP].
  - rewrite filter_cons. destruct (decide (Q x)) as [HQ|HQ].
    + rewrite decide_True by done. by rewrite IH.
    + rewrite decide_False by tauto. done.
  - rewrite decide_False by tauto. done.
Qed.

Lemma filter_iff_elem {A} (P Q : A -> Prop) `{!forall x, Decision (P x)}
    `{!forall x, Decision (Q x)} (l : list A) :
  (forall x, x ∈ l -> P x <-> Q x) -> filter P l = filter Q l.
Proof.
  induction l as [|x l IH]; [done|]. intros Hl. rewrite !filter_cons.
  assert (P x <-> Q x) as Hx by (apply Hl; by left).
  rewrite IH by (intros y Hy; apply Hl; by right).
  destruct (decide (P x)).
  - rewrite decide_True by tauto. done.
  - rewrite decide_False by tauto. done.
Qed.

Lemma list_operations_fetch_eq status_filter chain limit db :
  list_operations_fetch status_filter chain limit db
  = query (operation_selected status_filter chain) newest_first limit (operations db).
Proof.
  unfold list_operations_fetch, query. cbv zeta.
  rewrite (filter_selected status_filter ""
             (fun o => UserOperation.value (UserOperation.status o))).
  rewrite (filter_selected chain 0%Z (fun o => Z.of_N (UserOperation.chain_id o))).
  by rewrite filter_filter_and.
Qed.

Lemma value_of_value st s : UserOperation.value st = s -> UserOperation.of_value s = Some st.
Proof. intros <-. apply of_value_value. Qed.

(** X19: what [GET /operations] fetches.  The rows are operations of the
    table that match the parameters, where an absent or empty [status] and an
    absent or zero [chain_id] match everything; they come newest first by
    [queued_at]; there are [limit] of them, or all matching rows when there
    are fewer; a matching row that is left out is not newer than any row that
    is in.  A [status] that is no status value of the model is not refused:
    the list is empty. *)
Theorem list_operations_fetch_spec status_filter chain limit db :
  let l := list_operations_fetch status_filter chain limit db in
  length l
    = min limit (length (filter (operation_selected status_filter chain) (operations db))) /\
  (forall o, o ∈ l -> o ∈ operations db /\ operation_selected status_filter chain o) /\
  StronglySorted newest_first l /\
  (forall o, o ∈ operations db -> operation_selected status_filter chain o -> o ∉ l ->
     length l = limit /\ forall x, x ∈ l -> newest_first x o) /\
  (forall s, status_filter = Some s -> s <> "" -> UserOperation.of_value s = None -> l = []).
Proof.
  intros l. subst l. rewrite list_operations_fetch_eq. split_and!.
  - apply query_length.
  - intros o Ho. apply (elem_of_query _ newest_first) in Ho. tauto.
  - apply query_sorted; apply _.
  - intros o Ho Hsel Hout. split.
    + rewrite query_length.
      destruct (decide (length (filter (operation_selected status_filter chain)
                                  (operations db)) <= limit)) as [Hle|Hgt]; [|lia].
      destruct Hout. by apply query_all.
    + intros x Hx. by apply (query_first (operation_selected status_filter chain)
                               newest_first limit (operations db)).
  - intros s -> Hs Hnone. apply query_nil. apply filter_none.
    intros o _ [[?|Hv] _]; [done|].
    apply value_of_value in Hv. congruence.
Qed.

Lemma list_jobs_fetch_eq status_filter limit db :
  list_jobs_fetch status_filter limit db
  = query (fun x : joined => job_selected status_filter x.1)
      (fun x y : joined => job_order x.1 y.1) limit (select_related db (jobs db)).
Proof.
  unfold list_jobs_fetch, query. cbv zeta.
  by rewrite (filter_selected status_filter ""
                (fun x : joined => job_status_value (BundlerJob.status x.1))).
Qed.

(** X20: what [GET /jobs] fetches.  Each entry is a job of the table that
    matches the [status] parameter (absent or empty: every job), together
    with the operation it belongs to; the jobs come by [priority] then
    [enqueued_at], no job twice; there are [limit] of them, or all matching
    jobs when there are fewer; a matching job that is left out comes after
    every job that is in.  With [status=queued] and no job [RETRYING], the
    route selects what [dispatch_batch] selects for a batch of that size: a
    job matches exactly when it is open to a claim, the list is as long as
    the batch would be, every listed job is open to a claim, and, when the
    limit cuts nothing off, the list and the batch hold the same jobs up to
    the order of ties. *)
Theorem list_jobs_fetch_spec status_filter limit db :
  store_ok db ->
  let l := list_jobs_fetch status_filter limit db in
  length l = min limit (length (filter (job_selected status_filter) (jobs db))) /\
  (forall x, x ∈ l ->
     get_job (BundlerJob.id x.1) db = Some x.1 /\
     get_operation (BundlerJob.user_operation x.1) db = Some x.2 /\
     job_selected status_filter x.1) /\
  StronglySorted (fun x y : joined => job_order x.1 y.1) l /\
  NoDup (joined_id <$> l) /\
  (forall j x, j ∈ jobs db -> job_selected status_filter j -> j ∉ l.*1 -> x ∈ l ->
     job_order x.1 j) /\
  (forall s, status_filter = Some s -> s <> "" ->
     (forall st, job_status_value st <> s) -> l = []) /\
  ((forall j, j ∈ jobs db -> BundlerJob.status j <> BundlerJob.RETRYING) ->
   status_filter = Some "queued" ->
   (forall j, j ∈ jobs db -> job_selected status_filter j <-> eligible j) /\
   length l = length (queued_jobs limit db) /\
   (forall x, x ∈ l -> eligible x.1) /\
   (length (filter eligible (jobs db)) <= limit -> l ≡ₚ queued_jobs limit db)).
Proof.
  intros Hok l. subst l. rewrite list_jobs_fetch_eq.
  destruct (joined_query_spec db (job_selected status_filter) job_order limit Hok)
    as (H1 & H2 & H3 & H4 & H5 & _).
  cbv zeta in *. split_and!; try done.
  - intros x Hx. destruct (H2 x Hx) as [Hsel Hin].
    destruct (joined_row db x Hok Hin) as (_ & Hj & Ho & Heq).
    unfold joined_id, joined_operation in *. rewrite <- Heq. done.
  - intros s -> Hs Hnone. apply query_nil. apply filter_none.
    intros x _ [?|Hv]; [done|]. by apply Hnone in Hv.
  - intros Hnr ->.
    assert (forall j, j ∈ jobs db -> job_selected (Some "queued") j <-> eligible j) as Hiff.
    { intros j Hj. unfold job_selected, selected, eligible. split.
      - intros [?|Hv]; [done|]. left. by destruct (BundlerJob.status j).
      - intros [Hq|Hr]; [right; by rewrite Hq|]. by apply Hnr in Hr. }
    assert (query (fun x : joined => job_selected (Some "queued") x.1)
              (fun x y : joined => job_order x.1 y.1) limit (select_related db (jobs db))
            = queued_jobs limit db) as Heq.
    { unfold queued_jobs, query. f_equal. f_equal. apply filter_iff_elem.
      intros x Hx. apply elem_of_select_related in Hx as [Hx _]. by apply Hiff. }
    destruct (queued_jobs_spec limit db Hok) as (_ & Q2 & _). cbv zeta in Q2.
    rewrite Heq. split_and!; try done.
    intros x Hx. by apply Q2.
Qed.

Lemma list_jobs_fetch_spec_witness :
  length (list_jobs_fetch (Some "queued") 25 example_two_operations) = 2 /\
  list_jobs_fetch (Some "queued") 25 example_two_operations
    ≡ₚ queued_jobs 25 example_two_operations.
Proof.
  assert (store_ok example_two_operations) as Hok
    by (apply (bool_decide_unpack _); vm_compute; exact I).
  assert (min 25 (length (filter (job_selected (Some "queued"))
                            (jobs example_two_operations))) = 2) as Hn
    by (vm_compute; reflexivity).
  assert (length (filter eligible (jobs example_two_operations)) <= 25) as Hfew
    by (vm_compute; lia).
  destruct (list_jobs_fetch_spec (Some "queued") 25 example_two_operations
              Hok) as (H1 & H2 & _ & _ & _ & _ & H7).
  rewrite Hn in H1. split; [exact H1|].
  destruct H7 as (_ & _ & _ & H8); [|reflexivity|by apply H8].
  intros j Hj Hr.
  assert (Forall (fun j => BundlerJob.status j <> BundlerJob.RETRYING)
            (jobs example_two_operations)) as Hall.
  { apply (bool_decide_unpack _). vm_compute. exact I. }
  rewrite Forall_forall in Hall. by apply (Hall j).
Defined.

(** ** The event log and the routes that read rows back *)

Lemma operations_grow_ids db db' i :
  operations_grow db db' ->
  i ∈ UserOperation.id <$> operations db -> i ∈ UserOperation.id <$> operations db'.
Proof.
  intros [extra He]. rewrite !operation_ids_keys, He, fmap_app.
  intros Hi. apply elem_of_app. by left.
Qed.

Lemma imap_event_ids {A} (l : list A) : forall (f : nat -> A -> UserOperationEvent.t) n,
  (forall k x, UserOperationEvent.id (f k x) = n + k) ->
  UserOperationEvent.id <$> imap f l = seq n (length l).
Proof.
  induction l as [|x l IH]; intros f n Hf; [done|].
  cbn [imap length seq]. rewrite fmap_cons. f_equal.
  - rewrite Hf. lia.
  - apply IH. intros k y. unfold compose. rewrite Hf. lia.
Qed.

Lemma events_ok_extend db db' new m :
  events_ok db ->
  events db' = events db ++ new ->
  operations_grow db db' ->
  UserOperationEvent.id <$> new = seq m (length new) ->
  uuid_next db <= m -> m + length new <= uuid_next db' ->
  Forall (fun e => UserOperationEvent.user_operation e
                     ∈ UserOperation.id <$> operations db') new ->
  events_ok db'.
Proof.
  intros [Hnd Hall] Hev Hgrow Hids Hlo Hhi Hfk. unfold events_ok. rewrite Hev. split.
  - rewrite fmap_app. apply NoDup_app. split_and!; [done| |].
    + intros i Hi Hi'. rewrite Hids in Hi'. apply elem_of_seq in Hi'.
      apply list_elem_of_fmap in Hi as (e & -> & He).
      rewrite Forall_forall in Hall. apply Hall in He. lia.
    + rewrite Hids. apply NoDup_seq.
  - apply Forall_app. split.
    + eapply Forall_impl; [exact Hall|]. intros e [Hlt Hin]. split; [lia|].
      by apply (operations_grow_ids db db').
    + rewrite Forall_forall in Hfk |- *. intros e He. split; [|by apply Hfk].
      assert (UserOperationEvent.id e ∈ UserOperationEvent.id <$> new) as Hi
        by by apply list_elem_of_fmap_2.
      rewrite Hids in Hi. apply elem_of_seq in Hi. lia.
Qed.

Lemma joined_operation_id db x :
  x ∈ select_related db (jobs db) ->
  UserOperation.id x.2 ∈ UserOperation.id <$> operations db.
Proof.
  intros Hx. apply elem_of_select_related in Hx as [_ Ho].
  apply lookup_row_Some in Ho as [Hin _]. by apply list_elem_of_fmap_2.
Qed.

Lemma events_ok_step c db : store_ok db -> events_ok db -> events_ok (step c db).
Proof.
  intros Hok Hev. pose proof (operations_grow_step c db) as Hgrow.
  destruct c as [now a|now n|now n|now job_id tx]; cbn [step] in *.
  - destruct (get_operation_by_hash (user_op_hash a) db) as [o|] eqn:E.
    + apply get_operation_by_hash_Some in E as Ho. destruct Ho as [Ho _].
      revert Hgrow. rewrite (queue_operation_found _ _ _ _ E). cbv zeta. cbn [snd].
      intros Hgrow.
      eapply (events_ok_extend db _ _ (S (uuid_next db))); [done|done|done|done| | |].
      * lia.
      * cbn. lia.
      * apply Forall_singleton. cbn [queued_event UserOperationEvent.user_operation].
        apply (operations_grow_ids db _ _ Hgrow). by apply list_elem_of_fmap_2.
    + revert Hgrow. rewrite (queue_operation_fresh _ _ _ E). cbv zeta. cbn [snd].
      intros Hgrow.
      eapply (events_ok_extend db _ _ (S (S (uuid_next db)))); [done|done|done|done| | |].
      * lia.
      * cbn. lia.
      * apply Forall_singleton. cbn [queued_event UserOperationEvent.user_operation operations].
        rewrite fmap_app. apply elem_of_app. right. cbn. by left.
  - destruct (queued_jobs_spec n db Hok) as (_ & Hin & _ & _ & Hnd & _).
    destruct (dispatch_loop_spec now (queued_jobs n db) [] db Hnd) as (_ & L2 & L3 & _).
    revert Hgrow. rewrite dispatch_batch_eq. cbv zeta. cbn [snd]. intros Hgrow.
    eapply (events_ok_extend db _ _ (uuid_next db)); [done|exact L3|done| | | |].
    + rewrite length_imap. by apply imap_event_ids.
    + lia.
    + rewrite length_imap, L2. lia.
    + apply Forall_imap. intros k x Hx. cbn [dispatching_event UserOperationEvent.user_operation].
      apply (operations_grow_ids db _ _ Hgrow). apply joined_operation_id. by apply Hin.
  - destruct (inflight_spec now n db Hok) as (_ & Hin & _ & _ & Hnd & _).
    destruct (reconcile_loop_spec now _ (mkCounters 0 0) db Hnd) as (_ & _ & L3 & _).
    pose proof (reconcile_inflight_events now n db Hok) as L4.
    revert Hgrow L4. rewrite reconcile_inflight_eq. cbv zeta. cbn [snd]. intros Hgrow L4.
    eapply (events_ok_extend db _ _ (uuid_next db)); [done|exact L4|done| | | |].
    + rewrite length_imap. apply imap_event_ids. intros k x.
      unfold reconcile_event. by case_decide.
    + lia.
    + rewrite length_imap, L3. lia.
    + apply Forall_imap. intros k x Hx.
      assert (UserOperationEvent.user_operation (reconcile_event now (uuid_next db + k) x)
              = UserOperation.id x.2) as ->
        by (unfold reconcile_event; by case_decide).
      apply (operations_grow_ids db _ _ Hgrow). apply joined_operation_id. by apply Hin.
  - destruct (get_job job_id db) as [job|] eqn:Hj.
    + destruct (get_job_related_Some _ _ _ Hok Hj) as (op & Hop & Hrel).
      apply lookup_row_Some in Hop as [Hoin _].
      revert Hgrow. rewrite (mark_included_found _ _ _ _ _ _ Hrel). cbn [snd]. intros Hgrow.
      eapply (events_ok_extend db _ _ (uuid_next db)); [done|done|done|done| | |].
      * lia.
      * cbn. lia.
      * apply Forall_singleton. cbn [included_event UserOperationEvent.user_operation].
        apply (operations_grow_ids db _ _ Hgrow). by apply list_elem_of_fmap_2.
    + revert Hgrow. unfold mark_included. rewrite (get_job_related_None _ _ Hok Hj).
      cbn [snd]. done.
Qed.

Lemma events_ok_run cs : forall db, store_ok db -> events_ok db -> events_ok (run cs db).
Proof.
  induction cs as [|c cs IH]; intros db Hok Hev; simpl; [done|].
  apply IH; [by apply store_ok_step | by apply events_ok_step].
Qed.

Lemma events_ok_reachable db : reachable db -> events_ok db.
Proof.
  intros [cs ->]. apply events_ok_run; [apply store_ok_empty|].
  split; simpl; by constructor.
Qed.

Lemma get_operation_events_found operation_id db o :
  get_operation operation_id db = Some o ->
  get_operation_events operation_id db
  = Respond (merge_sort oldest_first
               (filter (fun e => UserOperationEvent.user_operation e = operation_id)
                  (events db))).
Proof.
  intros Ho. unfold get_operation_events. rewrite Ho.
  apply lookup_row_Some in Ho as [_ ->]. done.
Qed.

(** X21: what the events route returns.  It ends in a 404 exactly when no
    operation has the id of the path.  Otherwise it lists the events of that
    operation, each once and no other event, oldest first by [created_at]. *)
Theorem get_operation_events_spec operation_id db :
  (get_operation operation_id db = None
   <-> get_operation_events operation_id db = HTTPException 404) /\
  (is_Some (get_operation operation_id db) <->
   exists evs,
     get_operation_events operation_id db = Respond evs /\
     evs ≡ₚ filter (fun e => UserOperationEvent.user_operation e = operation_id) (events db) /\
     (forall e, e ∈ evs <->
        e ∈ events db /\ UserOperationEvent.user_operation e = operation_id) /\
     StronglySorted oldest_first evs).
Proof.
  destruct (get_operation operation_id db) as [o|] eqn:Ho.
  - rewrite (get_operation_events_found _ _ _ Ho). split; [split; done|].
    split; [intros _|by eexists].
    eexists. split; [reflexivity|]. split_and!.
    + apply merge_sort_Permutation.
    + intros e. rewrite (merge_sort_Permutation oldest_first), list_elem_of_filter. tauto.
    + apply StronglySorted_merge_sort; apply _.
  - unfold get_operation_events. rewrite Ho. split; [split; done|].
    split; [by intros [? ?]|]. by intros (evs & ? & _).
Qed.

(** X22: the event log stays whole and readable.  In every database the
    gateway can reach from the empty one, no two events share a primary key,
    and every event belongs to an operation that exists: the events route
    for that operation responds (it is never a 404) and lists the event. *)
Theorem event_log_readable db :
  reachable db ->
  NoDup (UserOperationEvent.id <$> events db) /\
  (forall e, e ∈ events db ->
     exists o evs,
       get_operation (UserOperationEvent.user_operation e) db = Some o /\
       get_operation_events (UserOperationEvent.user_operation e) db = Respond evs /\
       e ∈ evs).
Proof.
  intros Hr. destruct (events_ok_reachable db Hr) as [Hnd Hall]. split; [done|].
  intros e He. rewrite Forall_forall in Hall. destruct (Hall e He) as [_ Hfk].
  apply (lookup_row_is_Some UserOperation.id) in Hfk as [o Ho].
  exists o. eexists. split; [exact Ho|].
  split; [by apply (get_operation_events_found _ _ o)|].
  rewrite (merge_sort_Permutation oldest_first), list_elem_of_filter. done.
Qed.

Lemma get_operation_detail_found operation_id db o :
  get_operation operation_id db = Some o ->
  get_operation_detail operation_id db
  = Respond (o, merge_sort job_order
                  (filter (fun j => BundlerJob.user_operation j = operation_id) (jobs db))).
Proof.
  intros Ho. unfold get_operation_detail. rewrite Ho.
  apply lookup_row_Some in Ho as [_ ->]. done.
Qed.

(** X23: what the detail route returns.  It ends in a 404 exactly when no
    operation has the id of the path.  Every job of the table is listed in
    the detail of its own operation, which therefore is never a 404; the
    jobs listed there are the jobs of that operation and no others, each
    once, by [priority] then [enqueued_at]. *)
Theorem get_operation_detail_spec db :
  store_ok db ->
  (forall i, get_operation i db = None <-> get_operation_detail i db = HTTPException 404) /\
  (forall j, j ∈ jobs db ->
     exists o js,
       get_operation (BundlerJob.user_operation j) db = Some o /\
       get_operation_detail (BundlerJob.user_operation j) db = Respond (o, js) /\
       j ∈ js /\
       (forall j', j' ∈ js <->
          j' ∈ jobs db /\ BundlerJob.user_operation j' = BundlerJob.user_operation j) /\
       NoDup (BundlerJob.id <$> js) /\
       StronglySorted job_order js).
Proof.
  intros Hok. split.
  - intros i. destruct (get_operation i db) as [o|] eqn:Ho.
    + by rewrite (get_operation_detail_found _ _ _ Ho).
    + unfold get_operation_detail. by rewrite Ho.
  - intros j Hj. destruct (job_operation_exists db j Hok Hj) as [o Ho].
    exists o. eexists. split; [exact Ho|].
    split; [by apply get_operation_detail_found|].
    assert (forall j', j' ∈ merge_sort job_order
                             (filter (fun j' => BundlerJob.user_operation j'
                                                = BundlerJob.user_operation j) (jobs db))
                       <-> j' ∈ jobs db /\
                           BundlerJob.user_operation j' = BundlerJob.user_operation j) as Hmem.
    { intros j'. rewrite (merge_sort_Permutation job_order), list_elem_of_filter. tauto. }
    split_and!.
    + by apply Hmem.
    + exact Hmem.
    + rewrite (merge_sort_Permutation job_order).
      eapply sublist_NoDup; [apply Hok|]. apply fmap_sublist, sublist_filter.
    + apply StronglySorted_merge_sort; apply _.
Qed.

Lemma queue_operation_stored now a db :
  store_ok db ->
  let r := queue_operation now a db in
  user_operation r.1 ∈ operations r.2 /\
  bundler_job r.1 ∈ jobs r.2 /\
  BundlerJob.user_operation (bundler_job r.1) = UserOperation.id (user_operation r.1) /\
  exists i,
    events r.2
    = events db ++ [queued_event now i (UserOperation.id (user_operation r.1)) (endpoint a)].
Proof.
  intros Hok r. subst r.
  destruct (get_operation_by_hash (user_op_hash a) db) as [o|] eqn:E.
  - pose proof (get_operation_by_hash_Some _ _ _ E) as [Ho Hh].
    destruct (decide (UserOperation.status o = UserOperation.QUEUED)) as [Hq|Hq].
    + rewrite (queue_operation_found _ _ _ _ E). cbv zeta.
      rewrite !decide_False by (intros ?; congruence).
      cbn [fst snd operations jobs events user_operation bundler_job].
      split_and!; try done; [|by eexists]. apply elem_of_app. right. by left.
    + pose proof (queue_operation_own_hash now a db o Hok E Hq) as Hrow.
      apply lookup_row_Some in Hrow as [Hrow _]. revert Hrow.
      rewrite (queue_operation_found _ _ _ _ E). cbv zeta.
      rewrite !decide_True by done.
      cbn [fst snd operations jobs events user_operation bundler_job]. intros Hrow.
      split_and!; try done; [|by eexists]. apply elem_of_app. right. by left.
  - rewrite (queue_operation_fresh _ _ _ E). cbv zeta.
    cbn [fst snd operations jobs events user_operation bundler_job].
    split_and!; try done; [| |by eexists]; apply elem_of_app; right; by left.
Qed.

(** X24: what [POST /operations] answers can be read back.  After
    [queue_operation], the detail route for the operation id it returned
    responds with the returned operation object and lists the returned job,
    and the events route for that id lists the one event this call appended
    to the log: a [queued] event whose payload is the endpoint and whose
    [created_at] is the time of the call. *)
Theorem queued_operation_readable now a db :
  store_ok db ->
  let r := queue_operation now a db in
  let i := UserOperation.id (user_operation r.1) in
  (exists js,
     get_operation_detail i r.2 = Respond (user_operation r.1, js) /\
     bundler_job r.1 ∈ js) /\
  (exists evs e,
     get_operation_events i r.2 = Respond evs /\
     e ∈ evs /\
     events r.2 = events db ++ [e] /\
     UserOperationEvent.event_type e = "queued" /\
     UserOperationEvent.payload e = {[ "endpoint" := JStr (endpoint a) ]} /\
     UserOperationEvent.created_at e = now).
Proof.
  intros Hok r i.
  assert (store_ok r.2) as Hok' by by apply store_ok_queue_operation.
  destruct (queue_operation_stored now a db Hok) as (Ho & Hj & Hfk & k & Hev).
  fold r in Ho, Hj, Hfk, Hev.
  assert (get_operation i r.2 = Some (user_operation r.1)) as Hget
    by by apply (get_operation_elem r.2 _ _ Hok').
  split.
  - eexists. split; [by apply get_operation_detail_found|].
    rewrite (merge_sort_Permutation job_order), list_elem_of_filter. done.
  - eexists. exists (queued_event now k i (endpoint a)).
    split; [by apply (get_operation_events_found _ _ (user_operation r.1))|].
    split_and!; try done.
    rewrite (merge_sort_Permutation oldest_first), list_elem_of_filter.
    split; [done|]. rewrite Hev. apply elem_of_app. right. by left.
Qed.

Lemma event_log_readable_witness :
  reachable example_included /\
  NoDup (UserOperationEvent.id <$> events example_included).
Proof.
  assert (reachable example_included) as Hr by by exists example_included_calls.
  split; [exact Hr|].
  destruct (event_log_readable example_included Hr) as [H _]. exact H.
Defined.

Lemma get_operation_detail_spec_witness :
  store_ok example_two_operations /\
  (get_operation 1 example_two_operations = None
   <-> get_operation_detail 1 example_two_operations = HTTPException 404).
Proof.
  assert (store_ok example_two_operations) as Hok
    by (apply (bool_decide_unpack _); vm_compute; exact I).
  split; [exact Hok|].
  destruct (get_operation_detail_spec example_two_operations Hok)
    as [H _].
  exact (H 1).
Defined.

Lemma queued_operation_readable_witness :
  store_ok example_queued /\
  exists js,
    get_operation_detail
      (UserOperation.id (user_operation (queue_operation (seconds 2) example_args
                                           example_queued).1))
      (queue_operation (seconds 2) example_args example_queued).2
    = Respond (user_operation (queue_operation (seconds 2) example_args example_queued).1, js) /\
    bundler_job (queue_operation (seconds 2) example_args example_queued).1 ∈ js.
Proof.
  assert (store_ok example_queued) as Hok
    by (apply (bool_decide_unpack _); vm_compute; exact I).
  split; [exact Hok|].
  destruct (queued_operation_readable (seconds 2) example_args example_queued Hok) as [H _].
  exact H.
Defined.
